(** * idlearn: outline, typography and section-text extraction

    A shallow embedding of [app/text_extractor.py] (class [TextExtractor]),
    of [app/toc_extractor.py] (class [TOCExtractor]: the heading scorer,
    the font analysis, the headings of a PDF and of an HTML file, the
    clean-up of the entries) and of the selection of sections in
    [app/gui.py], with the properties of the outline, of the dominant
    typography estimate, of the section scan and of these.

    Conventions.
    - A Python [str] is a list of code points ([pystr]); an [int] is a [Z];
      a finite [float] (font sizes, coordinates) is the rational it denotes,
      a [Q], compared numerically.
    - A [dict] that the code iterates or returns is an association list in
      insertion order.
    - An exception is a value of [exn]; code that can raise returns a
      [result].
    - Case mapping, [\d] and [\w] are those of Python on the Basic Latin
      and Latin-1 blocks, and [\s] is the full Unicode white-space class;
      a statement that depends on the first three is made for Latin-1
      strings ([latin1]). *)

From Stdlib Require Import String Ascii.
From Stdlib Require Import ZArith NArith QArith Qround List Bool Lia Sorted.
From Stdlib Require Import Permutation Lqa.
Import ListNotations.

Set Implicit Arguments.
Open Scope Z_scope.

(* ================================================================== *)
(** * Python values *)

Module Py.

Definition char := N.
Bind Scope N_scope with char.
Definition pystr := list char.

(** A string literal of the source, as code points. *)
Definition str (s : string) : pystr :=
  map N_of_ascii (list_ascii_of_string s).

Definition char_eqb (a b : char) : bool := N.eqb a b.

Fixpoint str_eqb (a b : pystr) : bool :=
  match a, b with
  | [], [] => true
  | x :: a', y :: b' => N.eqb x y && str_eqb a' b'
  | _, _ => false
  end.

Definition between (lo hi c : char) : bool := (N.leb lo c && N.leb c hi)%N.

(** [str.isspace], which is also the class [\s] of a [str] pattern. *)
Definition is_space (c : char) : bool :=
  (between 9 13 c || between 28 32 c || N.eqb c 133 || N.eqb c 160
   || N.eqb c 5760 || between 8192 8202 c || between 8232 8233 c
   || N.eqb c 8239 || N.eqb c 8287 || N.eqb c 12288)%N.

Definition is_upper_char (c : char) : bool :=
  (between 65 90 c || (between 192 222 c && negb (N.eqb c 215)))%N.

Definition is_lower_char (c : char) : bool :=
  (between 97 122 c || N.eqb c 170 || N.eqb c 181 || N.eqb c 186
   || (between 223 255 c && negb (N.eqb c 247)))%N.

Definition lower_char (c : char) : char :=
  if is_upper_char c then (c + 32)%N else c.

(** The simple upper-case mapping, used by case-insensitive matching. *)
Definition upper_char (c : char) : char :=
  if (between 97 122 c || (between 224 254 c && negb (N.eqb c 247)))%N
  then (c - 32)%N else c.

(** [\d] and [\w] of a [str] pattern, for a Latin-1 character. *)
Definition is_digit (c : char) : bool := between 48%N 57%N c.

(** The class [[0-9]]. *)
Definition is_digit_ascii (c : char) : bool := between 48%N 57%N c.

Definition is_word (c : char) : bool :=
  (between 48 57 c || between 65 90 c || N.eqb c 95 || between 97 122 c
   || N.eqb c 170 || between 178 179 c || N.eqb c 181 || between 185 186 c
   || between 188 190 c
   || (between 192 255 c && negb (N.eqb c 215) && negb (N.eqb c 247)))%N.

(** [s.lower()], for a Latin-1 string. *)
Definition lower (s : pystr) : pystr := map lower_char s.

(** [s.isupper()], for a Latin-1 string: some cased character, and no
    lower-case one. *)
Definition isupper (s : pystr) : bool :=
  existsb is_upper_char s && negb (existsb is_lower_char s).

(** [s.strip(chars)], with the set of stripped characters as a predicate. *)
Fixpoint lstrip_with (p : char -> bool) (s : pystr) : pystr :=
  match s with
  | c :: s' => if p c then lstrip_with p s' else s
  | [] => []
  end.

Definition rstrip_with (p : char -> bool) (s : pystr) : pystr :=
  rev (lstrip_with p (rev s)).

Definition strip_with (p : char -> bool) (s : pystr) : pystr :=
  rstrip_with p (lstrip_with p s).

(** [s.strip()] *)
Definition strip (s : pystr) : pystr := strip_with is_space s.

Definition one_of (cs : pystr) (c : char) : bool := existsb (N.eqb c) cs.

(** [a in s] on strings. *)
Fixpoint startswith (a s : pystr) : bool :=
  match a, s with
  | [], _ => true
  | x :: a', y :: s' => N.eqb x y && startswith a' s'
  | _ :: _, [] => false
  end.

Fixpoint contains (a s : pystr) : bool :=
  startswith a s
  || match s with
     | [] => false
     | _ :: s' => contains a s'
     end.

(** Exceptions the modelled code can raise. *)
Inductive exn :=
  IndexError | TypeError | ValueError | RecursionError | NameError.

Inductive result (A : Type) : Type :=
| Ok (a : A)
| Raise (e : exn).

Arguments Ok {A} a.
Arguments Raise {A} e.

Definition bind {A B} (r : result A) (f : A -> result B) : result B :=
  match r with
  | Ok a => f a
  | Raise e => Raise e
  end.

(** [l[i]] on a list, for an index that may be negative. *)
Definition getitem {A} (l : list A) (i : Z) : result A :=
  let n := Z.of_nat (length l) in
  let j := if i <? 0 then i + n else i in
  if (j <? 0) || (n <=? j) then Raise IndexError
  else match nth_error l (Z.to_nat j) with
       | Some a => Ok a
       | None => Raise IndexError
       end.

(** [l.index(x)]: the first position holding a value equal to [x]. *)
Fixpoint index_of {A} (eqb : A -> A -> bool) (x : A) (l : list A) : option nat :=
  match l with
  | [] => None
  | y :: l' => if eqb y x then Some O
               else option_map S (index_of eqb x l')
  end.

Definition index {A} (eqb : A -> A -> bool) (l : list A) (x : A) : result nat :=
  match index_of eqb x l with
  | Some i => Ok i
  | None => Raise ValueError
  end.

End Py.

Export Py.

(** The strings on which the tables of [Py] are those of Python: every
    code point is U+00FF at most. *)
Definition latin1 (s : pystr) : bool := forallb (fun c => N.leb c 255) s.

Notation "x <- c1 ;; c2" := (bind c1 (fun x => c2))
  (at level 61, c1 at next level, right associativity).

(* ================================================================== *)
(** * The fragment of [re] the source uses

    Greedy, backtracking matching, as the [re] module does it: the first
    alternative, and the longest repetition, that lets the rest of the
    pattern match. *)

Module Re.

Inductive re : Type :=
| Lit (s : pystr)            (* literal text, also [re.escape(s)] *)
| Cls (p : char -> bool)     (* a class [[...]] or an escape such as [\s] *)
| Dot                        (* [.]: any character but a newline *)
| Bol                        (* [^] *)
| Eol                        (* [$]: the end, or before a final newline *)
| Seq (r1 r2 : re)
| Alt (r1 r2 : re)
| Star (r : re)
| Plus (r : re)
| Opt (r : re)
| Grp (n : nat) (r : re).    (* capturing group number [n] *)

(** Captured groups, most recent binding first. *)
Definition caps := list (nat * pystr).

Fixpoint group (cs : caps) (n : nat) : pystr :=
  match cs with
  | [] => []
  | (k, s) :: cs' => if Nat.eqb k n then s else group cs' n
  end.

Definition cont := nat -> pystr -> caps -> option (nat * caps).

Section Matcher.

Variable ic : bool.   (* the flag [re.IGNORECASE] *)

Definition chr_ok (a c : char) : bool :=
  if ic then N.eqb (lower_char a) (lower_char c) else N.eqb a c.

Definition cls_ok (p : char -> bool) (c : char) : bool :=
  p c || (ic && (p (lower_char c) || p (upper_char c))).

Fixpoint lit_match (l s : pystr) : option pystr :=
  match l, s with
  | [], _ => Some s
  | a :: l', c :: s' => if chr_ok a c then lit_match l' s' else None
  | _ :: _, [] => None
  end.

(** Greedy repetition of [body]; an iteration must consume input. *)
Fixpoint star (body : nat -> pystr -> caps -> cont -> option (nat * caps))
         (fuel : nat) (pos : nat) (s : pystr) (cs : caps) (k : cont)
  : option (nat * caps) :=
  match fuel with
  | O => k pos s cs
  | S f =>
      match body pos s cs
              (fun pos' s' cs' =>
                 if (pos <? pos')%nat then star body f pos' s' cs' k
                 else None) with
      | Some x => Some x
      | None => k pos s cs
      end
  end.

(** [m r pos s cs k]: match [r] at offset [pos], where [s] is what is
    left of the subject, then continue with [k]. *)
Fixpoint m (r : re) (pos : nat) (s : pystr) (cs : caps) (k : cont)
  {struct r} : option (nat * caps) :=
  match r with
  | Lit l =>
      match lit_match l s with
      | Some s' => k (pos + length l)%nat s' cs
      | None => None
      end
  | Cls p =>
      match s with
      | c :: s' => if cls_ok p c then k (S pos) s' cs else None
      | [] => None
      end
  | Dot =>
      match s with
      | c :: s' => if N.eqb c 10%N then None else k (S pos) s' cs
      | [] => None
      end
  | Bol => if (pos =? 0)%nat then k pos s cs else None
  | Eol =>
      match s with
      | [] => k pos s cs
      | [c] => if N.eqb c 10%N then k pos s cs else None
      | _ => None
      end
  | Seq r1 r2 => m r1 pos s cs (fun pos' s' cs' => m r2 pos' s' cs' k)
  | Alt r1 r2 =>
      match m r1 pos s cs k with
      | Some x => Some x
      | None => m r2 pos s cs k
      end
  | Star r1 => star (m r1) (S (length s)) pos s cs k
  | Plus r1 =>
      m r1 pos s cs
        (fun pos' s' cs' => star (m r1) (S (length s')) pos' s' cs' k)
  | Opt r1 =>
      match m r1 pos s cs k with
      | Some x => Some x
      | None => k pos s cs
      end
  | Grp n r1 =>
      m r1 pos s cs
        (fun pos' s' cs' =>
           k pos' s' ((n, firstn (pos' - pos) s) :: cs'))
  end.

Definition accept : cont := fun pos _ cs => Some (pos, cs).

(** [re.match(r, s)]: the end offset and the groups of a match at 0. *)
Definition re_match (r : re) (s : pystr) : option (nat * caps) :=
  m r 0 s [] accept.

Fixpoint search_from (r : re) (pos : nat) (s : pystr)
  : option (nat * nat * caps) :=
  match m r pos s [] accept with
  | Some (e, cs) => Some (pos, e, cs)
  | None =>
      match s with
      | [] => None
      | _ :: s' => search_from r (S pos) s'
      end
  end.

(** [re.search(r, s)]: start, end and groups of the leftmost match. *)
Definition re_search (r : re) (s : pystr) : option (nat * nat * caps) :=
  search_from r 0 s.

(** A replacement template: literal text and group references [\n]. *)
Inductive tpl := TLit (s : pystr) | TRef (n : nat).

Definition expand (t : list tpl) (cs : caps) : pystr :=
  flat_map (fun x => match x with
                     | TLit s => s
                     | TRef n => group cs n
                     end) t.

Fixpoint sub_loop (r : re) (t : list tpl) (fuel pos : nat) (s : pystr)
  : pystr :=
  match fuel with
  | O => s
  | S f =>
      let step := match s with
                  | [] => []
                  | c :: s' => c :: sub_loop r t f (S pos) s'
                  end in
      match m r pos s [] accept with
      | Some (e, cs) =>
          if (pos <? e)%nat
          then expand t cs ++ sub_loop r t f e (skipn (e - pos) s)
          else expand t cs ++ step
      | None => step
      end
  end.

(** [re.sub(r, t, s)]: every non-overlapping match, left to right. *)
Definition re_sub (r : re) (t : list tpl) (s : pystr) : pystr :=
  sub_loop r t (S (length s)) 0 s.

End Matcher.

Definition matches (o : option (nat * caps)) : bool :=
  match o with Some _ => true | None => false end.

Definition found (o : option (nat * nat * caps)) : bool :=
  match o with Some _ => true | None => false end.

(** A pattern that is a sequence of parts. *)
Fixpoint cat (rs : list re) : re :=
  match rs with
  | [] => Lit []
  | [r] => r
  | r :: rs' => Seq r (cat rs')
  end.

Definition chr (c : char) : re := Lit [c].
Definition txt (s : string) : re := Lit (str s).
Definition set (s : string) : re := Cls (one_of (str s)).
Definition ws : re := Cls is_space.
Definition dig : re := Cls is_digit.
Definition wrd : re := Cls is_word.
Definition AZ : re := Cls (between 65%N 90%N).
Definition az : re := Cls (between 97%N 122%N).

End Re.

Import Re.

(* ================================================================== *)
(** * The document model handed over by the page library

    What [page.get_text("dict")], [doc.get_toc()], [doc.page_count] and
    [doc.metadata] give: pages of blocks, blocks of lines, lines of
    spans. *)

Module Doc.

(** A bounding box [(x0, y0, x1, y1)]. *)
Definition bbox : Type := Q * Q * Q * Q.

Definition y0 (b : bbox) : Q := let '(_, y, _, _) := b in y.
Definition y1 (b : bbox) : Q := let '(_, _, _, y) := b in y.

Record span := Span {
  text : pystr;
  font : pystr;
  size : Q;
  flags : Z;
  span_bbox : bbox
}.

Record line := Line {
  spans : list span;       (* [line.get("spans", [])] *)
  line_bbox : bbox
}.

Record block := Block {
  block_type : Z;          (* 0: text, 1: image *)
  block_bbox : bbox;
  lines : option (list line)   (* an image block has no "lines" key *)
}.

(** [block.get("lines", [])] *)
Definition get_lines (b : block) : list line :=
  match lines b with
  | Some l => l
  | None => []
  end.

Record page := Page {
  height : Q;              (* [page.rect.height] *)
  blocks : list block
}.

(** An item [[level, title, page]] of the embedded outline. *)
Definition toc_item : Type := Z * pystr * Z.

Record document := Document {
  outline : list toc_item;     (* [doc.get_toc()] *)
  pages : list page;
  format : pystr               (* [doc.metadata["format"]] *)
}.

Definition page_count (d : document) : Z := Z.of_nat (length (pages d)).

(** Every span of the document, in reading order: the four nested loops
    over pages, blocks, lines and spans. *)
Definition all_spans (d : document) : list span :=
  flat_map (fun p =>
    flat_map (fun b =>
      flat_map (fun l => spans l) (get_lines b)) (blocks p)) (pages d).

End Doc.

Export Doc.

(* ================================================================== *)
(** * [TextExtractor.get_toc] *)

(** An entry [(level, title, start_page, end_page)] of the formatted ToC. *)
Definition entry : Type := Z * pystr * Z * Z.

Definition sec_level (s : entry) : Z := let '(l, _, _, _) := s in l.
Definition sec_title (s : entry) : pystr := let '(_, t, _, _) := s in t.
Definition sec_start (s : entry) : Z := let '(_, _, p, _) := s in p.
Definition sec_end (s : entry) : Z := let '(_, _, _, e) := s in e.

Definition item_level (x : toc_item) : Z := let '(l, _, _) := x in l.
Definition item_page (x : toc_item) : Z := let '(_, _, p) := x in p.

(** The three nested [re.sub] calls on a title: carriage returns go; runs
    of the three characters U+00AD U+00A0 "]" go; runs of the eleven
    characters U+2000 .. U+200A, in this order, become one space. *)
Definition clean_title (title : pystr) : pystr :=
  re_sub false
    (Plus (Grp 1 (Lit [8192; 8193; 8194; 8195; 8196; 8197; 8198; 8199;
                       8200; 8201; 8202]%N)))
    [TLit (str " ")]
    (re_sub false (Plus (Grp 1 (Lit [173; 160; 93]%N))) []
       (re_sub false (chr 13) [] title)).

(** The inner loop [for j in range(i + 1, len(toc))] over the items after
    item [i], with [end_page] initialised to the page count. *)
Fixpoint look_ahead (level : Z) (rest : list toc_item) (end_page : Z) : Z :=
  match rest with
  | [] => end_page
  | (next_level, _, next_start) :: rest' =>
      if next_level <=? level then next_start
      else look_ahead level rest' end_page
  end.

Fixpoint toc_with_end (page_count : Z) (toc : list toc_item) : list entry :=
  match toc with
  | [] => []
  | (level, title, start_page) :: rest =>
      (level, clean_title title, start_page,
       look_ahead level rest page_count)
      :: toc_with_end page_count rest
  end.

Definition get_toc (doc : document) : list entry :=
  toc_with_end (page_count doc) (outline doc).

(* ================================================================== *)
(** * [collections.Counter] *)

Module Counter.

Section Counting.

Variable A : Type.
Variable eqb : A -> A -> bool.

(** A counter: keys in order of first insertion, each with its count. *)
Definition t := list (A * Z).

Fixpoint add (x : A) (c : t) : t :=
  match c with
  | [] => [(x, 1)]
  | (y, n) :: c' => if eqb y x then (y, n + 1) :: c'
                    else (y, n) :: add x c'
  end.

(** [Counter(l)] *)
Definition of_list (l : list A) : t :=
  fold_left (fun c x => add x c) l [].

(** [sorted(items, key=count, reverse=True)]: a stable sort, so that
    keys of equal count stay in order of first insertion. *)
Fixpoint insert (x : A * Z) (l : t) : t :=
  match l with
  | [] => [x]
  | y :: l' => if snd y <? snd x then x :: l else y :: insert x l'
  end.

Definition by_count (c : t) : t :=
  fold_left (fun acc x => insert x acc) c [].

(** The keys of a counter, in order. *)
Definition keys (c : t) : list A := map fst c.

(** [c.most_common(n)] *)
Definition most_common (n : nat) (c : t) : t := firstn n (by_count c).

End Counting.

End Counter.

(* ================================================================== *)
(** * The dominant typography: [get_main_size], [get_main_font] *)

Open Scope Q_scope.

(** [round(x)] of a float: to the nearest integer, ties to even. *)
Definition py_round (x : Q) : Z :=
  let f := Qfloor x in
  match Qcompare (x - inject_Z f) (1 # 2) with
  | Lt => f
  | Gt => (f + 1)%Z
  | Eq => if Z.even f then f else (f + 1)%Z
  end.

Definition Qlt_bool (a b : Q) : bool := negb (Qle_bool b a).

Close Scope Q_scope.

(** The pattern [[\s\t]+]. *)
Definition blank_run : re :=
  Plus (Cls (fun c => is_space c || N.eqb c 9)).

(** The guard [not re.match(r'[\s\t]+', span["text"])] of both loops. *)
Definition counted (s : span) : bool :=
  negb (matches (re_match false blank_run (text s))).

(** The list [font_sizes] at the end of the loops of [get_main_size]. *)
Definition font_sizes (doc : document) : list Z :=
  map (fun s => py_round (size s)) (filter counted (all_spans doc)).

(** The list [fonts] at the end of the loops of [get_main_font]. *)
Definition fonts (doc : document) : list pystr :=
  map font (filter counted (all_spans doc)).

(** [dominant_size[1]] is read first, then [dominant_size[0]]; the two
    sizes are integers already, so the final [round] leaves them as they
    are; [/] is the true division. *)
Definition get_main_size (doc : document) : result Z :=
  let size_count := Counter.of_list Z.eqb (font_sizes doc) in
  let dominant_size := Counter.most_common 2 size_count in
  d1 <- getitem dominant_size 1 ;;
  d0 <- getitem dominant_size 0 ;;
  if (fst d1 >? fst d0)
     && Qlt_bool (inject_Z (fst d0) / 2) (inject_Z (snd d1))
  then Ok (fst d1)
  else Ok (fst d0).

Definition get_main_font (doc : document) : result pystr :=
  let font_count := Counter.of_list str_eqb (fonts doc) in
  dominant_font <- getitem (Counter.most_common 1 font_count) 0 ;;
  Ok (fst dominant_font).

(** The module of [TextExtractor] binds the names of its imports and of
    its class, and no [doc]: reading the global [doc] raises
    [NameError]. *)
Definition global_doc : result document := Raise NameError.

(** [info_extract]: the first statement reads the height of [doc[0]]
    from the global [doc], not from [self.doc]; the frame is the
    constant 50. *)
Definition PFRAME : Z := 50.

Definition info_extract (self_doc : document) : result (Q * Z * Z * pystr) :=
  doc <- global_doc ;;
  page0 <- getitem (pages doc) 0 ;;
  main_size <- get_main_size self_doc ;;
  main_font <- get_main_font self_doc ;;
  Ok (height page0, PFRAME, main_size, main_font).

(* ================================================================== *)
(** * Look-ups in the formatted ToC *)

Definition section_eqb (a b : entry) : bool :=
  let '(l1, t1, s1, e1) := a in
  let '(l2, t2, s2, e2) := b in
  (l1 =? l2) && str_eqb t1 t2 && (s1 =? s2) && (e1 =? e2).

(** The loop of [get_children] over [toc[index + 1:]]: an entry below
    the section is appended, an entry on its level ends the loop, an
    entry above it is passed over. *)
Fixpoint children_loop (level : Z) (rest : list entry) : list entry :=
  match rest with
  | [] => []
  | sec :: rest' =>
      if sec_level sec >? level then sec :: children_loop level rest'
      else if sec_level sec =? level then []
      else children_loop level rest'
  end.

Definition get_children (toc : list entry) (section : entry)
  : result (list entry) :=
  i <- index section_eqb toc section ;;
  Ok (children_loop (sec_level section) (skipn (S i) toc)).

Fixpoint next_loop (level : Z) (rest : list entry) : option entry :=
  match rest with
  | [] => None
  | sec :: rest' =>
      if sec_level sec <=? level then Some sec else next_loop level rest'
  end.

Definition get_next_section (toc : list entry) (section : entry)
  : result (option entry) :=
  i <- index section_eqb toc section ;;
  Ok (next_loop (sec_level section) (skipn (S i) toc)).

(* ================================================================== *)
(** * The heading scorer of [TOCExtractor] *)

Module TOCExtractor.

Definition roman : re := set "IVXLCDM".

(** The class [[\s\.\-:]]. *)
Definition sep : re := Cls (fun c => is_space c || one_of (str ".-:") c).

Definition heading_patterns : list re :=
  [ cat [Bol; Grp 1 (Alt (txt "Chapter") (txt "CHAPTER")); Plus ws;
         Grp 2 (Alt (Plus dig) (Plus roman)); Star sep;
         Grp 3 (Star Dot); Eol];
    cat [Bol; Grp 1 (Plus dig); set ".)"; Plus ws; Grp 2 (Plus Dot); Eol];
    cat [Bol; Grp 1 (cat [Plus dig; txt "."; Plus dig]); set ".)"; Plus ws;
         Grp 2 (Plus Dot); Eol];
    cat [Bol; Grp 1 (Plus roman);
         Plus (Cls (fun c => one_of (str ".)") c || is_space c));
         Grp 2 (Plus Dot); Eol];
    cat [Bol; Grp 1 (Alt (txt "PART") (txt "Part")); Plus ws;
         Grp 2 (Alt (Plus dig) (Plus roman)); Star sep;
         Grp 3 (Star Dot); Eol];
    cat [Bol; Grp 1 (Alt (txt "Section") (txt "SECTION")); Plus ws;
         Grp 2 (Plus dig); Star sep; Grp 3 (Star Dot); Eol] ].

Definition heading_keywords : list pystr :=
  map str
    [ "chapter"; "section"; "part"; "introduction"; "conclusion";
      "appendix"; "bibliography"; "references"; "index"; "abstract";
      "summary"; "overview"; "background"; "methodology"; "results";
      "discussion"; "acknowledgments"; "preface"; "foreword" ]%string.

(** The dictionary returned by [_analyze_font_characteristics]. *)
Record font_stats := FontStats {
  sizes : list Q;
  median_size : Q;
  large_sizes : list Q
}.

Definition pattern_match (text : pystr) : bool :=
  existsb (fun p => matches (re_match true p text)) heading_patterns.

(** The pattern [^\d+(\.\d+)*[\.\)\s]]. *)
Definition numeric_start : re :=
  cat [Bol; Plus dig; Star (Grp 1 (Seq (txt ".") (Plus dig)));
       Cls (fun c => one_of (str ".)") c || is_space c)].

(** The pattern [^[IVXLCDM]+[\.\)\s]], matched without regard to case. *)
Definition roman_start : re :=
  cat [Bol; Plus roman; Cls (fun c => one_of (str ".)") c || is_space c)].

(** The variable [score] at the end of [_is_potential_heading]. *)
Definition heading_score (text : pystr) (span : span) (fs : font_stats) : Z :=
  let is_bold := negb (Z.land (flags span) (2 ^ 4) =? 0) in
  let is_italic := negb (Z.land (flags span) (2 ^ 1) =? 0) in
  let keyword_match :=
    existsb (fun keyword => contains keyword (lower text)) heading_keywords in
  let is_caps := isupper text && (length text <? 50)%nat in
  (if Qlt_bool (median_size fs) (size span) then 2 else 0)
  + (if is_bold then 2 else 0)
  + (if is_italic then 1 else 0)
  + (if pattern_match text then 3 else 0)
  + (if keyword_match then 2 else 0)
  + (if matches (re_match false numeric_start text) then 2 else 0)
  + (if matches (re_match true roman_start text) then 2 else 0)
  + (if is_caps then 1 else 0).

Definition _is_potential_heading (text : pystr) (span : span)
           (fs : font_stats) : bool :=
  if (length text <? 3)%nat then false
  else if (200 <? length text)%nat then false
  else if Qle_bool (size span) (median_size fs) && negb (pattern_match text)
  then false
  else 3 <=? heading_score text span fs.

Definition _determine_heading_level (text : pystr) (span : span)
           (fs : font_stats) : Z :=
  let size := size span in
  let large := large_sizes fs in
  let at_least (i : nat) := Qle_bool (nth i large 0%Q) size in
  let level :=
    match large with
    | [] => 2
    | _ :: _ =>
        if at_least 0%nat then 1
        else if (1 <? length large)%nat && at_least 1%nat then 2
        else if (2 <? length large)%nat && at_least 2%nat then 3
        else 4
    end in
  let level :=
    if matches (re_match false
                  (cat [Bol; Grp 1 (Alt (txt "Chapter") (Alt (txt "CHAPTER")
                                    (Alt (txt "Part") (txt "PART"))))]) text)
    then Z.min level 1
    else if matches (re_match false
                  (cat [Bol; Plus dig; txt "."; Plus dig; txt ".";
                        Plus dig]) text)
    then Z.max level 3
    else if matches (re_match false
                  (cat [Bol; Plus dig; txt "."; Plus dig]) text)
    then Z.max level 2
    else if matches (re_match false (cat [Bol; Plus dig; set ".)"]) text)
    then Z.max level 1
    else level in
  Z.max 1 (Z.min level 6).

End TOCExtractor.

(* ================================================================== *)
(** * Sample documents *)

Module Samples.

Definition box0 : bbox := (0, 0, 0, 0)%Q.

Definition blank_page : page := Page 800 [].

Definition with_outline (toc : list toc_item) (n : nat) : document :=
  Document toc (repeat blank_page n) (str "PDF 1.7").

(** Two chapters, the first with a section. *)
Definition book : document :=
  with_outline [ (1, str "Introduction", 1); (2, str "Scope", 2);
                 (1, str "Methods", 4) ] 10.

(** An outline whose second chapter points back to an earlier page. *)
Definition back_reference : document :=
  with_outline [ (1, str "Results", 10); (1, str "Appendix", 5) ] 20.

(** An outline with a level-3 item directly under a chapter. *)
Definition level_jump : document :=
  with_outline [ (1, str "A", 1); (2, str "A.1", 2); (1, str "B", 5);
                 (3, str "B.0.1", 6) ] 9.

(** A one-page document with one line of [n] spans of size [a] in font
    [f] followed by [k] spans of size [b] in font [g]. *)
Definition word (f : string) (sz : Q) : span :=
  Span (str "word") (str f) sz 0 box0.

Definition two_sizes (n : nat) (a : Q) (k : nat) (b : Q) : document :=
  Document []
    [Page 800
       [Block 0 (72, 100, 500, 700)%Q
          (Some [Line (repeat (word "Serif" a) n ++ repeat (word "Sans" b) k)
                      box0])]]
    (str "PDF 1.7").

(** A one-page article: a running header, the heading "Methods", three
    lines of body text and a folio; its outline also lists "Results",
    which no line of the page announces. *)
Definition plain (t f : string) (sz : Q) : span :=
  Span (str t) (str f) sz 0 box0.

Definition row (y : Q) (l : list span) : line :=
  Line l (72, y, 500, y + 12)%Q.

Definition text_block (top bottom : Q) (ls : list line) : block :=
  Block 0 (72, top, 500, bottom)%Q (Some ls).

Definition paper : document :=
  Document
    [ (1, str "Methods", 1); (1, str "Results", 1) ]
    [ Page 800
        [ text_block 10 30 [row 10 [plain "Running header" "Serif" 8]];
          text_block 100 120 [row 100 [plain "Methods" "Serif-Bold" 14]];
          text_block 130 200
            [ row 130 [plain "We use an exam-" "Serif" 10];
              row 142 [plain "ple here." "Serif" 10];
              row 154 [plain "More" "Serif" 10; plain "text" "Serif" 10] ];
          text_block 760 790 [row 760 [plain "12" "Serif" 8]] ] ]
    (str "PDF 1.7").

Definition methods : entry := (1, str "Methods", 1, 1).
Definition results : entry := (1, str "Results", 1, 1).

End Samples.

(* ================================================================== *)
(** * The children of an entry, in the words of the specification *)

(** The entries right after a section, as long as their level is
    strictly greater than the section's: the run ends at the first entry
    whose level is less than or equal to it. *)
Fixpoint children_run_spec (level : Z) (rest : list entry) : list entry :=
  match rest with
  | [] => []
  | sec :: rest' =>
      if sec_level sec >? level then sec :: children_run_spec level rest'
      else []
  end.

(* ================================================================== *)
(** * Leading white space *)

(** The text begins with a white-space character (a tab is one). *)
Definition starts_blank (t : pystr) : bool :=
  match t with
  | c :: _ => is_space c
  | [] => false
  end.

(* ================================================================== *)
(** * [TextExtractor.get_span] *)

(** A merged span [{'text', 'font', 'size'}]. *)
Record mspan := MSpan {
  mtext : pystr;
  mfont : pystr;
  msize : Q
}.

(** The ligatures U+FB01, U+FB02 and the em dash U+2014. *)
Definition ligature : re :=
  Cls (fun c => N.eqb c 64257 || N.eqb c 64258 || N.eqb c 8212).

(** [(\\xa[d0])+]: the four characters backslash, x, a and then d or 0,
    as the raw pattern writes them. *)
Definition escaped_soft_hyphen : re :=
  Plus (Grp 1 (cat [txt "\xa"; set "d0"])).

(** [(\\u200[0-9a])+] *)
Definition escaped_thin_space : re :=
  Plus (Grp 1 (cat [txt "\u200";
                    Cls (fun c => is_digit_ascii c || N.eqb c 97)])).

(** The two writes [s["font"] = ...] and [s["text"] = ...] at the head of
    the loop; the text is rewritten for a span that is not blank only. *)
Definition blank_line : re :=
  cat [Plus (Cls (fun c => is_space c || N.eqb c 9)); Eol].

Definition is_blank (s : span) : bool :=
  matches (re_match false blank_line (text s)).

Definition clean_span (s : span) : span :=
  let font' := re_sub false (cat [txt "+"; Star Dot]) [] (font s) in
  if is_blank s
  then Span (text s) font' (size s) (flags s) (span_bbox s)
  else
    Span (re_sub false (cat [Star Dot; escaped_thin_space; Star Dot])
            [TLit (str " ")]
            (re_sub false (cat [Star Dot; escaped_soft_hyphen; Star Dot]) []
               (text s)))
         font' (size s) (flags s) (span_bbox s).

(** The line as [get_span] leaves it: its span dicts are written to in
    place. *)
Definition clean_line (l : line) : line :=
  Line (map clean_span (spans l)) (line_bbox l).

(** [s[-1]] and [s[0]] of a string, [s[-2:]]. *)
Definition last_char (s : pystr) : result pystr :=
  match rev s with
  | c :: _ => Ok [c]
  | [] => Raise IndexError
  end.

Definition first_char (s : pystr) : result pystr :=
  match s with
  | c :: _ => Ok [c]
  | [] => Raise IndexError
  end.

Definition last_two (s : pystr) : pystr := skipn (length s - 2) s.

(** One round of the first loop, on a span [s] already written to and not
    blank.  [acc] is the variable [span] ([None] for [{}]), [out] the list
    [spans]. *)
Definition merge_step (out : list mspan) (acc : option mspan) (s : span)
  : result (list mspan * option mspan) :=
  match acc with
  | None => Ok (out, Some (MSpan (text s) (font s) (size s)))
  | Some span =>
      if matches (re_match false
                    (cat [Opt (Grp 1 (Plus (Grp 2 (Seq (Plus AZ) ws))));
                          AZ; Eol])
                    (strip_with (one_of (str " ,.:?!")) (mtext span)))
      then Ok (out, Some (MSpan (mtext span ++ text s) (font s) (size s)))
      else if negb (str_eqb (mfont span) (font s))
              || negb (Qeq_bool (msize span) (size s))
      then
        if matches (re_match false (cat [Plus AZ; Eol]) (text s))
        then Ok (out, Some (MSpan (mtext span ++ str " " ++ text s)
                                  (mfont span) (msize span)))
        else Ok (out ++ [span],
                 Some (MSpan (text s) (font s) (size s)))
      else
        lig <- (if matches (re_match false
                              (cat [Opt (Grp 1 ws); ligature;
                                    Opt (Grp 2 ws); Eol]) (text s))
                then Ok true
                else c <- last_char (mtext span) ;;
                     Ok (matches (re_match false (cat [ligature; Eol]) c))) ;;
        if lig
        then Ok (out, Some (MSpan (mtext span ++ text s)
                                  (mfont span) (msize span)))
        else
          (* the test on font and size of the fourth branch holds here *)
          c0 <- first_char (text s) ;;
          c1 <- last_char (mtext span) ;;
          if str_eqb c0 (str " ") || str_eqb c1 (str " ")
             || ((1 <? length (mtext span))%nat
                 && matches (re_match false (cat [Bol; ws; AZ; Eol])
                               (last_two (mtext span))))
          then Ok (out, Some (MSpan (mtext span ++ text s)
                                    (mfont span) (msize span)))
          else Ok (out, Some (MSpan (mtext span ++ str " " ++ text s)
                                    (mfont span) (msize span)))
  end.

Fixpoint merge_loop (out : list mspan) (acc : option mspan) (l : list span)
  : result (list mspan) :=
  match l with
  | [] => Ok (match acc with
              | Some span => out ++ [span]
              | None => out
              end)
  | s :: l' =>
      if is_blank s then merge_loop out acc l'
      else
        r <- merge_step out acc (clean_span s) ;;
        merge_loop (fst r) (snd r) l'
  end.

(** The second loop: the text of each merged span is tidied. *)
Definition tidy (t : pystr) : pystr :=
  let t := strip t in
  let t := re_sub false escaped_thin_space [TLit (str " ")] t in
  let t := re_sub false
             (cat [Opt (Grp 1 (Seq (txt ";") ws)); txt "["; ws;
                   Plus (Grp 2 (Seq dig
                                  (Opt (Grp 3 (cat [ws; txt ","; Plus ws])))));
                   ws; txt "]"]) [] t in
  let t := re_sub false
             (cat [Opt (Grp 1 (Seq (txt ";") ws)); txt "["; ws; Plus dig; ws;
                   chr 8211; ws; Plus dig; ws; txt "]"]) [] t in
  let t := re_sub false (Seq (txt "(") ws) [TLit (str "(")] t in
  let t := re_sub false (Seq ws (txt ")")) [TLit (str ")")] t in
  let t := re_sub false (Plus ws) [TLit (str " ")] t in
  let t := re_sub false (chr 64257) [TLit (str "fi")] t in
  re_sub false (chr 64258) [TLit (str "fl")] t.

Definition get_span (l : line) : result (list mspan) :=
  merged <- merge_loop [] None (spans l) ;;
  Ok (map (fun span => MSpan (tidy (mtext span)) (mfont span) (msize span))
          merged).

(* ================================================================== *)
(** * The loop of [text_extract] for one section

    In the source [text_extract] is written below the [return] of
    [get_span], one level too deep: the class has no method of this
    name, and the first lines of its body call [info_extract] and
    [toc2dtoc] with an argument they do not take.  What follows is the
    statements of the body for one section, from [key = ""] to the end
    of the loop over its pages, with the variables that the lines before
    them set ([pheight], [pframe], [main_size], [main_font], [section],
    [next_section], [subsections], [main_text], [num_block]) and the call
    [self.text_extract] as parameters. *)

Module Scan.

(** Equality of the dictionaries the page library returns. *)
Definition bbox_eqb (a b : bbox) : bool :=
  let '(a0, a1, a2, a3) := a in
  let '(b0, b1, b2, b3) := b in
  Qeq_bool a0 b0 && Qeq_bool a1 b1 && Qeq_bool a2 b2 && Qeq_bool a3 b3.

Fixpoint list_eqb {A} (eqb : A -> A -> bool) (a b : list A) : bool :=
  match a, b with
  | [], [] => true
  | x :: a', y :: b' => eqb x y && list_eqb eqb a' b'
  | _, _ => false
  end.

Definition span_eqb (a b : span) : bool :=
  str_eqb (text a) (text b) && str_eqb (font a) (font b)
  && Qeq_bool (size a) (size b) && (flags a =? flags b)
  && bbox_eqb (span_bbox a) (span_bbox b).

Definition line_eqb (a b : line) : bool :=
  list_eqb span_eqb (spans a) (spans b)
  && bbox_eqb (line_bbox a) (line_bbox b).

Definition block_eqb (a b : block) : bool :=
  (block_type a =? block_type b)
  && bbox_eqb (block_bbox a) (block_bbox b)
  && match lines a, lines b with
     | Some la, Some lb => list_eqb line_eqb la lb
     | None, None => true
     | _, _ => false
     end.

(** The list [value]: the text first, then one dictionary for each
    recursive call; and the dictionary [main_text]. *)
Unset Elimination Schemes.
Inductive velem :=
| VStr (s : pystr)
| VDict (d : list (pystr * list velem)).
Set Elimination Schemes.

Definition value := list velem.
Definition dict := list (pystr * value).

(** [d[k] = v] *)
Fixpoint setitem (d : dict) (k : pystr) (v : value) : dict :=
  match d with
  | [] => [(k, v)]
  | (k', v') :: d' => if str_eqb k' k then (k', v) :: d'
                      else (k', v') :: setitem d' k v
  end.


(** Reading [value[0]] as a string, and [value[0] = t]. *)
Definition value0 (v : value) : result pystr :=
  match v with
  | VStr s :: _ => Ok s
  | VDict _ :: _ => Raise TypeError
  | [] => Raise IndexError
  end.

Definition set_value0 (v : value) (t : pystr) : result value :=
  match v with
  | _ :: v' => Ok (VStr t :: v')
  | [] => Raise IndexError
  end.

(** [doc.load_page(n)] followed by [get_text("dict")["blocks"]]: a
    negative number counts from the end, a number past the end is not in
    the document. *)
Definition load_page (doc : document) (n : Z) : result (list block) :=
  let count := page_count doc in
  if (count <=? n) || (count =? 0) then Raise ValueError
  else match nth_error (pages doc) (Z.to_nat (n mod count)) with
       | Some p => Ok (blocks p)
       | None => Raise ValueError
       end.

(** [range(a, b)] *)
Definition range (a b : Z) : list Z :=
  map (fun k => a + Z.of_nat k) (seq 0 (Z.to_nat (b - a))).

Fixpoint mapM {A B} (f : A -> result B) (l : list A) : result (list B) :=
  match l with
  | [] => Ok []
  | a :: l' => b <- f a ;; bs <- mapM f l' ;; Ok (b :: bs)
  end.

(** [re.sub(r'[ ,.:?!]', '', s)] *)
Definition squeeze (s : pystr) : pystr :=
  re_sub false (set " ,.:?!") [] s.

(** The double [re.search] of the title tests: the squeezed span text
    occurs in the squeezed title, or the other way round. *)
Definition fuzzy (span_text title : pystr) : bool :=
  let a := squeeze (strip (lower span_text)) in
  let b := squeeze (lower title) in
  found (re_search false (Lit a) b) || found (re_search false (Lit b) a).

(** [\s?\d+\s?$], the bare page number. *)
Definition folio : re := cat [Opt ws; Plus dig; Opt ws; Eol].

(** The four rewrites of [value[0]] after each block. *)
Definition post_process (v : pystr) : pystr :=
  let v := re_sub false (Seq (Cls (fun c => N.eqb c 173 || N.eqb c 160)) ws)
             [] v in
  let v := re_sub false
             (cat [Plus ws; Grp 1 (Seq (set ".,:?!") (Grp 2 AZ))])
             [TRef 1; TLit (str " "); TRef 2] v in
  let v := if matches (re_match false (txt ". ") v) then skipn 2 v else v in
  if matches (re_match false
                (cat [Plus az; Opt (Grp 1 (txt ".")); Opt ws; Plus wrd]) v)
  then re_sub false
         (cat [Bol; Plus az; Opt (Grp 1 (txt ".")); Opt ws;
               Grp 2 (Plus wrd)]) [TRef 2] v
  else v.

(** The state of the scan of one section. *)
Record state := State {
  key : pystr;
  val : value;
  skip : bool;
  stop : bool;
  flag : bool;
  main_text : dict
}.

Definition with_key (s : state) (k : pystr) (v : value) : state :=
  State k v (skip s) (stop s) (flag s) (main_text s).
Definition with_val (s : state) (v : value) : state :=
  State (key s) v (skip s) (stop s) (flag s) (main_text s).
Definition with_skip (s : state) (b : bool) : state :=
  State (key s) (val s) b (stop s) (flag s) (main_text s).
Definition with_stop (s : state) (b : bool) : state :=
  State (key s) (val s) (skip s) b (flag s) (main_text s).
Definition with_flag (s : state) (b : bool) : state :=
  State (key s) (val s) (skip s) (stop s) b (main_text s).
Definition with_main_text (s : state) (d : dict) : state :=
  State (key s) (val s) (skip s) (stop s) (flag s) d.

(** How the body of the loop over lines ends. *)
Inductive ctl := Next | Break.

Section Extract.

Variable doc : document.
Variable pheight : Q.
Variable pframe : Z.
Variable main_size : Z.
Variable main_font : pystr.
(** The call [self.text_extract(subsections, n)]. *)
Variable recurse : list entry -> nat -> result dict.

(** The test on the block that guards the loop over its lines. *)
Definition eligible (b : block) : bool :=
  (contains (str "pdf") (lower (format doc))
   && Qlt_bool (inject_Z pframe) (y0 (block_bbox b))
   && Qlt_bool (y1 (block_bbox b)) (pheight - inject_Z pframe)%Q)
  || contains (str "epub") (lower (format doc)).

(** One round of the loop [for span in spans]. *)
Definition add_span (v : value) (span : mspan) : result value :=
  if matches (re_match false folio (mtext span))
     && Qlt_bool (msize span) (inject_Z main_size)
  then Ok v
  else
    v0 <- value0 v ;;
    hyphen <- (if (1 <? length v0)%nat
               then c <- last_char v0 ;;
                    Ok (matches (re_match false (txt "-") c))
               else Ok false) ;;
    if hyphen || (length v0 =? 0)%nat
    then set_value0 v (strip v0 ++ mtext span)
    else set_value0 v (strip v0 ++ str " " ++ mtext span).

Fixpoint add_spans (v : value) (spans : list mspan) : result value :=
  match spans with
  | [] => Ok v
  | span :: spans' => v' <- add_span v span ;; add_spans v' spans'
  end.

(** The tail of the loop body, from [if key != '':] on. *)
Definition accumulate (inline_title : bool) (spans : list mspan)
           (s : state) : result (state * ctl) :=
  if str_eqb (key s) [] then Ok (s, Next)
  else
    v <- add_spans (val s) (if inline_title then tl spans else spans) ;;
    Ok (with_val s v, Next).

Section OneSection.

Variable section : entry.
Variable next_section : option entry.
Variable subsections : list entry.

(** The tests of the branch [Detect titles] on the first merged span
    [sp0], in the order of the source. *)
Definition on_heading (blocks : list block) (block : block)
           (sp0 : mspan) (spans : list mspan) (s : state)
  : result (state * ctl) :=
  if fuzzy (mtext sp0) (sec_title section) then
    if str_eqb (key s) [] then
      let s := with_key s (sec_title section) [VStr []] in
      if (length spans <=? 1)%nat then Ok (s, Next)
      else accumulate true spans s
    else if str_eqb (squeeze (strip (lower (mtext sp0))))
                    (squeeze (lower (sec_title section)))
    then Ok (s, Next)
    else accumulate false spans s
  else if flag s then
    match next_section with
    | None => Raise TypeError
    | Some next =>
        if negb (fuzzy (mtext sp0) (sec_title next))
        then Ok (with_skip s true, Break)
        else Ok (with_stop (with_flag s false) true, Break)
    end
  else if match next_section with
          | None => false
          | Some next => fuzzy (mtext sp0) (sec_title next)
          end && negb (str_eqb (key s) [])
  then Ok (with_stop s true, Break)
  else if match subsections with
          | [] => false
          | first :: _ => fuzzy (mtext sp0) (sec_title first)
          end && negb (str_eqb (key s) [])
  then
    i <- index block_eqb blocks block ;;
    d <- recurse subsections i ;;
    Ok (with_flag (with_val s (val s ++ [VDict d])) true, Break)
  else if str_eqb (strip (lower (mtext sp0))) (str "references")
          || str_eqb (strip (lower (mtext sp0))) (str "bibliography")
  then Ok (with_stop s true, Break)
  else if matches (re_match false folio (mtext sp0))
  then Ok (with_skip s true, Break)
  else accumulate false spans s.

(** The body of the loop over the lines of a block.  [blocks] is the
    page, [block] the current block and [line] the current line, all
    as they are once [get_span] has written to the line. *)
Definition line_body (blocks : list block) (block : block)
           (spans : list mspan) (line : line) (s : state)
  : result (state * ctl) :=
  match spans with
  | [] => Ok (s, Next)
  | sp0 :: _ =>
      i <- index block_eqb blocks block ;;
      previous <- getitem blocks (Z.of_nat i - 1) ;;
      if (block_type previous =? 1)
         && (negb (str_eqb (mfont sp0) main_font)
             || Qlt_bool (msize sp0) (inject_Z main_size))
      then Ok (s, Break)
      else
        heading <-
          (if negb (str_eqb (mfont sp0) main_font) then Ok true
           else if negb (Qeq_bool (msize sp0) (inject_Z main_size))
           then j <- index line_eqb (get_lines block) line ;;
                Ok (j <? 4)%nat
           else Ok false) ;;
        if heading then on_heading blocks block sp0 spans s
        else accumulate false spans s
  end.

(** The loop over the lines: [done] are the lines gone through, as
    written to; [rest] the lines to come. *)
Fixpoint scan_lines (before after : list block) (type : Z) (box : bbox)
         (done rest : list line) (s : state)
  : result (state * list line) :=
  match rest with
  | [] => Ok (s, done)
  | line :: rest' =>
      spans <- get_span line ;;
      let line := clean_line line in
      let lines_now := done ++ line :: rest' in
      let block := Block type box (Some lines_now) in
      r <- line_body (before ++ block :: after) block spans line s ;;
      match snd r with
      | Break => Ok (fst r, lines_now)
      | Next => scan_lines before after type box (done ++ [line]) rest'
                  (fst r)
      end
  end.

(** [main_text[key] = value] and the rewrites of [value[0]], after
    each block once the key is set. *)
Definition after_block (s : state) : result state :=
  if str_eqb (key s) [] then Ok s
  else
    v0 <- value0 (val s) ;;
    v <- set_value0 (val s) (post_process v0) ;;
    Ok (with_main_text (with_val s v) (setitem (main_text s) (key s) v)).

(** The loop over [blocks[num_block:]]. *)
Fixpoint scan_blocks (before rest : list block) (s : state)
  : result (state * list block) :=
  match rest with
  | [] => Ok (s, before)
  | block :: rest' =>
      if skip s || stop s then Ok (s, before ++ rest)
      else
        r <- (if eligible block
              then match lines block with
                   | Some ls =>
                       r <- scan_lines before rest' (block_type block)
                              (block_bbox block) [] ls s ;;
                       Ok (fst r,
                           Block (block_type block) (block_bbox block)
                                 (Some (snd r)))
                   | None => Ok (s, block)
                   end
              else Ok (s, block)) ;;
        s' <- after_block (fst r) ;;
        scan_blocks (before ++ [snd r]) rest' s'
  end.

(** The loop over [pblocks]. *)
Fixpoint scan_pages (before rest : list (list block)) (num_block : nat)
         (s : state) : result (state * nat) :=
  match rest with
  | [] => Ok (s, num_block)
  | blocks :: rest' =>
      if stop s then Ok (s, num_block)
      else
        let s := with_skip s false in
        i <- index (list_eqb block_eqb) (before ++ blocks :: rest')
               blocks ;;
        let num_block := if (0 <? i)%nat then 0%nat else num_block in
        r <- scan_blocks (firstn num_block blocks)
               (skipn num_block blocks) s ;;
        scan_pages (before ++ [snd r]) rest' num_block (fst r)
  end.

(** The variables as the statements before the loop over the pages set
    them: no key, no value, the three flags down. *)
Definition initial (main_text : dict) : state :=
  State [] [] false false false main_text.

(** The list [pblocks] of the section. *)
Definition section_pages : result (list (list block)) :=
  mapM (fun i => load_page doc (i - 1))
       (range (sec_start section) (sec_end section + 1)).

End OneSection.

End Extract.

(** The mapping when the loop over the pages is over. *)
Definition mapping_after (r : result (state * nat)) : result dict :=
  r' <- r ;; Ok (main_text (fst r')).

End Scan.

(* ================================================================== *)
(** * Sections whose title is never met *)

Module Unmatched.

Import Scan.





(** The scan has not met the title: no key, no sub-scan started, and the
    mapping as it was. *)
Definition idle (mt : dict) (s : state) : Prop :=
  key s = [] /\ flag s = false /\ main_text s = mt.

End Unmatched.

(* ================================================================== *)
(** * The margin band *)

Module Margin.

(** The box lies within the top band or within the bottom band of a page
    of height [pheight]: both its upper and its lower edge do. *)
Definition in_band (pheight : Q) (pframe : Z) (b : block) : Prop :=
  (y0 (block_bbox b) <= inject_Z pframe
   /\ y1 (block_bbox b) <= inject_Z pframe)%Q
  \/ (pheight - inject_Z pframe <= y0 (block_bbox b)
      /\ pheight - inject_Z pframe <= y1 (block_bbox b))%Q.

(** The format string of a fixed-page document, of a reflowable one. *)
Definition is_pdf (doc : document) : Prop :=
  contains (str "pdf") (lower (format doc)) = true
  /\ contains (str "epub") (lower (format doc)) = false.

Definition is_epub (doc : document) : Prop :=
  contains (str "epub") (lower (format doc)) = true.

End Margin.

(* ================================================================== *)
(** * Counting hyphens *)

Module Hyphen.

(** The ASCII hyphen, U+002D. *)
Definition hyphen : char := 45.

Definition hyphens (s : pystr) : nat := count_occ N.eq_dec s hyphen.

(** No part of the pattern can consume a hyphen. *)
Fixpoint hyphen_free (r : re) : bool :=
  match r with
  | Lit l => (hyphens l =? 0)%nat
  | Cls p => negb (p hyphen)
  | Dot => false
  | Bol | Eol => true
  | Seq a b | Alt a b => hyphen_free a && hyphen_free b
  | Star a | Plus a | Opt a | Grp _ a => hyphen_free a
  end.

Definition caps_clean (cs : caps) : Prop :=
  Forall (fun gt => hyphens (snd gt) = 0%nat) cs.

Definition tpl_clean (t : list tpl) : Prop :=
  Forall (fun x => match x with
                   | TLit l => hyphens l = 0%nat
                   | TRef _ => True
                   end) t.

(** What is matched holds no hyphen, and neither does what is captured. *)
Definition consumes_clean
           (f : nat -> pystr -> caps -> cont -> option (nat * caps)) : Prop :=
  forall pos s cs k res,
    f pos s cs k = Some res ->
    exists n cs',
      (n <= length s)%nat /\ hyphens (firstn n s) = 0%nat
      /\ (caps_clean cs -> caps_clean cs')
      /\ k (pos + n)%nat (skipn n s) cs' = Some res.

End Hyphen.

(* ================================================================== *)
(** * Predicates on outlines *)

(** The item [j] of the outline is the first one after item [i] whose
    level is [level] or above it (numerically at most [level]). *)
Definition next_not_below (toc : list toc_item) (i : nat) (level : Z)
           (j : nat) (x : toc_item) : Prop :=
  (i < j)%nat /\ nth_error toc j = Some x /\ item_level x <= level /\
  forall k y, (i < k < j)%nat -> nth_error toc k = Some y ->
              level < item_level y.

(** Every item after item [i] is below [level]. *)
Definition all_below (toc : list toc_item) (i : nat) (level : Z) : Prop :=
  forall k y, (i < k)%nat -> nth_error toc k = Some y -> level < item_level y.

(** Start pages in outline order never decrease, and none is beyond the
    last page. *)
Definition pages_in_order (page_count : Z) (toc : list toc_item) : Prop :=
  StronglySorted (fun x y => item_page x <= item_page y) toc /\
  Forall (fun x => item_page x <= page_count) toc.


(* ================================================================== *)
(** * Counting occurrences *)

(** The number of elements of [l] equal to [x]. *)
Fixpoint occurrences {A} (eqb : A -> A -> bool) (x : A) (l : list A) : Z :=
  match l with
  | [] => 0
  | y :: l' => (if eqb y x then 1 else 0) + occurrences eqb x l'
  end.

(** [c[x]]: the count of a key, 0 for a key that is not there. *)
Fixpoint counter_get {A} (eqb : A -> A -> bool) (x : A) (c : Counter.t A)
  : Z :=
  match c with
  | [] => 0
  | (y, n) :: c' => if eqb y x then n else counter_get eqb x c'
  end.

(** Counts never increase along the list. *)
Definition by_count_desc {A} (l : Counter.t A) : Prop :=
  StronglySorted (fun a b : A * Z => snd b <= snd a) l.

(* ================================================================== *)
(** * White space in a text *)

(** The length of the longest prefix of [s] whose characters satisfy
    [p]. *)
Fixpoint run (p : char -> bool) (s : pystr) : nat :=
  match s with
  | c :: s' => if p c then S (run p s') else O
  | [] => O
  end.

(** Every white-space character of the text is a space U+0020, and no
    two white-space characters follow each other; [after_space] tells
    that the character before the text is a white-space one. *)
Fixpoint spaced (after_space : bool) (s : pystr) : Prop :=
  match s with
  | [] => True
  | c :: s' =>
      if is_space c
      then c = 32%N /\ after_space = false /\ spaced true s'
      else spaced false s'
  end.

(* ================================================================== *)
(** * The keys of the mapping *)

Module Keys.

Import Scan.

(** [d.keys()] *)
Definition keys (d : dict) : list pystr := map fst d.

(** While a section is scanned, the key is not set or is the title of
    the section, and the mapping holds no other new key than this
    title. *)
Definition within (mt0 : dict) (title : pystr) (s : state) : Prop :=
  (key s = [] \/ key s = title)
  /\ incl (keys (main_text s)) (title :: keys mt0).

(** A step that leaves the mapping alone and sets no key but the
    title. *)
Definition quiet (title : pystr) (s s' : state) : Prop :=
  main_text s' = main_text s
  /\ (key s' = key s \/ key s' = title).

(** The format of the document names neither of the two kinds. *)
Definition unsupported (doc : document) : Prop :=
  contains (str "pdf") (lower (format doc)) = false
  /\ contains (str "epub") (lower (format doc)) = false.

End Keys.

(* ================================================================== *)
(** * [TOCExtractor]: the entries, their clean-up and their order *)

Module TOCEntries.

Import TOCExtractor.

(** The dataclass [TOCEntry]; [page] and [position] default to [None]. *)
Record TOCEntry := Entry {
  entry_title : pystr;
  entry_level : Z;
  entry_page : option Z;
  entry_position : option Q
}.

(** [_extract_builtin_toc]: one entry for each item of the outline. *)
Definition _extract_builtin_toc (doc : document) : list TOCEntry :=
  map (fun item : toc_item =>
         let '(level, title, page) := item in
         Entry title level (Some page) None)
      (outline doc).

(** The key [(entry.title.lower(), entry.level)] kept in [seen]. *)
Definition seen_key (e : TOCEntry) : pystr * Z :=
  (lower (entry_title e), entry_level e).

Definition key_eqb (a b : pystr * Z) : bool :=
  str_eqb (fst a) (fst b) && (snd a =? snd b).

(** The loop that drops an entry whose key has been seen. *)
Fixpoint dedupe (seen : list (pystr * Z)) (entries : list TOCEntry)
  : list TOCEntry :=
  match entries with
  | [] => []
  | entry :: rest =>
      let key := seen_key entry in
      if existsb (key_eqb key) seen then dedupe seen rest
      else entry :: dedupe (key :: seen) rest
  end.

(** The truth value of [entry.page] and of [entry.position]. *)
Definition has_page (e : TOCEntry) : bool :=
  match entry_page e with
  | Some p => negb (p =? 0)
  | None => false
  end.

Definition has_position (e : TOCEntry) : bool :=
  match entry_position e with
  | Some q => negb (Qeq_bool q 0)
  | None => false
  end.

(** [x.page or 0] and [x.position or 0] *)
Definition page_or_0 (e : TOCEntry) : Z :=
  match entry_page e with
  | Some p => if p =? 0 then 0 else p
  | None => 0
  end.

Definition position_or_0 (e : TOCEntry) : Q :=
  match entry_position e with
  | Some q => if Qeq_bool q 0 then 0%Q else q
  | None => 0%Q
  end.

(** The order of the keys [(x.page or 0, x.position or 0)], compared as
    tuples, and of the keys [x.position or 0]: [x] may stay before
    [y]. *)
Definition by_page (x y : TOCEntry) : bool :=
  if page_or_0 x =? page_or_0 y
  then Qle_bool (position_or_0 x) (position_or_0 y)
  else page_or_0 x <? page_or_0 y.

Definition by_position (x y : TOCEntry) : bool :=
  Qle_bool (position_or_0 x) (position_or_0 y).

(** [list.sort(key=...)], a stable sort: an entry goes before the first
    one whose key is not smaller than its own, and so stays before the
    later entries of the same key. *)
Section StableSort.

Variable A : Type.
Variable le : A -> A -> bool.

Fixpoint sort_insert (x : A) (l : list A) : list A :=
  match l with
  | [] => [x]
  | y :: l' => if le x y then x :: l else y :: sort_insert x l'
  end.

Fixpoint stable_sort (l : list A) : list A :=
  match l with
  | [] => []
  | x :: l' => sort_insert x (stable_sort l')
  end.

End StableSort.

Definition _clean_and_sort_toc (entries : list TOCEntry) : list TOCEntry :=
  let cleaned := dedupe [] entries in
  if existsb has_page cleaned then stable_sort by_page cleaned
  else if existsb has_position cleaned then stable_sort by_position cleaned
  else cleaned.

(** The keys are in order along the list. *)
Definition in_page_order (l : list TOCEntry) : Prop :=
  StronglySorted (fun x y => by_page x y = true) l.

Definition in_position_order (l : list TOCEntry) : Prop :=
  StronglySorted (fun x y => by_position x y = true) l.

End TOCEntries.

(* ================================================================== *)
(** * The selection of sections in the window *)

Module Gui.

(** [self.sections.remove(section)]: the first equal element goes. *)
Fixpoint remove (sections : list entry) (section : entry) : list entry :=
  match sections with
  | [] => []
  | x :: sections' =>
      if section_eqb x section then sections'
      else x :: remove sections' section
  end.

(** [MetadataFrame.add_section], on the list [self.sections]. *)
Definition add_section (sections : list entry) (section : entry)
  : list entry :=
  if negb (existsb (fun x => section_eqb x section) sections)
  then sections ++ [section]
  else remove sections section.

(** What [create_toc_selection] does to [self.sections]: building each
    check box calls [self.add_section(sec)] at once. *)
Definition create_toc_selection (sections toc : list entry) : list entry :=
  fold_left add_section toc sections.

End Gui.

(* ================================================================== *)
(** * The form of the values of the mapping *)

Module Shape.

Import Scan.

(** A value is the text followed by mappings only: [[text, {...}, ...]]. *)
Definition text_then_dicts (v : value) : Prop :=
  exists t ds, v = VStr t :: map VDict ds.

Definition shaped (d : dict) : Prop :=
  forall k v, In (k, v) d -> text_then_dicts v.

(** During the scan: the value has this form once the key is set, and
    so has every value of the mapping. *)
Definition well_shaped (s : state) : Prop :=
  (key s = [] \/ text_then_dicts (val s)) /\ shaped (main_text s).

End Shape.

(* ================================================================== *)
(** * [TOCExtractor]: the headings of an HTML file *)

Module Html.

Import TOCEntries.

(** [re.findall(r, s)]: the groups of every non-overlapping match, from
    left to right. *)
Fixpoint findall_loop (ic : bool) (r : re) (fuel pos : nat) (s : pystr)
  : list caps :=
  match fuel with
  | O => []
  | S f =>
      let step := match s with
                  | [] => []
                  | _ :: s' => findall_loop ic r f (S pos) s'
                  end in
      match m ic r pos s [] accept with
      | Some (e, cs) =>
          if (pos <? e)%nat
          then cs :: findall_loop ic r f e (skipn (e - pos) s)
          else cs :: step
      | None => step
      end
  end.

Definition re_findall (ic : bool) (r : re) (s : pystr) : list caps :=
  findall_loop ic r (S (length s)) 0 s.

(** [int(s)] on a string: white space around, a sign, then decimal
    digits, with single underscores between them. *)
Fixpoint digits_value (acc : Z) (after_digit : bool) (s : pystr)
  : option Z :=
  match s with
  | [] => if after_digit then Some acc else None
  | c :: s' =>
      if is_digit c
      then digits_value (10 * acc + Z.of_N (c - 48)) true s'
      else if N.eqb c 95 && after_digit
      then match s' with
           | d :: _ => if is_digit d then digits_value acc false s' else None
           | [] => None
           end
      else None
  end.

Definition int (s : pystr) : result Z :=
  let s := strip s in
  let signed :=
    match s with
    | c :: s' => if N.eqb c 45 then (-1, s')
                 else if N.eqb c 43 then (1, s')
                 else (1, s)
    | [] => (1, [])
    end in
  match digits_value 0 false (snd signed) with
  | Some n => Ok (fst signed * n)
  | None => Raise ValueError
  end.

(** The classes [[1-6]], [[^>]] and [[^<]]. *)
Definition h_level : re := Cls (between 49 54).
Definition not_gt : re := Cls (fun c => negb (N.eqb c 62)).
Definition not_lt : re := Cls (fun c => negb (N.eqb c 60)).

(** The pattern [<h([1-6])[^>]*>([^<]+)</h[1-6]>]. *)
Definition heading_pattern : re :=
  cat [txt "<h"; Grp 1 h_level; Star not_gt; txt ">"; Grp 2 (Plus not_lt);
       txt "</h"; h_level; txt ">"].

(** The pattern [<[^>]+>]. *)
Definition tag : re := cat [txt "<"; Plus not_gt; txt ">"].

(** The loop over the matches, each a pair of the two groups. *)
Fixpoint headings (matches : list caps) : result (list TOCEntry) :=
  match matches with
  | [] => Ok []
  | cs :: rest =>
      level <- int (group cs 1) ;;
      let title := strip (re_sub false tag [] (group cs 2)) in
      entries <- headings rest ;;
      Ok (match title with
          | [] => entries
          | _ :: _ => Entry title level None None :: entries
          end)
  end.

Definition _extract_headings_from_html (content : pystr)
  : result (list TOCEntry) :=
  headings (re_findall true heading_pattern content).

End Html.

(* ================================================================== *)
(** * [TOCExtractor]: the font sizes of a document *)

Module FontAnalysis.

Import TOCExtractor TOCEntries.

(** The list [font_sizes]: the size of every span of the first
    [min(20, len(doc))] pages. *)
Definition sampled_sizes (doc : document) : list Q :=
  flat_map (fun p =>
              flat_map (fun block =>
                          match lines block with
                          | Some ls =>
                              flat_map (fun line => map size (spans line)) ls
                          | None => []
                          end)
                       (blocks p))
           (firstn 20 (pages doc)).

(** [set(font_sizes)]: one of each value. *)
Fixpoint distinct (seen l : list Q) : list Q :=
  match l with
  | [] => []
  | x :: l' =>
      if existsb (Qeq_bool x) seen then distinct seen l'
      else x :: distinct (x :: seen) l'
  end.

(** The order of [sorted(..., reverse=True)]. *)
Definition descending (a b : Q) : bool := Qle_bool b a.

(** [statistics.median(data)], for data that are not empty: the middle
    value of the sorted data, or the mean of the two middle values. *)
Definition median (data : list Q) : Q :=
  let data := stable_sort Qle_bool data in
  let n := length data in
  if Nat.odd n then nth (n / 2) data 0%Q
  else let i := (n / 2)%nat in
       ((nth (i - 1) data 0 + nth i data 0) / 2)%Q.

Definition _analyze_font_characteristics (doc : document) : font_stats :=
  match sampled_sizes doc with
  | [] => FontStats [] 12 []
  | font_sizes =>
      let unique_sizes := stable_sort descending (distinct [] font_sizes) in
      FontStats unique_sizes (median font_sizes)
        (if (3 <=? length unique_sizes)%nat then firstn 3 unique_sizes
         else unique_sizes)
  end.

(** The list goes down strictly. *)
Definition strictly_decreasing (l : list Q) : Prop :=
  StronglySorted (fun a b => (b < a)%Q) l.

End FontAnalysis.

(* ================================================================== *)
(** * [TOCExtractor]: the headings found in the text of a PDF *)

Module PdfHeadings.

Import TOCExtractor TOCEntries FontAnalysis.

Section Headings.

Variable font_stats : font_stats.

(** The body of the loop over the spans of a line. *)
Definition span_heading (page_num : Z) (span : span) : list TOCEntry :=
  let text := strip (text span) in
  if _is_potential_heading text span font_stats
  then [Entry text (_determine_heading_level text span font_stats)
              (Some (page_num + 1)) (Some (y0 (span_bbox span)))]
  else [].

Definition page_headings (page_num : Z) (p : page) : list TOCEntry :=
  flat_map (fun block =>
              match lines block with
              | Some ls =>
                  flat_map (fun line =>
                              flat_map (span_heading page_num) (spans line))
                           ls
              | None => []
              end)
           (blocks p).

(** The loop [for page_num in range(len(doc))], from page [page_num]
    on. *)
Fixpoint headings_from (page_num : Z) (ps : list page) : list TOCEntry :=
  match ps with
  | [] => []
  | p :: ps' => page_headings page_num p ++ headings_from (page_num + 1) ps'
  end.

End Headings.

(** The spans of a page that these loops go through: those of the lines
    of the blocks that have lines. *)
Definition page_spans (p : page) : list span :=
  flat_map (fun block =>
              match lines block with
              | Some ls => flat_map (fun line => spans line) ls
              | None => []
              end)
           (blocks p).

(** The entry made of a span of page [page_num], counted from 0, and the
    test on the span. *)
Definition heading (font_stats : font_stats) (page_num : Z) (span : span)
  : TOCEntry :=
  let text := strip (text span) in
  Entry text (_determine_heading_level text span font_stats)
        (Some (page_num + 1)) (Some (y0 (span_bbox span))).

Definition accepted (font_stats : font_stats) (span : span) : bool :=
  _is_potential_heading (strip (text span)) span font_stats.

(** [extract_toc_from_pdf], for a document that is open. *)
Definition extract_toc_from_pdf (doc : document) : list TOCEntry :=
  match _extract_builtin_toc doc with
  | [] =>
      let font_stats := _analyze_font_characteristics doc in
      _clean_and_sort_toc (headings_from font_stats 0 (pages doc))
  | built_in_toc => built_in_toc
  end.

(** The texts of all the spans of the document are Latin-1. *)
Definition latin1_texts (doc : document) : Prop :=
  Forall (fun sp => latin1 (text sp) = true) (all_spans doc).

(** The median of the sizes is the size of a span: the number of spans
    is odd, or the two middle sizes are the same, and no mean has to be
    rounded. *)
Definition median_is_a_size (doc : document) : Prop :=
  sampled_sizes doc = []
  \/ exists q, In q (sampled_sizes doc)
               /\ (median_size (_analyze_font_characteristics doc) == q)%Q.

End PdfHeadings.

(* ================================================================== *)
(** * Properties *)

(** ** Strings *)

Lemma str_eqb_spec a b : reflect (a = b) (str_eqb a b).
Proof.
  revert b; induction a as [|x a IH]; intros [|y b]; simpl;
    try (constructor; congruence).
  destruct (N.eqb_spec x y) as [->|Hxy]; simpl.
  - destruct (IH b) as [->|Hab]; constructor; congruence.
  - constructor; congruence.
Qed.

Lemma str_eqb_refl a : str_eqb a a = true.
Proof. destruct (str_eqb_spec a a); congruence. Qed.

(** ** Lists *)

Lemma firstn_add {A} (l : list A) a b :
  firstn (a + b) l = firstn a l ++ firstn b (skipn a l).
Proof.
  revert l; induction a as [|a IH]; intros [|x l]; simpl; auto.
  - now rewrite firstn_nil.
  - now rewrite IH.
Qed.

Lemma skipn_add {A} (l : list A) a b :
  skipn (a + b) l = skipn b (skipn a l).
Proof.
  revert l; induction a as [|a IH]; intros [|x l]; simpl; auto.
  now rewrite skipn_nil.
Qed.

(* ------------------------------------------------------------------ *)
(** ** The formatted ToC *)

Section TocProperties.

Variable page_count : Z.

Lemma toc_with_end_length toc :
  length (toc_with_end page_count toc) = length toc.
Proof.
  induction toc as [|[[l t] p] rest IH]; simpl; congruence.
Qed.

Lemma toc_with_end_nth toc : forall i level title start,
  nth_error toc i = Some (level, title, start) ->
  nth_error (toc_with_end page_count toc) i
  = Some (level, clean_title title, start,
          look_ahead level (skipn (S i) toc) page_count).
Proof.
  induction toc as [|[[l t] p] rest IH]; intros [|i] level title start H;
    simpl in *; try discriminate.
  - now inversion H.
  - now apply IH.
Qed.

(** What the look-ahead returns: the page of the first item on the
    level or above it, or the default when there is none. *)
Lemma look_ahead_first level rest :
  (exists j x,
      nth_error rest j = Some x /\ item_level x <= level /\
      (forall k y, (k < j)%nat -> nth_error rest k = Some y ->
                   level < item_level y) /\
      look_ahead level rest page_count = item_page x)
  \/ ((forall k y, nth_error rest k = Some y -> level < item_level y) /\
      look_ahead level rest page_count = page_count).
Proof.
  induction rest as [|[[l t] p] rest IH]; simpl.
  - right; split; [intros [|k] y H; discriminate | reflexivity].
  - destruct (Z.leb_spec l level) as [Hle|Hgt].
    + left; exists 0%nat, (l, t, p); repeat split; auto.
      intros k y Hk; lia.
    + destruct IH as [(j & x & Hj & Hx & Hbefore & He)|[Hall He]].
      * left; exists (S j), x; repeat split; auto.
        intros [|k] y Hk Hy; simpl in Hy.
        -- inversion Hy; subst; simpl; lia.
        -- apply (Hbefore k); auto; lia.
      * right; split; auto.
        intros [|k] y Hy; simpl in Hy.
        -- inversion Hy; subst; simpl; lia.
        -- now apply (Hall k).
Qed.

(** The look-ahead returns the default or the page of a later item. *)
Lemma look_ahead_cases level rest :
  look_ahead level rest page_count = page_count
  \/ exists x, In x rest /\ look_ahead level rest page_count = item_page x.
Proof.
  induction rest as [|[[l t] p] rest IH]; simpl; auto.
  destruct (l <=? level).
  - right; exists (l, t, p); auto.
  - destruct IH as [IH|(x & Hx & IH)]; auto.
    right; exists x; auto.
Qed.

End TocProperties.

Lemma nth_error_skipn_add {A} (l : list A) n k :
  nth_error (skipn n l) k = nth_error l (n + k).
Proof.
  revert l; induction n as [|n IH]; intros [|a l]; simpl; auto.
  now destruct k.
Qed.

(** C1. [get_toc] returns one entry per outline item, in outline order,
    with the item's level and start page; the entry's end page is the
    start page of the next item whose level is less than or equal to the
    entry's, or the page count of the document when there is no such
    item. *)
Theorem get_toc_end_page (doc : document) (i : nat) level title start :
  nth_error (outline doc) i = Some (level, title, start) ->
  length (get_toc doc) = length (outline doc) /\
  exists end_page,
    nth_error (get_toc doc) i
    = Some (level, clean_title title, start, end_page) /\
    ((exists j x, next_not_below (outline doc) i level j x /\
                  end_page = item_page x)
     \/ (all_below (outline doc) i level /\ end_page = page_count doc)).
Proof.
  intros H. unfold get_toc. split; [apply toc_with_end_length|].
  eexists; split; [apply toc_with_end_nth; eassumption|].
  destruct (look_ahead_first (page_count doc) level (skipn (S i) (outline doc)))
    as [(j & x & Hj & Hx & Hbefore & He)|[Hall He]].
  - left; exists (S i + j)%nat, x; split; [|exact He].
    rewrite nth_error_skipn_add in Hj.
    repeat split; auto; try lia.
    intros k y Hk Hy. apply (Hbefore (k - S i)%nat); [lia|].
    rewrite nth_error_skipn_add. now replace (S i + (k - S i))%nat with k by lia.
  - right; split; [|exact He].
    intros k y Hk Hy. apply (Hall (k - S i)%nat).
    rewrite nth_error_skipn_add. now replace (S i + (k - S i))%nat with k by lia.
Qed.

Lemma get_toc_end_page_witness :
  length (get_toc Samples.book) = 3%nat /\
  exists end_page,
    nth_error (get_toc Samples.book) 1
    = Some (2, clean_title (str "Scope"), 2, end_page) /\
    ((exists j x, next_not_below (outline Samples.book) 1 2 j x /\
                  end_page = item_page x)
     \/ (all_below (outline Samples.book) 1 2 /\
         end_page = page_count Samples.book)).
Proof.
  apply (@get_toc_end_page Samples.book 1 2 (str "Scope") 2). reflexivity.
Defined.

(** On the sample the end pages are 4, 4 and 10. *)
Example get_toc_book :
  map sec_end (get_toc Samples.book) = [4; 4; 10].
Proof. reflexivity. Qed.

(** [get_toc] keeps whatever the look-ahead gives: an entry can end before
    it starts. *)
Lemma get_toc_not_clamped :
  ~ (forall doc e, In e (get_toc doc) -> sec_start e <= sec_end e).
Proof.
  intros H.
  specialize (H Samples.back_reference (1, str "Results", 10, 5)).
  simpl in H. assert (10 <= 5) by (apply H; left; reflexivity). lia.
Qed.

Lemma toc_with_end_ordered page_count toc :
  pages_in_order page_count toc ->
  Forall (fun e => sec_start e <= sec_end e) (toc_with_end page_count toc).
Proof.
  intros [Hs Hb]. induction toc as [|[[l t] p] rest IH]; simpl; constructor.
  - simpl. inversion Hs as [|? ? _ Hle]; subst. inversion Hb; subst.
    destruct (look_ahead_cases page_count l rest) as [->|(x & Hx & ->)].
    + assumption.
    + rewrite Forall_forall in Hle. now apply (Hle x).
  - inversion Hs; inversion Hb; subst. now apply IH.
Qed.

(** C6, amended.  For a document whose outline lists start pages in
    non-decreasing order and none beyond the page count, every entry of
    [get_toc] has [start_page <= end_page]. *)
Theorem get_toc_start_le_end (doc : document) (e : entry) :
  pages_in_order (page_count doc) (outline doc) ->
  In e (get_toc doc) ->
  sec_start e <= sec_end e.
Proof.
  intros Hord Hin.
  pose proof (toc_with_end_ordered Hord) as H.
  rewrite Forall_forall in H. now apply H.
Qed.

Lemma get_toc_start_le_end_witness :
  sec_start (2, clean_title (str "Scope"), 2, 4)
  <= sec_end (2, clean_title (str "Scope"), 2, 4).
Proof.
  apply (@get_toc_start_le_end Samples.book).
  - split; repeat constructor; vm_compute; discriminate.
  - right; left; reflexivity.
Defined.

(* ------------------------------------------------------------------ *)
(** ** The children of an entry *)



Lemma section_eqb_eq a b : section_eqb a b = true -> a = b.
Proof.
  destruct a as [[[l1 t1] s1] e1], b as [[[l2 t2] s2] e2]. simpl.
  rewrite !andb_true_iff. intros [[[Hl Ht] Hs] He].
  apply Z.eqb_eq in Hl, Hs, He.
  destruct (str_eqb_spec t1 t2); [congruence|discriminate].
Qed.








(** The condition on the levels is not idle.  In the list [A, A.1, B,
    B.0.1] with levels 1, 2, 1, 3, which is no outline of a tree, the
    loop of [get_children] ends on an entry of the same level only: it
    passes over [B] and returns [B.0.1] for [A.1], where the run of the
    entries right after [A.1] that are strictly deeper is empty. *)
Example get_children_passes_over_higher_level :
  let toc := get_toc Samples.level_jump in
  let a1 := (2, str "A.1", 2, 5) in
  nth_error toc 1 = Some a1 /\
  get_children toc a1 = Ok [(3, str "B.0.1", 6, 9)] /\
  children_run_spec (sec_level a1) (skipn 2 toc) = [].
Proof. vm_compute. repeat split. Qed.

(* ------------------------------------------------------------------ *)
(** ** The dominant size *)

(** C2, at the failing inputs.  The test of [get_main_size] compares the
    frequency of the second size with half of the first SIZE.  With four
    spans of size 10 and three of size 12 the second size is larger and
    its frequency, 3, exceeds half the top frequency, 4, but not half the
    top size: 10 is returned.  With a hundred spans of size 10 and six of
    size 12 the frequency 6 is not above half of 100, but above half of
    10: 12 is returned. *)
Theorem get_main_size_compares_count_with_size :
  let small := Samples.two_sizes 4 10 3 12 in
  let large := Samples.two_sizes 100 10 6 12 in
  Counter.most_common 2 (Counter.of_list Z.eqb (font_sizes small))
  = [(10, 4); (12, 3)] /\
  get_main_size small = Ok 10 /\
  Counter.most_common 2 (Counter.of_list Z.eqb (font_sizes large))
  = [(10, 100); (12, 6)] /\
  get_main_size large = Ok 12.
Proof. vm_compute. repeat split. Qed.

(* ------------------------------------------------------------------ *)
(** ** Counters *)

Section CounterProperties.

Variable A : Type.
Variable eqb : A -> A -> bool.
Hypothesis eqb_spec : forall x y, reflect (x = y) (eqb x y).

Lemma add_keys x c k :
  In k (Counter.keys (Counter.add eqb x c)) <-> k = x \/ In k (Counter.keys c).
Proof.
  induction c as [|[y n] c IH]; simpl.
  - intuition.
  - destruct (eqb_spec y x) as [->|Hne]; simpl; intuition.
Qed.

Lemma add_NoDup x c :
  NoDup (Counter.keys c) -> NoDup (Counter.keys (Counter.add eqb x c)).
Proof.
  induction c as [|[y n] c IH]; simpl; intros H.
  - repeat constructor; auto.
  - destruct (eqb_spec y x) as [->|Hne]; simpl; auto.
    inversion H; subst. constructor; auto.
    intros Hin. apply add_keys in Hin. destruct Hin; auto.
Qed.

Lemma fold_add_keys l : forall c k,
  In k (Counter.keys (fold_left (fun c x => Counter.add eqb x c) l c))
  <-> In k l \/ In k (Counter.keys c).
Proof.
  induction l as [|x l IH]; intros c k; simpl.
  - intuition.
  - rewrite IH, add_keys. intuition.
Qed.

Lemma fold_add_NoDup l : forall c,
  NoDup (Counter.keys c) ->
  NoDup (Counter.keys (fold_left (fun c x => Counter.add eqb x c) l c)).
Proof.
  induction l as [|x l IH]; intros c H; simpl; auto using add_NoDup.
Qed.

Lemma of_list_keys l k : In k (Counter.keys (Counter.of_list eqb l)) <-> In k l.
Proof.
  unfold Counter.of_list. rewrite fold_add_keys. simpl. intuition.
Qed.

Lemma of_list_NoDup l : NoDup (Counter.keys (Counter.of_list eqb l)).
Proof. apply fold_add_NoDup. constructor. Qed.

(** A counter has fewer than two Counter.keys exactly when the counted values
    are all the same. *)
Lemma of_list_short l :
  (length (Counter.of_list eqb l) < 2)%nat
  <-> forall a b, In a l -> In b l -> a = b.
Proof.
  pose proof (of_list_NoDup l) as Hnd.
  pose proof (of_list_keys l) as Hk.
  unfold Counter.keys in *.
  destruct (Counter.of_list eqb l) as [|[x n] [|[y p] c]]; simpl in *.
  - split; [|lia]. intros _ a b Ha. now apply Hk in Ha.
  - split; [|lia]. intros _ a b Ha Hb.
    apply Hk in Ha, Hb. intuition congruence.
  - split; [lia|]. intros Hall. exfalso.
    inversion Hnd as [|? ? Hnin _]; subst. apply Hnin. left.
    apply Hall; apply Hk; auto.
Qed.

Lemma insert_length (x : A * Z) l :
  length (Counter.insert x l) = S (length l).
Proof.
  induction l as [|y l IH]; simpl; auto.
  destruct (snd y <? snd x); simpl; auto.
Qed.

Lemma by_count_length (c : Counter.t A) :
  length (Counter.by_count c) = length c.
Proof.
  unfold Counter.by_count.
  assert (H : forall acc : Counter.t A,
             length (fold_left (fun acc x => Counter.insert x acc) c acc)
             = (length c + length acc)%nat).
  { induction c as [|x c IH]; intros acc; simpl; auto.
    rewrite IH, insert_length. lia. }
  rewrite H. simpl. lia.
Qed.

Lemma most_common_length n (c : Counter.t A) :
  length (Counter.most_common n c) = Nat.min n (length c).
Proof.
  unfold Counter.most_common. now rewrite length_firstn, by_count_length.
Qed.

End CounterProperties.

Lemma getitem_short {A} (l : list A) (i : Z) :
  0 <= i -> Z.of_nat (length l) <= i -> getitem l i = Raise IndexError.
Proof.
  intros H0 H. unfold getitem.
  destruct (Z.ltb_spec i 0); [lia|].
  destruct (Z.ltb_spec i 0); [lia|].
  destruct (Z.leb_spec (Z.of_nat (length l)) i); [reflexivity|lia].
Qed.

Lemma getitem_some {A} (l : list A) (i : Z) :
  0 <= i < Z.of_nat (length l) -> exists a, getitem l i = Ok a.
Proof.
  intros H. unfold getitem.
  destruct (Z.ltb_spec i 0); [lia|].
  destruct (Z.ltb_spec i 0); [lia|].
  destruct (Z.leb_spec (Z.of_nat (length l)) i); [lia|]. simpl.
  destruct (nth_error l (Z.to_nat i)) eqn:E; [eauto|].
  apply nth_error_None in E. lia.
Qed.

(** C9.  [get_main_size] raises [IndexError] exactly when the rounded
    sizes of the counted spans are all the same (in particular when no
    span is counted); in every other case it returns a size. *)
Theorem get_main_size_index_error (doc : document) :
  (get_main_size doc = Raise IndexError
   <-> forall a b, In a (font_sizes doc) -> In b (font_sizes doc) -> a = b)
  /\ (get_main_size doc = Raise IndexError
      \/ exists n, get_main_size doc = Ok n).
Proof.
  unfold get_main_size.
  set (c := Counter.of_list Z.eqb (font_sizes doc)).
  pose proof (@of_list_short _ _ Z.eqb_spec (font_sizes doc)) as Hshort.
  fold c in Hshort.
  pose proof (most_common_length 2 c) as Hlen.
  destruct (Nat.lt_ge_cases (length c) 2) as [Hlt|Hge].
  - rewrite (@getitem_short _ (Counter.most_common 2 c) 1) by lia. simpl.
    split; [|now left]. split; [intros _; now apply Hshort | reflexivity].
  - destruct (@getitem_some _ (Counter.most_common 2 c) 1) as [d1 ->]; [lia|].
    destruct (@getitem_some _ (Counter.most_common 2 c) 0) as [d0 ->]; [lia|].
    simpl.
    assert (Hok : exists n,
               (if (fst d1 >? fst d0)
                   && Qlt_bool (inject_Z (fst d0) / 2) (inject_Z (snd d1))
                then Ok (fst d1) else Ok (fst d0)) = Ok n).
    { destruct (_ && _); eauto. }
    destruct Hok as [n ->]. split; [|right; eauto].
    split; [discriminate|]. intros Hall. apply Hshort in Hall. lia.
Qed.

(** A document whose spans all have size 11 makes [get_main_size] raise. *)
Example get_main_size_single_size :
  get_main_size (Samples.two_sizes 5 11 0 11) = Raise IndexError.
Proof. reflexivity. Qed.

(* ------------------------------------------------------------------ *)
(** ** Which spans are counted *)

Lemma star_accept body fuel pos s cs :
  star body fuel pos s cs accept <> None.
Proof.
  destruct fuel as [|f]; simpl; [discriminate|].
  destruct (body pos s cs _); discriminate.
Qed.

(** [[\s\t]+] matches at the start exactly when the first character is
    white space. *)
Lemma blank_run_match t :
  matches (re_match false blank_run t) = starts_blank t.
Proof.
  unfold re_match, blank_run. destruct t as [|c t]; [reflexivity|].
  cbn [m starts_blank]. unfold cls_ok.
  replace (is_space c || (c =? 9)%N || false && _) with (is_space c).
  - destruct (is_space c); [|reflexivity].
    match goal with
    | |- matches ?x = true => destruct x eqn:E; [reflexivity|]
    end.
    now apply star_accept in E.
  - destruct (N.eqb_spec c 9) as [->|]; [reflexivity|].
    now rewrite !orb_false_r.
Qed.

Lemma counted_starts_blank s : counted s = negb (starts_blank (text s)).
Proof. unfold counted. now rewrite blank_run_match. Qed.

(** C10.  The sizes counted by [get_main_size] and the fonts counted by
    [get_main_font] are those of the spans whose text does not begin with
    a white-space character: a span is counted if and only if its text
    does not begin with white space, whatever follows. *)
Theorem counted_spans_by_first_character (doc : document) :
  font_sizes doc
  = map (fun s => py_round (size s))
        (filter (fun s => negb (starts_blank (text s))) (all_spans doc))
  /\ fonts doc
     = map font
         (filter (fun s => negb (starts_blank (text s))) (all_spans doc))
  /\ forall s : span,
       counted s = true
       <-> ~ exists c rest, text s = c :: rest /\ is_space c = true.
Proof.
  unfold font_sizes, fonts.
  rewrite (filter_ext _ _ counted_starts_blank).
  repeat split; auto.
  - intros Hc (c & rest & Ht & Hs).
    rewrite counted_starts_blank, Ht in Hc. simpl in Hc.
    rewrite Hs in Hc. discriminate.
  - intros Hn. rewrite counted_starts_blank.
    destruct (text s) as [|c rest]; simpl; auto.
    destruct (is_space c) eqn:Hs; auto.
    exfalso. apply Hn. now exists c, rest.
Qed.

(** A span with visible content after a leading space is not counted; a
    span with empty text is. *)
Example counted_leading_space :
  counted (Span (str " visible") (str "Serif") 10 0 Samples.box0) = false
  /\ counted (Span (str "") (str "Serif") 10 0 Samples.box0) = true.
Proof. split; reflexivity. Qed.

(* ------------------------------------------------------------------ *)
(** ** The heading scorer *)

Lemma Qlt_bool_true a b : (a < b)%Q -> Qlt_bool a b = true.
Proof.
  intros H. unfold Qlt_bool. destruct (Qle_bool b a) eqn:E; auto.
  apply Qle_bool_iff in E. exfalso. now apply (Qlt_not_le a b).
Qed.

Lemma Qle_bool_false a b : (a < b)%Q -> Qle_bool b a = false.
Proof.
  intros H. destruct (Qle_bool b a) eqn:E; auto.
  apply Qle_bool_iff in E. exfalso. now apply (Qlt_not_le a b).
Qed.

Lemma land_bit_nonzero x n :
  0 <= n -> Z.testbit x n = true -> (Z.land x (2 ^ n) =? 0) = false.
Proof.
  intros Hn Hb. apply Z.eqb_neq. intros H0.
  assert (Hbit : Z.testbit (Z.land x (2 ^ n)) n = true).
  { rewrite Z.land_spec, Hb, Z.pow2_bits_true; auto. }
  rewrite H0, Z.bits_0 in Hbit. discriminate.
Qed.

Import TOCExtractor.

(** C8.  For the text "3.2 Related Work" in a bold span whose size is
    strictly greater than the median, the score is at least 3 (it is 6,
    or 7 for an italic span), the span is accepted as a heading, and its
    level is at least 2. *)
Theorem related_work_is_heading (sp : span) (fs : font_stats) :
  Z.testbit (flags sp) 4 = true ->
  (median_size fs < size sp)%Q ->
  let text := str "3.2 Related Work" in
  3 <= heading_score text sp fs
  /\ _is_potential_heading text sp fs = true
  /\ 2 <= _determine_heading_level text sp fs.
Proof.
  intros Hbold Hsize text.
  assert (Hp : pattern_match text = false) by (vm_compute; reflexivity).
  assert (Hk : existsb (fun keyword => contains keyword (lower text))
                 heading_keywords = false) by (vm_compute; reflexivity).
  assert (Hn : matches (re_match false numeric_start text) = true)
    by (vm_compute; reflexivity).
  assert (Hr : matches (re_match true roman_start text) = false)
    by (vm_compute; reflexivity).
  assert (Hc : isupper text = false) by (vm_compute; reflexivity).
  assert (Hscore : 6 <= heading_score text sp fs <= 7).
  { unfold heading_score. rewrite Hp, Hk, Hn, Hr, Hc.
    rewrite (Qlt_bool_true Hsize), (land_bit_nonzero (flags sp)) by (auto; lia).
    simpl. destruct (negb _); lia. }
  split; [lia|]. split.
  - unfold _is_potential_heading.
    replace (length text <? 3)%nat with false by reflexivity.
    replace (200 <? length text)%nat with false by reflexivity.
    rewrite (Qle_bool_false Hsize). simpl.
    apply Z.leb_le. lia.
  - unfold _determine_heading_level.
    match goal with
    | |- context [match large_sizes fs with [] => 2 | _ :: _ => ?x end] =>
        set (level := match large_sizes fs with [] => 2 | _ :: _ => x end)
    end.
    replace (matches (re_match false
               (cat [Bol; Grp 1 (Alt (txt "Chapter") (Alt (txt "CHAPTER")
                     (Alt (txt "Part") (txt "PART"))))]) text))
      with false by (vm_compute; reflexivity).
    replace (matches (re_match false
               (cat [Bol; Plus dig; txt "."; Plus dig; txt "."; Plus dig])
               text))
      with false by (vm_compute; reflexivity).
    replace (matches (re_match false
               (cat [Bol; Plus dig; txt "."; Plus dig]) text))
      with true by (vm_compute; reflexivity).
    cbv zeta. lia.
Qed.

Lemma related_work_is_heading_witness :
  let sp := Span (str "3.2 Related Work") (str "Serif-Bold") 14 16
                 Samples.box0 in
  let fs := FontStats [14; 10]%Q 10 [14; 10]%Q in
  3 <= heading_score (str "3.2 Related Work") sp fs
  /\ _is_potential_heading (str "3.2 Related Work") sp fs = true
  /\ 2 <= _determine_heading_level (str "3.2 Related Work") sp fs.
Proof.
  intros sp fs. apply (@related_work_is_heading sp fs); reflexivity.
Defined.

(** On this span the score is 6 and the level 2. *)
Example related_work_score :
  let sp := Span (str "3.2 Related Work") (str "Serif-Bold") 14 16
                 Samples.box0 in
  let fs := FontStats [14; 10]%Q 10 [14; 10]%Q in
  heading_score (str "3.2 Related Work") sp fs = 6
  /\ _determine_heading_level (str "3.2 Related Work") sp fs = 2.
Proof. split; reflexivity. Qed.

(* ------------------------------------------------------------------ *)
(** ** Look-ups that cannot fail *)

Import Scan.

Lemma list_eqb_refl {A} (eqb : A -> A -> bool) :
  (forall x, eqb x x = true) -> forall l, list_eqb eqb l l = true.
Proof.
  intros H l; induction l as [|x l IH]; simpl; auto.
  now rewrite H, IH.
Qed.

Lemma Qeq_bool_refl' x : Qeq_bool x x = true.
Proof. apply Qeq_bool_iff. reflexivity. Qed.

Lemma bbox_eqb_refl b : bbox_eqb b b = true.
Proof.
  destruct b as [[[a0 a1] a2] a3]; simpl.
  now rewrite !Qeq_bool_refl'.
Qed.

Lemma span_eqb_refl s : span_eqb s s = true.
Proof.
  unfold span_eqb.
  now rewrite !str_eqb_refl, Qeq_bool_refl', Z.eqb_refl, bbox_eqb_refl.
Qed.

Lemma line_eqb_refl l : line_eqb l l = true.
Proof.
  unfold line_eqb.
  now rewrite (list_eqb_refl span_eqb span_eqb_refl), bbox_eqb_refl.
Qed.

Lemma block_eqb_refl b : block_eqb b b = true.
Proof.
  unfold block_eqb. rewrite Z.eqb_refl, bbox_eqb_refl. simpl.
  destruct (lines b); auto. apply list_eqb_refl, line_eqb_refl.
Qed.

Lemma section_eqb_refl e : section_eqb e e = true.
Proof.
  destruct e as [[[l t] s] e]; simpl.
  now rewrite !Z.eqb_refl, str_eqb_refl.
Qed.

(** A value that is in the list is found, at or before its place. *)
Lemma index_found {A} (eqb : A -> A -> bool) :
  (forall x, eqb x x = true) ->
  forall pre x post,
  exists i, index eqb (pre ++ x :: post) x = Ok i /\ (i <= length pre)%nat.
Proof.
  intros Hrefl pre x post. unfold index.
  induction pre as [|y pre IH]; simpl.
  - rewrite Hrefl. exists 0%nat; auto.
  - destruct (eqb y x).
    + exists 0%nat; split; auto. lia.
    + destruct (index_of eqb x (pre ++ x :: post)) as [i|] eqn:E.
      * destruct IH as (i' & Hi & Hle). inversion Hi; subst.
        exists (S i'); split; auto. simpl. lia.
      * destruct IH as (i' & Hi & _). discriminate.
Qed.

Lemma index_in {A} (eqb : A -> A -> bool) :
  (forall x, eqb x x = true) ->
  forall l x, In x l -> exists i, index eqb l x = Ok i /\ (i < length l)%nat.
Proof.
  intros Hrefl l x Hin. apply in_split in Hin as (pre & post & ->).
  destruct (index_found eqb Hrefl pre x post) as (i & Hi & Hle).
  exists i; split; auto. rewrite length_app. simpl. lia.
Qed.


(* ------------------------------------------------------------------ *)
(** ** The scan of a section whose title is never met *)

Import Unmatched.

Section IdleScan.

Variable doc : document.
Variable pheight : Q.
Variables pframe main_size : Z.
Variable main_font : pystr.
Variable recurse : list entry -> nat -> result dict.
Variable section : entry.
Variable next_section : option entry.
Variable subsections : list entry.
Variable mt : dict.


Lemma after_block_idle s : idle mt s -> after_block s = Ok s.
Proof. intros (Hk & _). unfold after_block. now rewrite Hk. Qed.

Lemma idle_with_skip s b : idle mt s -> idle mt (with_skip s b).
Proof. now intros (? & ? & ?). Qed.







End IdleScan.




(* ------------------------------------------------------------------ *)
(** ** Header and footer blocks *)

Import Margin.

Lemma Qlt_bool_false a b : (b <= a)%Q -> Qlt_bool a b = false.
Proof.
  intros H. unfold Qlt_bool.
  destruct (Qle_bool b a) eqn:E; auto.
  apply Qle_bool_iff in H. congruence.
Qed.

Lemma not_eligible_in_band doc pheight pframe b :
  is_pdf doc -> in_band pheight pframe b ->
  eligible doc pheight pframe b = false.
Proof.
  intros [Hpdf Hepub] Hband. unfold eligible. rewrite Hpdf, Hepub.
  destruct Hband as [[Htop _]|[_ Hbottom]].
  - now rewrite (Qlt_bool_false Htop).
  - rewrite (Qlt_bool_false Hbottom). now rewrite andb_false_r.
Qed.

(** A block within the bottom band of its own page, 600 units high, is
    read all the same, the band being measured with the height of the
    first page, 800; and a block of the band, skipped, still has the
    rewrites of the end of the block run on the text gathered so far:
    "we use" becomes "use". *)
Lemma margin_band_not_of_the_page :
  let header :=
    Samples.text_block 10 30
      [Samples.row 10 [Samples.plain "Running header" "Serif" 8]] in
  let note :=
    Samples.text_block 560 590
      [Samples.row 560 [Samples.plain "A note" "Serif" 10]] in
  let first := Page 800 [header] in
  let second := Page 600 [note] in
  let doc := Document [] [first; second] (str "PDF 1.7") in
  let s := State (str "Methods") [VStr (str "we use")] false false false
                 [] in
  (is_pdf doc
   /\ in_band (height second) PFRAME note
   /\ eligible doc (height first) PFRAME note = true)
  /\ (in_band (height first) PFRAME header
      /\ eligible doc (height first) PFRAME header = false
      /\ (r <- scan_blocks doc (height first) PFRAME 10 (str "Serif")
                 (fun _ _ => Ok []) Samples.methods None [] [] [header] s ;;
          Ok (val (fst r)))
         = Ok [VStr (str "use")]).
Proof.
  cbv zeta. split; [split; [|split]|split; [|split]].
  - split; reflexivity.
  - right. split; vm_compute; discriminate.
  - reflexivity.
  - left. split; vm_compute; discriminate.
  - reflexivity.
  - vm_compute. reflexivity.
Qed.

(** C7, amended.  The band is measured with the one height [pheight]
    that the scan holds for every page, and with the frame of 50.  In a
    PDF document a block whose box lies within the top or the bottom
    band so measured is not eligible, and the loop over the blocks
    passes over it: none of its lines is read and nothing of it is added
    to the text; the state goes through the end-of-block step only,
    where the rewrites of the text run.  In an EPUB document every block
    is eligible. *)
Theorem margin_blocks_skipped doc pheight main_size main_font recurse
        section next_section subsections :
  (is_pdf doc ->
   forall b, in_band pheight PFRAME b ->
     eligible doc pheight PFRAME b = false
     /\ forall before rest s,
          skip s = false -> stop s = false ->
          scan_blocks doc pheight PFRAME main_size main_font recurse
            section next_section subsections before (b :: rest) s
          = (s' <- after_block s ;;
             scan_blocks doc pheight PFRAME main_size main_font recurse
               section next_section subsections (before ++ [b]) rest s'))
  /\ (is_epub doc -> forall b, eligible doc pheight PFRAME b = true).
Proof.
  split.
  - intros Hpdf b Hband.
    pose proof (not_eligible_in_band Hpdf Hband) as Hne.
    split; [exact Hne|].
    intros before rest s Hskip Hstop. cbn [scan_blocks].
    rewrite Hskip, Hstop, Hne. reflexivity.
  - intros Hepub b. unfold eligible. rewrite Hepub. apply orb_true_r.
Qed.

Lemma margin_blocks_skipped_witness :
  let header :=
    Samples.text_block 10 30
      [Samples.row 10 [Samples.plain "Running header" "Serif" 8]] in
  eligible Samples.paper 800 PFRAME header = false.
Proof.
  intros header.
  refine (proj1 (proj1 (@margin_blocks_skipped Samples.paper 800 10
                   (str "Serif") (fun _ _ => Ok []) Samples.methods None [])
                   _ header _)).
  - split; reflexivity.
  - left; split; vm_compute; discriminate.
Defined.

(* ------------------------------------------------------------------ *)
(** ** Hyphens survive the rewrites *)

Import Hyphen.

Lemma hyphens_app a b : hyphens (a ++ b) = (hyphens a + hyphens b)%nat.
Proof. apply count_occ_app. Qed.

Lemma hyphens_split s n :
  hyphens s = (hyphens (firstn n s) + hyphens (skipn n s))%nat.
Proof. now rewrite <- hyphens_app, firstn_skipn. Qed.

Lemma group_clean cs n : caps_clean cs -> hyphens (group cs n) = 0%nat.
Proof.
  induction cs as [|[g t] cs IH]; intros H; simpl; auto.
  inversion H; subst. destruct (Nat.eqb g n); auto.
Qed.

Lemma expand_clean t cs :
  tpl_clean t -> caps_clean cs -> hyphens (expand t cs) = 0%nat.
Proof.
  intros Ht Hcs. unfold expand.
  induction t as [|x t IH]; simpl; auto.
  inversion Ht; subst. rewrite hyphens_app, IH by assumption.
  destruct x; [lia | rewrite group_clean; auto].
Qed.

Lemma lit_match_exact l : forall s s',
  lit_match false l s = Some s' -> s = l ++ s'.
Proof.
  induction l as [|a l IH]; intros s s' H; simpl in H.
  - now inversion H.
  - destruct s as [|c s]; [discriminate|].
    unfold chr_ok in H. destruct (N.eqb_spec a c); [|discriminate].
    subst. simpl. f_equal. now apply IH.
Qed.

Lemma star_clean body :
  consumes_clean body -> forall fuel, consumes_clean (star body fuel).
Proof.
  intros Hbody fuel. induction fuel as [|f IH]; intros pos s cs k res H;
    simpl in H.
  - exists 0%nat, cs. rewrite Nat.add_0_r. simpl. repeat split; auto. lia.
  - destruct (body pos s cs _) as [x|] eqn:E.
    + inversion H; subst x. apply Hbody in E.
      destruct E as (n1 & cs1 & Hn1 & Hh1 & Hc1 & Hk).
      destruct (pos <? pos + n1)%nat; [|discriminate].
      apply IH in Hk. destruct Hk as (n2 & cs2 & Hn2 & Hh2 & Hc2 & Hk).
      exists (n1 + n2)%nat, cs2.
      rewrite length_skipn in Hn2.
      rewrite firstn_add, hyphens_app, skipn_add, Nat.add_assoc.
      repeat split; auto; lia.
    + exists 0%nat, cs. rewrite Nat.add_0_r. simpl. repeat split; auto. lia.
Qed.

Lemma m_clean r : hyphen_free r = true -> consumes_clean (m false r).
Proof.
  induction r as [l| p | | | | r1 IH1 r2 IH2 | r1 IH1 r2 IH2 | r1 IH1
                 | r1 IH1 | r1 IH1 | g r1 IH1];
    cbn [m hyphen_free]; intros Hfree pos s cs k res H.
  - destruct (lit_match false l s) as [s'|] eqn:E; [|discriminate].
    apply lit_match_exact in E. subst s.
    exists (length l), cs. apply Nat.eqb_eq in Hfree.
    rewrite firstn_app, Nat.sub_diag, firstn_all, app_nil_r.
    rewrite skipn_app, Nat.sub_diag, skipn_all. simpl.
    rewrite length_app. repeat split; auto. lia.
  - destruct s as [|c s]; [discriminate|].
    unfold cls_ok in H. simpl in H. rewrite orb_false_r in H.
    destruct (p c) eqn:Hp; [|discriminate].
    exists 1%nat, cs. rewrite Nat.add_1_r. simpl.
    repeat split; auto; [lia|].
    unfold hyphens. simpl. destruct (N.eq_dec c hyphen) as [->|]; auto.
    rewrite Hp in Hfree. discriminate.
  - discriminate.
  - destruct (pos =? 0)%nat; [|discriminate].
    exists 0%nat, cs. rewrite Nat.add_0_r. simpl. repeat split; auto. lia.
  - exists 0%nat, cs. rewrite Nat.add_0_r. simpl.
    assert (k pos s cs = Some res).
    { destruct s as [|c [|c' s]]; auto; [|discriminate].
      destruct (c =? 10)%N; [auto|discriminate]. }
    repeat split; auto. lia.
  - apply andb_true_iff in Hfree as [H1 H2].
    apply (IH1 H1) in H. destruct H as (n1 & cs1 & Hn1 & Hh1 & Hc1 & Hk).
    apply (IH2 H2) in Hk. destruct Hk as (n2 & cs2 & Hn2 & Hh2 & Hc2 & Hk).
    exists (n1 + n2)%nat, cs2. rewrite length_skipn in Hn2.
    rewrite firstn_add, hyphens_app, skipn_add, Nat.add_assoc.
    repeat split; auto; lia.
  - apply andb_true_iff in Hfree as [H1 H2].
    destruct (m false r1 pos s cs k) eqn:E.
    + inversion H; subst. now apply (IH1 H1) in E.
    + now apply (IH2 H2) in H.
  - now apply (star_clean (IH1 Hfree)) in H.
  - apply (IH1 Hfree) in H. destruct H as (n1 & cs1 & Hn1 & Hh1 & Hc1 & Hk).
    apply (star_clean (IH1 Hfree)) in Hk.
    destruct Hk as (n2 & cs2 & Hn2 & Hh2 & Hc2 & Hk).
    exists (n1 + n2)%nat, cs2. rewrite length_skipn in Hn2.
    rewrite firstn_add, hyphens_app, skipn_add, Nat.add_assoc.
    repeat split; auto; lia.
  - destruct (m false r1 pos s cs k) eqn:E.
    + inversion H; subst. now apply (IH1 Hfree) in E.
    + exists 0%nat, cs. rewrite Nat.add_0_r. simpl. repeat split; auto. lia.
  - apply (IH1 Hfree) in H. destruct H as (n & cs' & Hn & Hh & Hc & Hk).
    exists n, ((g, firstn (pos + n - pos) s) :: cs').
    repeat split; auto.
    intros Hcs. constructor; [|now apply Hc]. simpl.
    now replace (pos + n - pos)%nat with n by lia.
Qed.

(** [re.sub] with a pattern that consumes no hyphen and a template that
    writes none leaves the number of hyphens as it was. *)
Lemma re_sub_hyphens r t :
  hyphen_free r = true -> tpl_clean t ->
  forall s, hyphens (re_sub false r t s) = hyphens s.
Proof.
  intros Hr Ht s. unfold re_sub. generalize (S (length s)) as fuel.
  generalize 0%nat as pos. intros pos fuel. revert pos s.
  induction fuel as [|f IH]; intros pos s; simpl; auto.
  assert (Hstep : hyphens match s with
                          | [] => []
                          | c :: s' => c :: sub_loop false r t f (S pos) s'
                          end = hyphens s).
  { destruct s as [|c s']; auto.
    change (c :: sub_loop false r t f (S pos) s')
      with ([c] ++ sub_loop false r t f (S pos) s').
    change (c :: s') with ([c] ++ s').
    now rewrite !hyphens_app, IH. }
  destruct (m false r pos s [] accept) as [[e cs]|] eqn:E; auto.
  apply (m_clean r Hr) in E.
  destruct E as (n & cs' & Hn & Hh & Hc & Hk).
  unfold accept in Hk. inversion Hk; subst e cs'.
  assert (Hcs : caps_clean cs) by (apply Hc; constructor).
  destruct (pos <? pos + n)%nat.
  - rewrite hyphens_app, (expand_clean Ht Hcs), IH.
    replace (pos + n - pos)%nat with n by lia.
    rewrite (hyphens_split s n). lia.
  - rewrite hyphens_app, (expand_clean Ht Hcs). exact Hstep.
Qed.

(** The rewrites after a block neither remove nor add a hyphen. *)
Lemma post_process_hyphens v : hyphens (post_process v) = hyphens v.
Proof.
  unfold post_process.
  set (v1 := re_sub false _ [] v).
  assert (H1 : hyphens v1 = hyphens v).
  { apply re_sub_hyphens; [reflexivity | constructor]. }
  clearbody v1.
  set (v2 := re_sub false _ [TRef 1; TLit (str " "); TRef 2] v1).
  assert (H2 : hyphens v2 = hyphens v1).
  { apply re_sub_hyphens; [reflexivity | repeat constructor]. }
  clearbody v2.
  set (v3 := if matches (re_match false (txt ". ") v2)
             then skipn 2 v2 else v2).
  assert (H3 : hyphens v3 = hyphens v2).
  { subst v3. unfold re_match, txt. change (str ". ") with [46; 32]%N.
    cbn [m]. destruct v2 as [|a [|b w]]; cbn [lit_match]; auto.
    - destruct (chr_ok false 46 a); reflexivity.
    - destruct (chr_ok false 46 a) eqn:Ea; [|reflexivity].
      destruct (chr_ok false 32 b) eqn:Eb; [|reflexivity].
      apply N.eqb_eq in Ea, Eb. subst a b. reflexivity. }
  clearbody v3.
  destruct (matches _); [|congruence].
  rewrite re_sub_hyphens; [congruence | reflexivity | repeat constructor].
Qed.

(* ------------------------------------------------------------------ *)
(** ** A word broken at the end of a line *)

(** After a text of two characters or more that ends with a hyphen, the
    next span is appended with no space in between, and the hyphen
    stays. *)
Lemma add_span_after_hyphen main_size v0 more span :
  (1 < length v0)%nat ->
  last_char v0 = Ok (str "-") ->
  matches (re_match false folio (mtext span))
  && Qlt_bool (msize span) (inject_Z main_size) = false ->
  add_span main_size (VStr v0 :: more) span
  = Ok (VStr (strip v0 ++ mtext span) :: more).
Proof.
  intros Hlen Hlast Hfolio. unfold add_span. rewrite Hfolio.
  cbn [value0 bind].
  apply Nat.ltb_lt in Hlen. rewrite Hlen, Hlast. reflexivity.
Qed.

(** "exam-" then "ple", followed by the rewrites after the block, is not
    "example". *)
Lemma hyphenated_break_not_repaired :
  (v <- add_spans 10 [VStr []]
          [MSpan (str "exam-") (str "Serif") 10;
           MSpan (str "ple") (str "Serif") 10] ;;
   v0 <- value0 v ;;
   Ok (post_process v0))
  <> Ok (str "example").
Proof. vm_compute. discriminate. Qed.

(** C5, amended.  For the spans "exam-" then "ple" the accumulation
    gives "exam-ple": no space is inserted between the two fragments,
    and the hyphen is kept; the rewrites after a block do not remove it
    either, as they leave the number of hyphens of every text as it
    was. *)
Theorem hyphenated_break_keeps_hyphen main_size (a b : mspan) :
  mtext a = str "exam-" ->
  mtext b = str "ple" ->
  add_spans main_size [VStr []] [a; b] = Ok [VStr (str "exam-ple")]
  /\ hyphens (post_process (str "exam-ple")) = 1%nat
  /\ forall v, hyphens (post_process v) = hyphens v.
Proof.
  intros Ha Hb. split; [|split].
  - cbn [add_spans].
    assert (H1 : add_span main_size [VStr []] a = Ok [VStr (str "exam-")]).
    { unfold add_span. rewrite Ha.
      replace (matches (re_match false folio (str "exam-"))) with false
        by (vm_compute; reflexivity).
      reflexivity. }
    rewrite H1. cbn [bind].
    rewrite add_span_after_hyphen.
    + rewrite Hb. reflexivity.
    + simpl. lia.
    + reflexivity.
    + rewrite Hb.
      replace (matches (re_match false folio (str "ple"))) with false
        by (vm_compute; reflexivity).
      reflexivity.
  - now rewrite post_process_hyphens.
  - apply post_process_hyphens.
Qed.

Lemma hyphenated_break_keeps_hyphen_witness :
  add_spans 10 [VStr []]
    [MSpan (str "exam-") (str "Serif") 10; MSpan (str "ple") (str "Serif") 10]
  = Ok [VStr (str "exam-ple")].
Proof.
  apply (@hyphenated_break_keeps_hyphen 10
           (MSpan (str "exam-") (str "Serif") 10)
           (MSpan (str "ple") (str "Serif") 10)); reflexivity.
Defined.

(** The section "Methods" of the sample article: the header and the
    folio are left out, the heading gives the key, the broken word keeps
    its hyphen. *)
Example text_extract_paper :
  mapping_after
    (scan_pages Samples.paper 800 50 10 (str "Serif") (fun _ _ => Ok [])
       Samples.methods (Some Samples.results) [] []
       [blocks (hd Samples.blank_page (pages Samples.paper))] 0
       (initial []))
  = Ok [(str "Methods", [VStr (str "We use an exam-ple here. More text")])].
Proof. vm_compute. reflexivity. Qed.

(* ================================================================== *)
(** * Further properties of the look-ups in the ToC *)

Lemma index_of_none {A} (eqb : A -> A -> bool) x l :
  index_of eqb x l = None <-> forall y, In y l -> eqb y x = false.
Proof.
  induction l as [|a l IH]; simpl.
  - split; [intros _ y []|reflexivity].
  - destruct (eqb a x) eqn:E.
    + split; [discriminate|]. intros H. rewrite (H a) in E; [discriminate|].
      now left.
    + destruct (index_of eqb x l); simpl.
      * split; [discriminate|]. intros H.
        assert (Hn : Some n = None); [|discriminate].
        apply IH. intros y Hy. apply H. now right.
      * split; [|reflexivity]. intros _ y [<-|Hy]; auto.
        now apply (proj1 IH).
Qed.

Lemma index_of_some {A} (eqb : A -> A -> bool) x l : forall i,
  index_of eqb x l = Some i ->
  (exists y, nth_error l i = Some y /\ eqb y x = true)
  /\ forall k y, (k < i)%nat -> nth_error l k = Some y -> eqb y x = false.
Proof.
  induction l as [|a l IH]; simpl; intros i H; [discriminate|].
  destruct (eqb a x) eqn:E.
  - inversion H; subst. split; [exists a; auto|]. intros k y Hk; lia.
  - destruct (index_of eqb x l) as [j|]; [|discriminate].
    simpl in H. inversion H; subst.
    destruct (IH j eq_refl) as [(y & Hy & Hyx) Hbefore].
    split; [exists y; auto|].
    intros [|k] z Hk Hz; simpl in Hz.
    + now inversion Hz; subst.
    + apply (Hbefore k); auto. lia.
Qed.

(** The first place of an entry in the ToC. *)
Lemma index_section toc section i :
  index section_eqb toc section = Ok i ->
  nth_error toc i = Some section
  /\ forall k, (k < i)%nat -> nth_error toc k <> Some section.
Proof.
  unfold index. destruct (index_of section_eqb section toc) as [j|] eqn:E;
    [|discriminate].
  intros H; inversion H; subst j.
  destruct (index_of_some section_eqb section toc E) as [(y & Hy & Hyx) Hb].
  apply section_eqb_eq in Hyx. subst y. split; auto.
  intros k Hk Hn. apply (Hb k _ Hk) in Hn.
  rewrite section_eqb_refl in Hn. discriminate.
Qed.

Lemma index_section_error toc section :
  index section_eqb toc section = Raise ValueError <-> ~ In section toc.
Proof.
  unfold index. destruct (index_of section_eqb section toc) as [j|] eqn:E.
  - split; [discriminate|]. intros Hn. exfalso. apply Hn.
    destruct (index_of_some section_eqb section toc E) as [(y & Hy & Hyx) _].
    apply section_eqb_eq in Hyx. subst y. eapply nth_error_In; eauto.
  - split; [|reflexivity]. intros _ Hin.
    rewrite index_of_none in E. apply E in Hin.
    rewrite section_eqb_refl in Hin. discriminate.
Qed.

(** X1.  [get_children] and [get_next_section] raise [ValueError] exactly
    for a section that is not an entry of the ToC; for an entry of the ToC
    both return. *)
Theorem lookups_value_error (toc : list entry) (section : entry) :
  (get_children toc section = Raise ValueError <-> ~ In section toc)
  /\ (get_next_section toc section = Raise ValueError <-> ~ In section toc)
  /\ (In section toc ->
      exists children next,
        get_children toc section = Ok children
        /\ get_next_section toc section = Ok next).
Proof.
  unfold get_children, get_next_section.
  pose proof (index_section_error toc section) as Herr.
  destruct (index section_eqb toc section) as [i|e] eqn:E; cbn [bind].
  - repeat split; try discriminate; eauto.
    + intros Hn. exfalso. apply index_section in E as [E _].
      apply Hn. eapply nth_error_In; eauto.
    + intros Hn. exfalso. apply index_section in E as [E _].
      apply Hn. eapply nth_error_In; eauto.
  - assert (e = ValueError).
    { unfold index in E. destruct (index_of _ _ _); now inversion E. }
    subst e. pose proof (proj1 Herr eq_refl) as Hnin.
    repeat split; auto. intros Hin. contradiction.
Qed.

Lemma children_loop_deeper level rest c :
  In c (children_loop level rest) -> level < sec_level c /\ In c rest.
Proof.
  induction rest as [|sec rest IH]; simpl; [intros []|].
  destruct (Z.gtb_spec (sec_level sec) level) as [Hgt|Hle].
  - intros [<-|Hin]; [split; [lia|now left]|].
    destruct (IH Hin); auto.
  - destruct (sec_level sec =? level); [intros []|].
    intros Hin. destruct (IH Hin); auto.
Qed.

(** X2.  Every entry that [get_children] returns is strictly deeper than
    the section and stands after the section's first place in the ToC:
    the section itself, an entry before it or an entry on its level or
    above is never returned. *)
Theorem get_children_deeper_and_later toc section children c :
  get_children toc section = Ok children ->
  In c children ->
  sec_level section < sec_level c
  /\ exists i j, (i < j)%nat /\ nth_error toc i = Some section
                 /\ nth_error toc j = Some c.
Proof.
  unfold get_children.
  destruct (index section_eqb toc section) as [i|] eqn:E; [|discriminate].
  cbn [bind]. remember (skipn (S i) toc) as rest eqn:Hrest.
  intros H Hin. injection H as <-.
  apply children_loop_deeper in Hin as [Hlt Hin]. split; auto.
  apply index_section in E as [E _].
  apply In_nth_error in Hin as [k Hk].
  rewrite Hrest, nth_error_skipn_add in Hk.
  exists i, (S i + k)%nat. repeat split; auto. lia.
Qed.

Lemma get_children_deeper_and_later_witness :
  2 < 3
  /\ exists i j, (i < j)%nat
                 /\ nth_error (get_toc Samples.level_jump) i
                    = Some (2, str "A.1", 2, 5)
                 /\ nth_error (get_toc Samples.level_jump) j
                    = Some (3, str "B.0.1", 6, 9).
Proof.
  apply (@get_children_deeper_and_later (get_toc Samples.level_jump)
           (2, str "A.1", 2, 5) [(3, str "B.0.1", 6, 9)]
           (3, str "B.0.1", 6, 9)).
  - reflexivity.
  - left; reflexivity.
Defined.

Lemma next_loop_first level rest :
  match next_loop level rest with
  | Some next =>
      exists j, nth_error rest j = Some next /\ sec_level next <= level
                /\ forall k y, (k < j)%nat -> nth_error rest k = Some y ->
                               level < sec_level y
  | None => forall k y, nth_error rest k = Some y -> level < sec_level y
  end.
Proof.
  induction rest as [|sec rest IH]; simpl.
  - intros [|k] y H; discriminate.
  - destruct (Z.leb_spec (sec_level sec) level) as [Hle|Hgt].
    + exists 0%nat. repeat split; auto. intros k y Hk; lia.
    + destruct (next_loop level rest) as [next|].
      * destruct IH as (j & Hj & Hl & Hb). exists (S j). repeat split; auto.
        intros [|k] y Hk Hy; simpl in Hy.
        -- now inversion Hy; subst.
        -- apply (Hb k); auto. lia.
      * intros [|k] y Hy; simpl in Hy.
        -- now inversion Hy; subst.
        -- now apply (IH k).
Qed.

(** X3.  [get_next_section] returns the first entry after the section's
    first place whose level is less than or equal to the section's: every
    entry in between is strictly deeper.  It returns [None] exactly when
    every later entry is strictly deeper. *)
Theorem get_next_section_first toc section r :
  get_next_section toc section = Ok r ->
  exists i,
    nth_error toc i = Some section
    /\ (forall k, (k < i)%nat -> nth_error toc k <> Some section)
    /\ match r with
       | Some next =>
           exists j, (i < j)%nat /\ nth_error toc j = Some next
                     /\ sec_level next <= sec_level section
                     /\ forall k y, (i < k < j)%nat ->
                                    nth_error toc k = Some y ->
                                    sec_level section < sec_level y
       | None =>
           forall k y, (i < k)%nat -> nth_error toc k = Some y ->
                       sec_level section < sec_level y
       end.
Proof.
  unfold get_next_section.
  destruct (index section_eqb toc section) as [i|] eqn:E; [|discriminate].
  cbn [bind]. remember (skipn (S i) toc) as rest eqn:Hrest.
  intros H. injection H as <-.
  apply index_section in E as [E Hfirst]. exists i. repeat split; auto.
  pose proof (next_loop_first (sec_level section) rest) as Hn.
  destruct (next_loop (sec_level section) rest) as [next|]; subst rest.
  - destruct Hn as (j & Hj & Hl & Hb). rewrite nth_error_skipn_add in Hj.
    exists (S i + j)%nat. repeat split; auto; try lia.
    intros k y Hk Hy. apply (Hb (k - S i)%nat); [lia|].
    rewrite nth_error_skipn_add.
    now replace (S i + (k - S i))%nat with k by lia.
  - intros k y Hk Hy. apply (Hn (k - S i)%nat).
    rewrite nth_error_skipn_add.
    now replace (S i + (k - S i))%nat with k by lia.
Qed.

Lemma get_next_section_first_witness :
  exists i,
    nth_error (get_toc Samples.book) i
    = Some (2, clean_title (str "Scope"), 2, 4)
    /\ (forall k, (k < i)%nat ->
                  nth_error (get_toc Samples.book) k
                  <> Some (2, clean_title (str "Scope"), 2, 4))
    /\ exists j, (i < j)%nat
                 /\ nth_error (get_toc Samples.book) j
                    = Some (1, clean_title (str "Methods"), 4, 10)
                 /\ 1 <= 2
                 /\ forall k y, (i < k < j)%nat ->
                                nth_error (get_toc Samples.book) k = Some y ->
                                2 < sec_level y.
Proof.
  apply (@get_next_section_first (get_toc Samples.book)
           (2, clean_title (str "Scope"), 2, 4)
           (Some (1, clean_title (str "Methods"), 4, 10))).
  reflexivity.
Defined.

Lemma toc_with_end_skipn page_count : forall n toc,
  skipn n (toc_with_end page_count toc)
  = toc_with_end page_count (skipn n toc).
Proof.
  induction n as [|n IH]; intros [|[[l t] p] toc]; simpl; auto.
Qed.

Lemma next_loop_look_ahead page_count level rest :
  match next_loop level (toc_with_end page_count rest) with
  | Some next => look_ahead level rest page_count = sec_start next
  | None => look_ahead level rest page_count = page_count
  end.
Proof.
  induction rest as [|[[l t] p] rest IH]; simpl; auto.
  destruct (l <=? level); simpl; auto.
Qed.

Lemma toc_with_end_nth_inv page_count toc : forall i e,
  nth_error (toc_with_end page_count toc) i = Some e ->
  sec_end e = look_ahead (sec_level e) (skipn (S i) toc) page_count.
Proof.
  induction toc as [|[[l t] p] rest IH]; intros [|i] e H; simpl in *;
    try discriminate.
  - now inversion H.
  - now apply IH.
Qed.

(** X4.  In the ToC of [get_toc] the end page of an entry is the start
    page of the section [get_next_section] returns for it, and the page
    count of the document when there is no next section. *)
Theorem end_page_is_next_start (doc : document) (e : entry) :
  In e (get_toc doc) ->
  (exists next,
      get_next_section (get_toc doc) e = Ok (Some next)
      /\ sec_end e = sec_start next)
  \/ (get_next_section (get_toc doc) e = Ok None
      /\ sec_end e = page_count doc).
Proof.
  intros Hin. unfold get_next_section.
  destruct (index_in section_eqb section_eqb_refl (get_toc doc) e Hin)
    as (i & Hi & _).
  rewrite Hi. cbn [bind]. apply index_section in Hi as [Hi _].
  unfold get_toc in *. rewrite toc_with_end_skipn.
  apply toc_with_end_nth_inv in Hi. rewrite Hi.
  pose proof (next_loop_look_ahead (page_count doc) (sec_level e)
                (skipn (S i) (outline doc))) as Hn.
  destruct (next_loop _ _) as [next|]; [left; eauto|right; auto].
Qed.

Lemma end_page_is_next_start_witness :
  (exists next,
      get_next_section (get_toc Samples.book)
        (2, clean_title (str "Scope"), 2, 4) = Ok (Some next)
      /\ 4 = sec_start next)
  \/ (get_next_section (get_toc Samples.book)
        (2, clean_title (str "Scope"), 2, 4) = Ok None
      /\ 4 = page_count Samples.book).
Proof.
  apply (@end_page_is_next_start Samples.book
           (2, clean_title (str "Scope"), 2, 4)).
  right; left; reflexivity.
Defined.

(* ================================================================== *)
(** * Further properties of the dominant typography *)

Section CounterCounts.

Variable A : Type.
Variable eqb : A -> A -> bool.
Hypothesis eqb_spec : forall x y, reflect (x = y) (eqb x y).

Lemma occurrences_nonneg x (l : list A) : 0 <= occurrences eqb x l.
Proof.
  induction l as [|y l IH]; simpl; [lia|]. destruct (eqb y x); lia.
Qed.

Lemma occurrences_in x (l : list A) : 0 < occurrences eqb x l <-> In x l.
Proof.
  induction l as [|y l IH]; simpl; [split; [lia|intros []]|].
  pose proof (occurrences_nonneg x l).
  destruct (eqb_spec y x) as [->|Hne].
  - split; [now left|lia].
  - rewrite Z.add_0_l, IH. split; [now right|intros [|]; [contradiction|auto]].
Qed.

Lemma counter_get_add x y (c : Counter.t A) :
  counter_get eqb x (Counter.add eqb y c)
  = counter_get eqb x c + (if eqb y x then 1 else 0).
Proof.
  induction c as [|[z n] c IH]; simpl.
  - destruct (eqb y x); lia.
  - destruct (eqb_spec z y) as [->|Hzy]; simpl.
    + destruct (eqb y x); lia.
    + destruct (eqb_spec z x) as [->|Hzx].
      * destruct (eqb_spec y x); [congruence|lia].
      * apply IH.
Qed.

Lemma counter_get_fold (l : list A) : forall c x,
  counter_get eqb x (fold_left (fun c y => Counter.add eqb y c) l c)
  = counter_get eqb x c + occurrences eqb x l.
Proof.
  induction l as [|y l IH]; intros c x; simpl; [lia|].
  rewrite IH, counter_get_add. lia.
Qed.

(** A counter holds, for each value, the number of its occurrences. *)
Lemma counter_get_of_list (l : list A) x :
  counter_get eqb x (Counter.of_list eqb l) = occurrences eqb x l.
Proof. unfold Counter.of_list. now rewrite counter_get_fold. Qed.

Lemma counter_get_item k n (c : Counter.t A) :
  NoDup (Counter.keys c) -> In (k, n) c -> counter_get eqb k c = n.
Proof.
  induction c as [|[y p] c IH]; simpl; intros Hnd Hin; [contradiction|].
  inversion Hnd as [|? ? Hnin Hnd']; subst.
  destruct Hin as [Heq|Hin].
  - inversion Heq; subst. now destruct (eqb_spec k k).
  - destruct (eqb_spec y k) as [->|Hne]; [|auto].
    exfalso. apply Hnin. change k with (fst (k, n)). now apply in_map.
Qed.

Lemma counter_get_bound (c : Counter.t A) x bound :
  0 <= bound -> (forall item, In item c -> snd item <= bound) ->
  counter_get eqb x c <= bound.
Proof.
  intros H0 Hall. induction c as [|[y p] c IH]; simpl; auto.
  destruct (eqb y x).
  - apply (Hall (y, p)). now left.
  - apply IH. intros item Hin. apply Hall. now right.
Qed.

Lemma insert_in (x : A * Z) l item :
  In item (Counter.insert x l) <-> item = x \/ In item l.
Proof.
  induction l as [|y l IH]; simpl; [intuition|].
  destruct (snd y <? snd x); simpl; [intuition|].
  rewrite IH. intuition.
Qed.

Lemma by_count_in (c : Counter.t A) item :
  In item (Counter.by_count c) <-> In item c.
Proof.
  unfold Counter.by_count.
  assert (H : forall acc : Counter.t A,
             In item (fold_left (fun acc x => Counter.insert x acc) c acc)
             <-> In item c \/ In item acc).
  { induction c as [|x c IH]; intros acc; simpl; [intuition|].
    rewrite IH, insert_in. intuition. }
  rewrite H. simpl. intuition.
Qed.

Lemma insert_sorted (x : A * Z) l :
  by_count_desc l -> by_count_desc (Counter.insert x l).
Proof.
  unfold by_count_desc. induction l as [|y l IH]; simpl; intros Hs.
  - repeat constructor.
  - inversion Hs as [|? ? Hs' Hall]; subst.
    destruct (Z.ltb_spec (snd y) (snd x)) as [Hlt|Hge].
    + constructor; auto. constructor; [lia|].
      rewrite Forall_forall in *. intros z Hz. specialize (Hall z Hz). lia.
    + constructor; auto. rewrite Forall_forall in *.
      intros z Hz. apply insert_in in Hz as [->|Hz]; auto.
Qed.

(** The items of a counter in the order of [most_common]: counts never
    increase. *)
Lemma by_count_sorted (c : Counter.t A) : by_count_desc (Counter.by_count c).
Proof.
  unfold Counter.by_count.
  assert (H : forall acc, by_count_desc acc ->
             by_count_desc
               (fold_left (fun acc x => Counter.insert x acc) c acc)).
  { induction c as [|x c IH]; intros acc Hacc; simpl; auto.
    apply IH, insert_sorted, Hacc. }
  apply H. constructor.
Qed.

Lemma of_list_empty (l : list A) : Counter.of_list eqb l = [] <-> l = [].
Proof.
  split; [|intros ->; reflexivity].
  destruct l as [|x l]; auto. intros H. exfalso.
  assert (Hin : In x (Counter.keys (Counter.of_list eqb (x :: l)))).
  { apply (@of_list_keys A eqb eqb_spec). now left. }
  rewrite H in Hin. contradiction.
Qed.

Lemma items_NoDup (c : Counter.t A) : NoDup (Counter.keys c) -> NoDup c.
Proof. unfold Counter.keys. apply NoDup_map_inv. Qed.

Lemma insert_NoDup (x : A * Z) l :
  NoDup l -> ~ In x l -> NoDup (Counter.insert x l).
Proof.
  induction l as [|y l IH]; simpl; intros Hn Hnx.
  - repeat constructor. intros [].
  - destruct (snd y <? snd x); [now constructor|].
    inversion Hn; subst. constructor.
    + rewrite insert_in. intros [->|Hy]; [apply Hnx; now left|auto].
    + apply IH; auto.
Qed.

Lemma by_count_NoDup (c : Counter.t A) :
  NoDup c -> NoDup (Counter.by_count c).
Proof.
  unfold Counter.by_count. intros Hc.
  assert (H : forall acc : Counter.t A,
             NoDup acc -> (forall x, In x c -> ~ In x acc) ->
             NoDup (fold_left (fun acc x => Counter.insert x acc) c acc)).
  { induction c as [|x c IH]; intros acc Hacc Hdis; simpl; auto.
    inversion Hc as [|? ? Hx Hc']; subst. apply IH; auto.
    - apply insert_NoDup; auto. apply Hdis. now left.
    - intros y Hy. rewrite insert_in. intros [->|Hin]; [contradiction|].
      apply (Hdis y); auto. now right. }
  apply H; [constructor|]. intros x _ [].
Qed.

(** The counts of the items that come first in [most_common]: the first
    item bounds every count, the second every count but the first. *)
Lemma by_count_head (l : list A) d rest :
  Counter.by_count (Counter.of_list eqb l) = d :: rest ->
  In (fst d) l
  /\ snd d = occurrences eqb (fst d) l
  /\ forall x, occurrences eqb x l <= snd d.
Proof.
  intros H.
  pose proof (by_count_sorted (Counter.of_list eqb l)) as Hs.
  pose proof (by_count_in (Counter.of_list eqb l)) as Hin.
  rewrite H in Hs, Hin. inversion Hs as [|? ? _ Hall]; subst.
  assert (Hd : In d (Counter.of_list eqb l)) by (apply Hin; now left).
  assert (Hk : In (fst d) l).
  { apply (@of_list_keys A eqb eqb_spec). now apply in_map. }
  assert (Hc : snd d = occurrences eqb (fst d) l).
  { rewrite <- counter_get_of_list. symmetry.
    apply counter_get_item; [apply (@of_list_NoDup A eqb eqb_spec)|].
    now destruct d. }
  repeat split; auto.
  intros x. rewrite <- counter_get_of_list. apply counter_get_bound.
  - rewrite Hc. apply occurrences_nonneg.
  - intros item Hitem. apply Hin in Hitem as [<-|Hitem]; [lia|].
    rewrite Forall_forall in Hall. now apply Hall.
Qed.

Lemma by_count_second (l : list A) d0 d1 rest :
  Counter.by_count (Counter.of_list eqb l) = d0 :: d1 :: rest ->
  In (fst d1) l
  /\ fst d1 <> fst d0
  /\ snd d1 = occurrences eqb (fst d1) l
  /\ forall x, x <> fst d0 -> occurrences eqb x l <= snd d1.
Proof.
  intros H.
  pose proof (by_count_sorted (Counter.of_list eqb l)) as Hs.
  pose proof (by_count_in (Counter.of_list eqb l)) as Hin.
  pose proof (@of_list_NoDup A eqb eqb_spec l) as Hnd.
  rewrite H in Hs, Hin. inversion Hs as [|? ? Hs1 _]; subst.
  inversion Hs1 as [|? ? _ Hall]; subst.
  assert (Hd1 : In d1 (Counter.of_list eqb l))
    by (apply Hin; right; now left).
  assert (Hd0 : In d0 (Counter.of_list eqb l)) by (apply Hin; now left).
  assert (Hk : In (fst d1) l).
  { apply (@of_list_keys A eqb eqb_spec). now apply in_map. }
  assert (Hc1 : snd d1 = occurrences eqb (fst d1) l).
  { rewrite <- counter_get_of_list. symmetry.
    apply counter_get_item; auto. now destruct d1. }
  assert (Hc0 : snd d0 = occurrences eqb (fst d0) l).
  { rewrite <- counter_get_of_list. symmetry.
    apply counter_get_item; auto. now destruct d0. }
  assert (Hlen : length (Counter.by_count (Counter.of_list eqb l))
                 = length (Counter.of_list eqb l)) by apply by_count_length.
  assert (Hne : fst d1 <> fst d0).
  { intros Heq.
    assert (Hsame : d1 = d0).
    { destruct d0 as [k0 n0], d1 as [k1 n1]. simpl in *. subst k1.
      f_equal. congruence. }
    subst d1.
    pose proof (@by_count_NoDup _ (@items_NoDup _ Hnd)) as Hitems.
    rewrite H in Hitems. inversion Hitems as [|? ? Hnot _]; subst.
    apply Hnot. now left. }
  repeat split; auto.
  intros x Hx. rewrite <- counter_get_of_list.
  assert (Hb : forall item, In item (Counter.of_list eqb l) ->
                            fst item = fst d0 \/ snd item <= snd d1).
  { intros item Hitem. apply Hin in Hitem as [<-|[<-|Hitem]];
      [now left | right; lia | right].
    rewrite Forall_forall in Hall. now apply Hall. }
  clear - Hb Hx Hc1 eqb_spec.
  assert (H1 : 0 <= snd d1) by (rewrite Hc1; apply occurrences_nonneg).
  induction (Counter.of_list eqb l) as [|[y p] c IH]; simpl; auto.
  destruct (eqb_spec y x) as [->|Hne].
  - destruct (Hb (x, p)) as [Hk|Hle]; [now left| |exact Hle].
    simpl in Hk. contradiction.
  - apply IH. intros item Hitem. apply Hb. now right.
Qed.

End CounterCounts.

Lemma str_eqb_reflect : forall a b, reflect (a = b) (str_eqb a b).
Proof. exact str_eqb_spec. Qed.

Lemma getitem_head {A} (d : A) rest : getitem (d :: rest) 0 = Ok d.
Proof.
  unfold getitem. cbn [length nth_error].
  replace (0 <? 0) with false by reflexivity. cbn [orb].
  destruct (Z.leb_spec (Z.of_nat (S (length rest))) 0); [lia|]. reflexivity.
Qed.

Lemma getitem_second {A} (d0 d1 : A) rest :
  getitem (d0 :: d1 :: rest) 1 = Ok d1.
Proof.
  unfold getitem. cbn [length].
  replace (1 <? 0) with false by reflexivity. cbn [orb].
  destruct (Z.leb_spec (Z.of_nat (S (S (length rest)))) 1); [lia|].
  reflexivity.
Qed.

(** [get_main_font] fails on an empty list of fonts only. *)
Lemma get_main_font_most_frequent_aux (doc : document) :
  (fonts doc = [] -> get_main_font doc = Raise IndexError)
  /\ (fonts doc <> [] -> exists f, get_main_font doc = Ok f).
Proof.
  unfold get_main_font, Counter.most_common.
  destruct (Counter.by_count (Counter.of_list str_eqb (fonts doc)))
    as [|d rest] eqn:E.
  - cbn [firstn]. rewrite (@getitem_short _ [] 0) by (simpl; lia).
    cbn [bind]. split; [reflexivity|]. intros Hne. exfalso. apply Hne.
    apply (f_equal (@length _)) in E. rewrite by_count_length in E.
    apply (@of_list_empty _ str_eqb str_eqb_reflect).
    destruct (Counter.of_list str_eqb (fonts doc)); [reflexivity|].
    discriminate.
  - cbn [firstn]. rewrite getitem_head. cbn [bind]. split; [|eauto].
    intros Hnil.
    destruct (@by_count_head _ str_eqb str_eqb_reflect (fonts doc) d rest E)
      as (Hin & _). rewrite Hnil in Hin. contradiction.
Qed.

(** X5.  [get_main_font] raises [IndexError] exactly when no span is
    counted; otherwise it returns a font of a counted span that no other
    font outnumbers. *)
Theorem get_main_font_most_frequent (doc : document) :
  (get_main_font doc = Raise IndexError <-> fonts doc = [])
  /\ forall f,
       get_main_font doc = Ok f ->
       In f (fonts doc)
       /\ forall f', occurrences str_eqb f' (fonts doc)
                     <= occurrences str_eqb f (fonts doc).
Proof.
  unfold get_main_font, Counter.most_common.
  destruct (Counter.by_count (Counter.of_list str_eqb (fonts doc)))
    as [|d rest] eqn:E.
  - cbn [firstn]. rewrite (@getitem_short _ [] 0) by (simpl; lia).
    cbn [bind]. split.
    + split; [intros _|reflexivity].
      apply (f_equal (@length _)) in E. rewrite by_count_length in E.
      apply (@of_list_empty _ str_eqb str_eqb_reflect).
      destruct (Counter.of_list str_eqb (fonts doc)); [reflexivity|].
      discriminate.
    + intros f H. discriminate.
  - cbn [firstn]. rewrite getitem_head. cbn [bind].
    destruct (@by_count_head _ str_eqb str_eqb_reflect (fonts doc) d rest E)
      as (Hin & Hc & Hmax).
    split.
    + split; [discriminate|]. intros Hnil. rewrite Hnil in Hin. contradiction.
    + intros f H. injection H as <-. split; auto.
      intros f'. rewrite <- Hc. apply Hmax.
Qed.

(** What [get_main_size] does with the items of [most_common(2)]. *)
Lemma get_main_size_cases (doc : document) :
  let sorted := Counter.by_count (Counter.of_list Z.eqb (font_sizes doc)) in
  match sorted with
  | d0 :: d1 :: _ =>
      get_main_size doc
      = Ok (if (fst d1 >? fst d0)
               && Qlt_bool (inject_Z (fst d0) / 2) (inject_Z (snd d1))
            then fst d1 else fst d0)
  | _ => get_main_size doc = Raise IndexError
  end.
Proof.
  unfold get_main_size, Counter.most_common.
  destruct (Counter.by_count (Counter.of_list Z.eqb (font_sizes doc)))
    as [|d0 [|d1 rest]]; cbn [firstn].
  - now rewrite (@getitem_short _ [] 1) by (simpl; lia).
  - now rewrite (@getitem_short _ [d0] 1) by (simpl; lia).
  - rewrite getitem_second, getitem_head. cbn [bind].
    now destruct (_ && _).
Qed.

(** X6.  A size that [get_main_size] returns is the rounded size of a
    counted span.  It is the most frequent one, or else the second most
    frequent one, and then it is larger than the most frequent size. *)
Theorem get_main_size_top_two (doc : document) (n : Z) :
  get_main_size doc = Ok n ->
  In n (font_sizes doc)
  /\ ((forall m, occurrences Z.eqb m (font_sizes doc)
                 <= occurrences Z.eqb n (font_sizes doc))
      \/ exists top,
           In top (font_sizes doc) /\ top < n
           /\ (forall m, occurrences Z.eqb m (font_sizes doc)
                         <= occurrences Z.eqb top (font_sizes doc))
           /\ forall m, m <> top ->
                        occurrences Z.eqb m (font_sizes doc)
                        <= occurrences Z.eqb n (font_sizes doc)).
Proof.
  intros H. pose proof (get_main_size_cases doc) as Hc. cbv zeta in Hc.
  destruct (Counter.by_count (Counter.of_list Z.eqb (font_sizes doc)))
    as [|d0 [|d1 rest]] eqn:E; try congruence.
  destruct (@by_count_head _ Z.eqb Z.eqb_spec _ _ _ E) as (Hin0 & Hc0 & Hmax0).
  destruct (@by_count_second _ Z.eqb Z.eqb_spec _ _ _ _ E)
    as (Hin1 & Hne & Hc1 & Hmax1).
  rewrite Hc in H. injection H as <-.
  destruct (Z.gtb_spec (fst d1) (fst d0)) as [Hgt|Hle]; cbn [andb].
  - destruct (Qlt_bool _ _).
    + split; auto. right. exists (fst d0). repeat split; auto; try lia.
      * intros m. rewrite <- Hc0. apply Hmax0.
      * intros m Hm. rewrite <- Hc1. now apply Hmax1.
    + split; auto. left. intros m. rewrite <- Hc0. apply Hmax0.
  - split; auto. left. intros m. rewrite <- Hc0. apply Hmax0.
Qed.

Lemma get_main_size_top_two_witness :
  In 10 (font_sizes (Samples.two_sizes 4 10 3 12)).
Proof.
  apply (@get_main_size_top_two (Samples.two_sizes 4 10 3 12) 10).
  reflexivity.
Defined.

(** As it is written, [info_extract] raises [NameError] on every call:
    [doc] is read as a global. *)
Lemma info_extract_name_error doc : info_extract doc = Raise NameError.
Proof. reflexivity. Qed.


(* ================================================================== *)
(** * Further properties of [get_span] *)

Lemma merge_step_some out acc s r :
  merge_step out acc s = Ok r -> snd r <> None.
Proof.
  unfold merge_step. destruct acc as [span|].
  - repeat match goal with
           | |- context [if ?b then _ else _] => destruct b
           | |- context [bind ?x _] => destruct x; cbn [bind]
           end;
      intros H; inversion H; subst; discriminate.
  - intros H; inversion H; subst; discriminate.
Qed.

Lemma merge_loop_some l : forall out acc r,
  acc <> None -> merge_loop out acc l = Ok r -> r <> [].
Proof.
  induction l as [|s l IH]; intros out acc r Hacc; cbn [merge_loop].
  - destruct acc as [span|]; [|contradiction].
    intros H; inversion H; subst. now destruct out.
  - destruct (is_blank s); [now apply IH|].
    destruct (merge_step out acc (clean_span s)) as [[out' acc']|] eqn:E;
      cbn [bind]; [|discriminate].
    apply IH. now apply merge_step_some in E.
Qed.

(** X8.  [get_span] returns the empty list exactly for a line all of
    whose spans are blank, that is, hold one or more white-space
    characters and nothing else; a line without spans is such a line,
    a line with a span of empty text is not. *)
Theorem get_span_empty (l : line) :
  get_span l = Ok [] <-> Forall (fun s => is_blank s = true) (spans l).
Proof.
  unfold get_span. split.
  - intros H.
    destruct (merge_loop [] None (spans l)) as [merged|] eqn:E;
      [|discriminate].
    cbn [bind] in H. injection H as H. apply map_eq_nil in H. subst merged.
    revert E. induction (spans l) as [|s rest IH]; cbn [merge_loop]; auto.
    destruct (is_blank s) eqn:Hb; [intros E; constructor; auto|].
    destruct (merge_step [] None (clean_span s)) as [[out acc]|] eqn:Es;
      cbn [bind]; [|discriminate].
    intros E. exfalso. apply merge_step_some in Es.
    now apply (@merge_loop_some rest _ _ _ Es E).
  - intros H. assert (E : merge_loop [] None (spans l) = Ok []).
    { induction H as [|s rest Hs _ IH]; cbn [merge_loop]; auto.
      now rewrite Hs. }
    now rewrite E.
Qed.

(** X9.  A span with empty text, followed by a span of the same font and
    size that is not blank and is no ligature or dash on its own, makes
    [get_span] raise [IndexError]: the last character of the empty text
    is asked for. *)
Theorem get_span_empty_text (l : line) (s1 s2 : span) (rest : list span) :
  spans l = s1 :: s2 :: rest ->
  text s1 = [] ->
  is_blank s2 = false ->
  font (clean_span s1) = font (clean_span s2) ->
  Qeq_bool (size s1) (size s2) = true ->
  matches (re_match false
             (cat [Opt (Grp 1 ws); ligature; Opt (Grp 2 ws); Eol])
             (text (clean_span s2))) = false ->
  get_span l = Raise IndexError.
Proof.
  intros Hl Ht Hb2 Hfont Hsize Hlig. unfold get_span. rewrite Hl.
  assert (Hb1 : is_blank s1 = false).
  { unfold is_blank. rewrite Ht. reflexivity. }
  assert (Ht1 : text (clean_span s1) = []).
  { unfold clean_span. rewrite Hb1. cbn [text]. rewrite Ht. reflexivity. }
  assert (Hs1 : size (clean_span s1) = size s1).
  { unfold clean_span. now destruct (is_blank s1). }
  assert (Hs2 : size (clean_span s2) = size s2).
  { unfold clean_span. now destruct (is_blank s2). }
  cbn [merge_loop]. rewrite Hb1, Hb2. cbn [merge_step bind fst snd].
  cbn [mtext mfont msize]. rewrite Ht1.
  replace (matches (re_match false
             (cat [Opt (Grp 1 (Plus (Grp 2 (Seq (Plus AZ) ws)))); AZ; Eol])
             (strip_with (one_of (str " ,.:?!")) [])))
    with false by reflexivity.
  rewrite Hfont, Hs1, Hs2, str_eqb_refl, Hsize, Hlig.
  reflexivity.
Qed.

Lemma get_span_empty_text_witness :
  get_span (Line [Samples.plain "" "Serif" 10; Samples.plain "abc" "Serif" 10]
                 Samples.box0)
  = Raise IndexError.
Proof.
  apply (@get_span_empty_text _ (Samples.plain "" "Serif" 10)
           (Samples.plain "abc" "Serif" 10) []); reflexivity.
Defined.

Lemma cls_ok_plain p c : cls_ok false p c = p c.
Proof. unfold cls_ok. simpl. apply orb_false_r. Qed.

(** A greedy repetition of a class, with nothing after it, takes the
    whole run. *)
Lemma star_cls_accept p : forall fuel pos s cs,
  (length s <= fuel)%nat ->
  star (m false (Cls p)) fuel pos s cs accept
  = Some ((pos + run p s)%nat, cs).
Proof.
  induction fuel as [|f IH]; intros pos s cs Hlen.
  - destruct s; [|simpl in Hlen; lia]. simpl. now rewrite Nat.add_0_r.
  - cbn [star m]. destruct s as [|c s'].
    + simpl. now rewrite Nat.add_0_r.
    + rewrite cls_ok_plain. cbn [run]. destruct (p c).
      * replace (pos <? S pos)%nat with true
          by (symmetry; apply Nat.ltb_lt; lia).
        rewrite IH by (simpl in Hlen; lia).
        now rewrite Nat.add_succ_r.
      * unfold accept. now rewrite Nat.add_0_r.
Qed.

Lemma m_plus ic r pos s cs k :
  m ic (Plus r) pos s cs k
  = m ic r pos s cs
      (fun pos' s' cs' => star (m ic r) (S (length s')) pos' s' cs' k).
Proof. reflexivity. Qed.

Lemma m_cls ic p pos c s cs k :
  m ic (Cls p) pos (c :: s) cs k
  = if cls_ok ic p c then k (S pos) s cs else None.
Proof. reflexivity. Qed.

Lemma plus_cls_accept p pos s :
  m false (Plus (Cls p)) pos s [] accept
  = match run p s with
    | O => None
    | S n => Some ((pos + S n)%nat, [])
    end.
Proof.
  rewrite m_plus. destruct s as [|c s']; [reflexivity|].
  rewrite m_cls, cls_ok_plain. cbn [run]. destruct (p c); [|reflexivity].
  rewrite star_cls_accept by lia. now rewrite Nat.add_succ_r.
Qed.

Lemma run_le p s : (run p s <= length s)%nat.
Proof. induction s as [|c s IH]; simpl; [lia|]. destruct (p c); lia. Qed.

Lemma run_skipn p s :
  match skipn (run p s) s with
  | c :: _ => p c = false
  | [] => True
  end.
Proof.
  induction s as [|c s IH]; simpl; auto.
  destruct (p c) eqn:E; simpl; auto.
Qed.

Lemma sub_blank_spaced : forall fuel pos s after_space,
  (length s < fuel)%nat ->
  (after_space = true ->
   match s with c :: _ => is_space c = false | [] => True end) ->
  spaced after_space
    (sub_loop false (Plus ws) [TLit (str " ")] fuel pos s).
Proof.
  induction fuel as [|f IH]; intros pos s after_space Hlen Hafter; [lia|].
  cbn [sub_loop]. unfold ws. rewrite plus_cls_accept.
  destruct s as [|c s'].
  - simpl. exact I.
  - cbn [run]. destruct (is_space c) eqn:Hc.
    + replace (pos <? pos + S (run is_space s'))%nat with true
        by (symmetry; apply Nat.ltb_lt; lia).
      replace (pos + S (run is_space s') - pos)%nat
        with (S (run is_space s')) by lia.
      change (expand [TLit (str " ")] []) with [32%N].
      cbn [app skipn spaced].
      replace (is_space 32) with true by reflexivity.
      repeat split.
      * destruct after_space; auto.
      * apply IH.
        -- rewrite length_skipn. simpl in Hlen. lia.
        -- intros _. apply run_skipn.
    + cbn [spaced]. rewrite Hc. apply IH; [simpl in Hlen; lia|].
      intros H; discriminate.
Qed.

(** [re.sub] of a single character by a text is the replacement of each
    of its occurrences. *)
Lemma sub_chr c t : forall fuel pos s,
  (length s < fuel)%nat ->
  sub_loop false (chr c) [TLit t] fuel pos s
  = flat_map (fun x => if N.eqb c x then t else [x]) s.
Proof.
  induction fuel as [|f IH]; intros pos s Hlen; [lia|].
  cbn [sub_loop]. unfold chr. cbn [m lit_match].
  destruct s as [|x s']; [reflexivity|].
  unfold chr_ok. cbn [flat_map]. destruct (N.eqb c x).
  - cbn [lit_match length]. unfold accept.
    replace (pos <? pos + 1)%nat with true
      by (symmetry; apply Nat.ltb_lt; lia).
    replace (pos + 1 - pos)%nat with 1%nat by lia.
    cbn [skipn]. unfold expand. cbn [flat_map]. rewrite app_nil_r.
    f_equal. apply IH. simpl in Hlen. lia.
  - cbn [app]. f_equal. apply IH. simpl in Hlen. lia.
Qed.

Lemma re_sub_chr c t s :
  re_sub false (chr c) [TLit t] s
  = flat_map (fun x => if N.eqb c x then t else [x]) s.
Proof. unfold re_sub. apply sub_chr. lia. Qed.

Lemma spaced_app_plain t : forall s after_space,
  t <> [] -> Forall (fun x => is_space x = false) t ->
  spaced false s -> spaced after_space (t ++ s).
Proof.
  induction t as [|x t IH]; intros s after_space Hne Hall Hs;
    [contradiction|].
  inversion Hall as [|? ? Hx Hall']; subst.
  cbn [app spaced]. rewrite Hx.
  destruct t as [|y t]; [exact Hs|].
  apply IH; auto. discriminate.
Qed.

Lemma spaced_replace c t : forall s after_space,
  is_space c = false -> t <> [] -> Forall (fun x => is_space x = false) t ->
  spaced after_space s ->
  spaced after_space (flat_map (fun x => if N.eqb c x then t else [x]) s).
Proof.
  induction s as [|x s IH]; intros after_space Hc Hne Hall Hs; [exact I|].
  cbn [flat_map]. destruct (N.eqb_spec c x) as [<-|Hcx].
  - cbn [spaced] in Hs. rewrite Hc in Hs.
    apply spaced_app_plain; auto.
  - cbn [app spaced] in *. destruct (is_space x).
    + destruct Hs as (Hx & Ha & Hs). repeat split; auto.
    + auto.
Qed.

Lemma replace_absent c d t s :
  ~ In d t -> (d = c \/ ~ In d s) ->
  ~ In d (flat_map (fun x => if N.eqb c x then t else [x]) s).
Proof.
  intros Ht Hs Hin. apply in_flat_map in Hin as (x & Hx & Hin).
  destruct (N.eqb_spec c x) as [<-|Hcx]; [contradiction|].
  destruct Hin as [<-|[]]. destruct Hs as [->|Hs]; contradiction.
Qed.

Lemma spaced_all s : forall after_space c,
  spaced after_space s -> In c s -> is_space c = true -> c = 32%N.
Proof.
  induction s as [|x s IH]; intros after_space c Hs Hin Hc;
    [contradiction|].
  destruct Hin as [<-|Hin]; cbn [spaced] in Hs.
  - rewrite Hc in Hs. tauto.
  - destruct (is_space x); [destruct Hs as (_ & _ & Hs)|]; eauto.
Qed.

Lemma spaced_adjacent s : forall after_space pre a b post,
  spaced after_space s -> s = pre ++ a :: b :: post ->
  is_space a = true -> is_space b = false.
Proof.
  induction s as [|x s IH]; intros after_space pre a b post Hs He Ha.
  - destruct pre; discriminate.
  - destruct pre as [|y pre]; simpl in He; injection He as -> ->.
    + cbn [spaced] in Hs. rewrite Ha in Hs. destruct Hs as (_ & _ & Hs).
      cbn [spaced] in Hs. destruct (is_space b); [|reflexivity].
      destruct Hs as (_ & Hf & _). discriminate.
    + cbn [spaced] in Hs.
      destruct (is_space y); [destruct Hs as (_ & _ & Hs)|];
        eapply IH; eauto.
Qed.

Lemma tidy_spaced t :
  spaced false (tidy t)
  /\ ~ In 64257%N (tidy t) /\ ~ In 64258%N (tidy t).
Proof.
  unfold tidy. cbv zeta.
  match goal with
  | |- context [re_sub false (Plus ws) [TLit (str " ")] ?u] =>
      generalize u
  end.
  intros u. rewrite !re_sub_chr.
  assert (Hu : spaced false (re_sub false (Plus ws) [TLit (str " ")] u)).
  { unfold re_sub. apply sub_blank_spaced; [lia|discriminate]. }
  split; [|split].
  - apply spaced_replace; try reflexivity; try discriminate.
    + repeat constructor.
    + apply spaced_replace; try reflexivity; try discriminate; auto.
      repeat constructor.
  - apply replace_absent.
    + vm_compute. intros [H|[H|[]]]; discriminate.
    + right. apply replace_absent; [|now left].
      vm_compute. intros [H|[H|[]]]; discriminate.
  - apply replace_absent; [|now left].
    vm_compute. intros [H|[H|[]]]; discriminate.
Qed.

(** X10.  In the text of every merged span that [get_span] returns, each
    white-space character is a space U+0020, no two white-space
    characters follow each other, and neither ligature U+FB01, U+FB02
    occurs. *)
Theorem get_span_text_normal (l : line) (spans : list mspan) (sp : mspan) :
  get_span l = Ok spans ->
  In sp spans ->
  (forall c, In c (mtext sp) -> is_space c = true -> c = 32%N)
  /\ (forall pre a b post,
        mtext sp = pre ++ a :: b :: post ->
        is_space a = true -> is_space b = false)
  /\ ~ In 64257%N (mtext sp) /\ ~ In 64258%N (mtext sp).
Proof.
  unfold get_span.
  destruct (merge_loop [] None (Doc.spans l)) as [merged|]; [|discriminate].
  cbn [bind]. intros H Hin. injection H as <-.
  apply in_map_iff in Hin as (span & <- & _). cbn [mtext].
  destruct (tidy_spaced (mtext span)) as (Hs & H1 & H2).
  repeat split; auto.
  - intros c. eapply spaced_all; eassumption.
  - intros pre a b post. eapply spaced_adjacent; eassumption.
Qed.

Lemma get_span_text_normal_witness :
  let sp := MSpan (str "of course") (str "Serif") 10 in
  (forall c, In c (mtext sp) -> is_space c = true -> c = 32%N)
  /\ (forall pre a b post,
        mtext sp = pre ++ a :: b :: post ->
        is_space a = true -> is_space b = false)
  /\ ~ In 64257%N (mtext sp) /\ ~ In 64258%N (mtext sp).
Proof.
  intros sp.
  apply (@get_span_text_normal
           (Line [Samples.plain "of  " "Serif" 10;
                  Samples.plain "course" "Serif" 10] Samples.box0)
           [sp] sp).
  - reflexivity.
  - left; reflexivity.
Defined.

(* ================================================================== *)
(** * Further properties of the scan *)

Import Keys.

Lemma setitem_keys d k v : incl (keys (setitem d k v)) (k :: keys d).
Proof.
  unfold keys. induction d as [|[k' v'] d IH]; simpl.
  - intros x [<-|[]]. now left.
  - destruct (str_eqb k' k); simpl.
    + intros x Hx. now right.
    + intros x [<-|Hx]; [right; now left|].
      apply IH in Hx as [<-|Hx]; [now left|right; now right].
Qed.

Section KeysOfScan.

Variable doc : document.
Variable pheight : Q.
Variables pframe main_size : Z.
Variable main_font : pystr.
Variable recurse : list entry -> nat -> result dict.
Variable section : entry.
Variable next_section : option entry.
Variable subsections : list entry.
Variable mt0 : dict.

Lemma quiet_within s s' :
  quiet (sec_title section) s s' -> within mt0 (sec_title section) s ->
  within mt0 (sec_title section) s'.
Proof.
  intros [Hm Hk] [Hkey Hincl]. split.
  - destruct Hk as [->| ->]; auto.
  - now rewrite Hm.
Qed.

Lemma quiet_refl title s : quiet title s s.
Proof. split; auto. Qed.

Lemma quiet_trans title s1 s2 s3 :
  quiet title s1 s2 -> quiet title s2 s3 -> quiet title s1 s3.
Proof.
  intros [Hm1 Hk1] [Hm2 Hk2]. split; [congruence|].
  destruct Hk2 as [->|]; auto.
Qed.

Lemma accumulate_quiet title inline spans s s' c :
  accumulate main_size inline spans s = Ok (s', c) -> quiet title s s'.
Proof.
  unfold accumulate. destruct (str_eqb (key s) []).
  - intros H; injection H as <- _. apply quiet_refl.
  - destruct (add_spans _ _ _); cbn [bind]; [|discriminate].
    intros H; injection H as <- _. split; auto.
Qed.

Lemma on_heading_quiet blocks block sp0 spans s s' c :
  on_heading main_size recurse section next_section subsections
    blocks block sp0 spans s = Ok (s', c) ->
  quiet (sec_title section) s s'.
Proof.
  unfold on_heading.
  repeat match goal with
         | |- context [if ?b then _ else _] => destruct b
         | |- context [match next_section with _ => _ end] =>
             destruct next_section
         | |- context [bind ?x _] => destruct x; cbn [bind]
         end;
    try discriminate;
    try (intros H; injection H as <- _; split; auto; fail);
    try (intros H; apply (accumulate_quiet (sec_title section)) in H;
         exact H).
  intros H. apply (accumulate_quiet (sec_title section)) in H.
  eapply quiet_trans; [|exact H]. split; auto.
Qed.

Lemma line_body_quiet blocks block spans line s s' c :
  line_body main_size main_font recurse section next_section subsections
    blocks block spans line s = Ok (s', c) ->
  quiet (sec_title section) s s'.
Proof.
  unfold line_body. destruct spans as [|sp0 spans'].
  - intros H; injection H as <- _. apply quiet_refl.
  - repeat match goal with
           | |- context [bind ?x _] => destruct x; cbn [bind]
           | |- context [if ?b then _ else _] => destruct b
           end;
      try discriminate;
      try (intros H; injection H as <- _; apply quiet_refl);
      try (intros H; apply on_heading_quiet in H; exact H);
      try (intros H; apply (accumulate_quiet (sec_title section)) in H;
           exact H).
Qed.

Lemma scan_lines_quiet before after type box : forall rest done s s' ls,
  scan_lines main_size main_font recurse section next_section subsections
    before after type box done rest s = Ok (s', ls) ->
  quiet (sec_title section) s s'.
Proof.
  induction rest as [|line rest IH]; intros done s s' ls; cbn [scan_lines].
  - intros H; injection H as <- _. apply quiet_refl.
  - destruct (get_span line); cbn [bind]; [|discriminate].
    destruct (line_body _ _ _ _ _ _ _ _ _ _ _) as [[s1 c]|] eqn:E;
      cbn [bind fst snd]; [|discriminate].
    apply line_body_quiet in E. destruct c.
    + intros H. apply IH in H. eapply quiet_trans; eauto.
    + intros H; injection H as <- _. exact E.
Qed.

Lemma after_block_within s s' :
  after_block s = Ok s' ->
  within mt0 (sec_title section) s -> within mt0 (sec_title section) s'.
Proof.
  unfold after_block. destruct (str_eqb_spec (key s) []) as [Hk|Hk].
  - intros H; injection H as <-. auto.
  - destruct (value0 (val s)); cbn [bind]; [|discriminate].
    destruct (set_value0 _ _); cbn [bind]; [|discriminate].
    intros H; injection H as <-. intros [Hkey Hincl].
    destruct Hkey as [Hkey|Hkey]; [contradiction|].
    split; [now right|]. cbn [main_text key with_main_text with_val].
    intros x Hx. apply setitem_keys in Hx as [<-|Hx].
    + left. now rewrite Hkey.
    + now apply Hincl.
Qed.

Lemma with_skip_within s b :
  within mt0 (sec_title section) s ->
  within mt0 (sec_title section) (with_skip s b).
Proof. now intros [? ?]. Qed.

Lemma scan_blocks_within : forall rest before s s' bs,
  scan_blocks doc pheight pframe main_size main_font recurse section
    next_section subsections before rest s = Ok (s', bs) ->
  within mt0 (sec_title section) s -> within mt0 (sec_title section) s'.
Proof.
  induction rest as [|block rest IH]; intros before s s' bs;
    cbn [scan_blocks].
  - intros H; injection H as <- _. auto.
  - destruct (skip s || stop s); [intros H; injection H as <- _; auto|].
    destruct (eligible doc pheight pframe block).
    + destruct (lines block) as [ls|].
      * destruct (scan_lines _ _ _ _ _ _ _ _ _ _ _ _ _) as [[s1 ls1]|] eqn:E;
          cbn [bind fst snd]; [|discriminate].
        apply scan_lines_quiet in E.
        destruct (after_block s1) as [s2|] eqn:E2; cbn [bind];
          [|discriminate].
        intros H Hw. apply IH in H; auto.
        eapply after_block_within; eauto. eapply quiet_within; eauto.
      * cbn [bind fst snd].
        destruct (after_block s) as [s2|] eqn:E2; cbn [bind];
          [|discriminate].
        intros H Hw. apply IH in H; auto.
        eapply after_block_within; eauto.
    + cbn [bind fst snd].
      destruct (after_block s) as [s2|] eqn:E2; cbn [bind]; [|discriminate].
      intros H Hw. apply IH in H; auto.
      eapply after_block_within; eauto.
Qed.

Lemma scan_pages_within : forall rest before num_block s s' n,
  scan_pages doc pheight pframe main_size main_font recurse section
    next_section subsections before rest num_block s = Ok (s', n) ->
  within mt0 (sec_title section) s -> within mt0 (sec_title section) s'.
Proof.
  induction rest as [|blocks rest IH]; intros before num_block s s' n;
    cbn [scan_pages].
  - intros H; injection H as <- _. auto.
  - destruct (stop s); [intros H; injection H as <- _; auto|].
    destruct (index _ _ _) as [i|]; cbn [bind]; [|discriminate].
    destruct (scan_blocks _ _ _ _ _ _ _ _ _ _ _ _) as [[s1 bs]|] eqn:E;
      cbn [bind fst snd]; [|discriminate].
    intros H Hw. apply IH in H; auto.
    eapply scan_blocks_within; [eassumption|]. now apply with_skip_within.
Qed.

End KeysOfScan.

(** X11.  The loop over the pages of a section writes the mapping under
    no other key than the title of the section: the titles of the
    subsections and of the next section it meets, and the text of the
    pages, never become keys. *)
Theorem text_extract_keys doc pheight pframe main_size main_font recurse
        section next_section subsections pblocks num_block main_text s' n :
  scan_pages doc pheight pframe main_size main_font recurse section
    next_section subsections [] pblocks num_block (initial main_text)
  = Ok (s', n) ->
  forall k, In k (keys (Scan.main_text s')) ->
            k = sec_title section \/ In k (keys main_text).
Proof.
  intros H k Hk.
  apply (@scan_pages_within doc pheight pframe main_size main_font recurse
           section next_section subsections main_text) in H.
  - destruct H as [_ Hincl]. apply Hincl in Hk as [<-|Hk]; auto.
  - split; [now left|]. intros x Hx. now right.
Qed.

Lemma text_extract_keys_witness :
  let s' := State (str "Methods")
                  [VStr (str "We use an exam-ple here. More text")]
                  false false false
                  [(str "Methods",
                    [VStr (str "We use an exam-ple here. More text")])] in
  scan_pages Samples.paper 800 50 10 (str "Serif") (fun _ _ => Ok [])
    Samples.methods (Some Samples.results) [] []
    [blocks (hd Samples.blank_page (pages Samples.paper))] 0 (initial [])
  = Ok (s', 0%nat)
  /\ forall k, In k (keys (Scan.main_text s')) ->
               k = sec_title Samples.methods \/ In k (keys []).
Proof.
  intros s'.
  assert (H : scan_pages Samples.paper 800 50 10 (str "Serif")
                (fun _ _ => Ok []) Samples.methods (Some Samples.results)
                [] [] [blocks (hd Samples.blank_page (pages Samples.paper))]
                0 (initial []) = Ok (s', 0%nat))
    by (vm_compute; reflexivity).
  split; [exact H|]. exact (text_extract_keys _ _ _ _ _ _ _ _ _ _ _ _ H).
Defined.

Lemma not_eligible_unsupported doc pheight pframe b :
  unsupported doc -> eligible doc pheight pframe b = false.
Proof. intros [Hpdf Hepub]. unfold eligible. now rewrite Hpdf, Hepub. Qed.

Lemma scan_blocks_unsupported doc pheight pframe main_size main_font recurse
      section next_section subsections mt :
  unsupported doc ->
  forall rest before s,
    idle mt s ->
    exists s' bs,
      scan_blocks doc pheight pframe main_size main_font recurse section
        next_section subsections before rest s = Ok (s', bs)
      /\ idle mt s'.
Proof.
  intros Hun. induction rest as [|block rest IH]; intros before s Hidle;
    cbn [scan_blocks]; [eauto|].
  destruct (skip s || stop s); [eauto|].
  rewrite (@not_eligible_unsupported _ pheight pframe block Hun).
  cbn [bind fst snd].
  rewrite (after_block_idle Hidle). cbn [bind]. now apply IH.
Qed.

Lemma scan_pages_unsupported doc pheight pframe main_size main_font recurse
      section next_section subsections mt :
  unsupported doc ->
  forall rest before num_block s,
    idle mt s ->
    exists s' n,
      scan_pages doc pheight pframe main_size main_font recurse section
        next_section subsections before rest num_block s = Ok (s', n)
      /\ idle mt s'.
Proof.
  intros Hun. induction rest as [|blocks rest IH];
    intros before num_block s Hidle; cbn [scan_pages]; [eauto|].
  destruct (stop s); [eauto|].
  destruct (index_found (list_eqb block_eqb)
              (list_eqb_refl block_eqb block_eqb_refl) before blocks rest)
    as (i & -> & _). cbn [bind].
  set (n := if (0 <? i)%nat then 0%nat else num_block).
  destruct (@scan_blocks_unsupported doc pheight pframe main_size main_font
              recurse section next_section subsections mt Hun
              (skipn n blocks) (firstn n blocks) _
              (idle_with_skip false Hidle)) as (s1 & bs & -> & Hidle1).
  cbn [bind fst snd]. now apply IH.
Qed.

(** X12.  For a document whose format names neither "pdf" nor "epub" no
    block is eligible: whatever the pages of the section hold, the loop
    over them reads no line, raises nothing and leaves the mapping as it
    was, without a key. *)
Theorem text_extract_unsupported_format doc pheight pframe main_size
        main_font recurse section next_section subsections pblocks
        num_block main_text :
  unsupported doc ->
  exists s' n,
    scan_pages doc pheight pframe main_size main_font recurse section
      next_section subsections [] pblocks num_block (initial main_text)
    = Ok (s', n)
    /\ key s' = []
    /\ Scan.main_text s' = main_text.
Proof.
  intros Hun.
  destruct (@scan_pages_unsupported doc pheight pframe main_size main_font
              recurse section next_section subsections main_text Hun
              pblocks [] num_block (initial main_text))
    as (s' & n & H & (Hk & _ & Hmt)); [now repeat split|].
  now exists s', n.
Qed.

Lemma text_extract_unsupported_format_witness :
  let doc := Document (outline Samples.paper) (pages Samples.paper)
                      (str "XPS") in
  exists s' n,
    scan_pages doc 800 50 10 (str "Serif") (fun _ _ => Ok [])
      Samples.methods (Some Samples.results) [] []
      [blocks (hd Samples.blank_page (pages doc))] 0 (initial [])
    = Ok (s', n)
    /\ key s' = []
    /\ Scan.main_text s' = [].
Proof.
  intros doc.
  apply (@text_extract_unsupported_format doc 800 50 10 (str "Serif")
           (fun _ _ => Ok []) Samples.methods (Some Samples.results) []
           [blocks (hd Samples.blank_page (pages doc))] 0 []).
  split; reflexivity.
Defined.

(* ------------------------------------------------------------------ *)
(** ** Heading levels *)

Lemma lit_match_prefix l rest : lit_match false l (l ++ rest) = Some rest.
Proof.
  induction l as [|a l IH]; cbn [lit_match app]; [reflexivity|].
  unfold chr_ok. now rewrite N.eqb_refl.
Qed.

Lemma m_lit_some l rest pos cs (k : cont) :
  k (pos + length l)%nat rest cs <> None ->
  m false (Lit l) pos (l ++ rest) cs k <> None.
Proof. intros H. cbn [m]. now rewrite lit_match_prefix. Qed.

Lemma star_cls_some p ds : forall fuel pos rest cs (k : cont),
  Forall (fun c => p c = true) ds ->
  (length ds <= fuel)%nat ->
  k (pos + length ds)%nat rest cs <> None ->
  star (m false (Cls p)) fuel pos (ds ++ rest) cs k <> None.
Proof.
  induction ds as [|d ds IH]; intros fuel pos rest cs k Hds Hfuel Hk.
  - cbn [length app] in *. rewrite Nat.add_0_r in Hk.
    destruct fuel as [|f]; cbn [star]; [exact Hk|].
    destruct (m false (Cls p) pos rest cs _); [discriminate|exact Hk].
  - inversion Hds as [|? ? Hd Hds']; subst.
    destruct fuel as [|f]; cbn [length] in Hfuel; [lia|].
    cbn [star app m]. unfold cls_ok. rewrite Hd. cbn [orb].
    replace (pos <? S pos)%nat with true
      by (symmetry; apply Nat.ltb_lt; lia).
    assert (H : star (m false (Cls p)) f (S pos) (ds ++ rest) cs k <> None).
    { apply IH; [assumption|lia|].
      cbn [length] in Hk. now rewrite Nat.add_succ_r in Hk. }
    destruct (star _ f (S pos) (ds ++ rest) cs k); [discriminate|].
    now elim H.
Qed.

Lemma plus_cls_some p d ds pos rest cs (k : cont) :
  Forall (fun c => p c = true) (d :: ds) ->
  k (pos + length (d :: ds))%nat rest cs <> None ->
  m false (Plus (Cls p)) pos ((d :: ds) ++ rest) cs k <> None.
Proof.
  intros Hds Hk. inversion Hds as [|? ? Hd Hds']; subst.
  cbn [m app]. unfold cls_ok. rewrite Hd. cbn [orb].
  apply star_cls_some; [assumption|rewrite length_app; lia|].
  cbn [length] in Hk. now rewrite Nat.add_succ_r in Hk.
Qed.

Lemma accept_some pos s cs : accept pos s cs <> None.
Proof. discriminate. Qed.

Lemma matches_some o : o <> None -> matches o = true.
Proof. destruct o; [reflexivity|congruence]. Qed.

(** A text that starts with a digit does not start with one of the four
    words. *)
Lemma digit_is_not_a_word d s :
  is_digit d = true ->
  matches (re_match false
             (cat [Bol; Grp 1 (Alt (txt "Chapter") (Alt (txt "CHAPTER")
                   (Alt (txt "Part") (txt "PART"))))]) (d :: s)) = false.
Proof.
  intros Hd. unfold re_match, txt. cbn [cat m Nat.eqb str map
    list_ascii_of_string lit_match]. unfold chr_ok.
  assert (H67 : (N_of_ascii "C" =? d)%N = false).
  { apply N.eqb_neq. intros <-. discriminate. }
  assert (H80 : (N_of_ascii "P" =? d)%N = false).
  { apply N.eqb_neq. intros <-. discriminate. }
  now rewrite H67, H80.
Qed.

Lemma level_from_1_to_4 text sp fs :
  1 <= _determine_heading_level text sp fs <= 4.
Proof.
  unfold _determine_heading_level.
  match goal with
  | |- context [match large_sizes fs with [] => 2 | _ :: _ => ?x end] =>
      set (level := match large_sizes fs with [] => 2 | _ :: _ => x end)
  end.
  assert (Hlevel : 1 <= level <= 4).
  { subst level. destruct (large_sizes fs); [lia|].
    repeat match goal with
           | |- context [if ?c then _ else _] => destruct c
           end; lia. }
  cbv zeta.
  repeat match goal with
         | |- context [if ?c then _ else _] => destruct c
         end; lia.
Qed.

(** X13.  [_determine_heading_level] returns a level from 1 to 4: the
    bounds 1 and 6 of its last line never change the level. *)
Theorem determine_heading_level_range text sp fs :
  1 <= _determine_heading_level text sp fs <= 4.
Proof. apply level_from_1_to_4. Qed.

(** X14.  A text that starts with "Chapter", "CHAPTER", "Part" or "PART"
    has level 1, whatever the size of its span. *)
Theorem chapter_or_part_is_level_1 text sp fs w rest :
  In w (map str ["Chapter"; "CHAPTER"; "Part"; "PART"]%string) ->
  text = w ++ rest ->
  _determine_heading_level text sp fs = 1.
Proof.
  intros Hw ->. unfold _determine_heading_level.
  match goal with
  | |- context [match large_sizes fs with [] => 2 | _ :: _ => ?x end] =>
      set (level := match large_sizes fs with [] => 2 | _ :: _ => x end)
  end.
  assert (Hlevel : 1 <= level).
  { subst level. destruct (large_sizes fs); [lia|].
    repeat match goal with
           | |- context [if ?c then _ else _] => destruct c
           end; lia. }
  replace (matches (re_match false
             (cat [Bol; Grp 1 (Alt (txt "Chapter") (Alt (txt "CHAPTER")
                   (Alt (txt "Part") (txt "PART"))))]) (w ++ rest)))
    with true; [cbv zeta; lia|].
  symmetry. apply matches_some. unfold re_match. cbn [cat m Nat.eqb].
  unfold txt.
  assert (Hword : forall l k, k (0 + length l)%nat rest [] <> None ->
                               m false (Lit l) 0 (l ++ rest) [] k <> None)
    by (intros; now apply m_lit_some).
  cbn [map In] in Hw.
  destruct Hw as [<-|[<-|[<-|[<-|[]]]]];
    repeat match goal with
           | |- match ?x with Some y => Some y | None => _ end <> None =>
               let E := fresh in
               destruct x eqn:E; [discriminate|]
           end;
    try (apply Hword; apply accept_some);
    match goal with
    | E : m false (Lit ?l) 0 (?l ++ rest) [] ?k = None |- _ =>
        exfalso; revert E; apply Hword; apply accept_some
    end.
Qed.

Lemma chapter_or_part_is_level_1_witness :
  let sp := Span (str "Part two") (str "Serif") 9 0 Samples.box0 in
  let fs := FontStats [14; 10]%Q 10 [14; 10]%Q in
  _determine_heading_level (str "Part two") sp fs = 1.
Proof.
  intros sp fs.
  apply (@chapter_or_part_is_level_1 (str "Part two") sp fs (str "Part")
           (str " two")).
  - right; right; left; reflexivity.
  - reflexivity.
Defined.

Lemma seq_some r1 r2 pos s cs (k : cont) :
  m false r1 pos s cs (fun pos' s' cs' => m false r2 pos' s' cs' k) <> None ->
  m false (Seq r1 r2) pos s cs k <> None.
Proof. exact (fun H => H). Qed.

Lemma bol_some s cs (k : cont) :
  k 0%nat s cs <> None -> m false Bol 0 s cs k <> None.
Proof. exact (fun H => H). Qed.

Lemma numbered_two d1 d2 rest :
  d1 <> [] -> d2 <> [] ->
  Forall (fun c => is_digit c = true) d1 ->
  Forall (fun c => is_digit c = true) d2 ->
  matches (re_match false (cat [Bol; Plus dig; txt "."; Plus dig])
             (d1 ++ str "." ++ d2 ++ rest)) = true.
Proof.
  intros N1 N2 H1 H2. apply matches_some. unfold re_match, dig, txt.
  destruct d1 as [|a d1]; [congruence|].
  destruct d2 as [|b d2]; [congruence|].
  cbn [cat]. apply seq_some, bol_some; cbv beta.
  apply seq_some, plus_cls_some; [assumption|cbv beta].
  apply seq_some, m_lit_some; cbv beta.
  apply plus_cls_some; [assumption|]. apply accept_some.
Qed.

Lemma numbered_three d1 d2 d3 rest :
  d1 <> [] -> d2 <> [] -> d3 <> [] ->
  Forall (fun c => is_digit c = true) d1 ->
  Forall (fun c => is_digit c = true) d2 ->
  Forall (fun c => is_digit c = true) d3 ->
  matches (re_match false
             (cat [Bol; Plus dig; txt "."; Plus dig; txt "."; Plus dig])
             (d1 ++ str "." ++ d2 ++ str "." ++ d3 ++ rest)) = true.
Proof.
  intros N1 N2 N3 H1 H2 H3. apply matches_some. unfold re_match, dig, txt.
  destruct d1 as [|a d1]; [congruence|].
  destruct d2 as [|b d2]; [congruence|].
  destruct d3 as [|c d3]; [congruence|].
  cbn [cat]. apply seq_some, bol_some; cbv beta.
  apply seq_some, plus_cls_some; [assumption|cbv beta].
  apply seq_some, m_lit_some; cbv beta.
  apply seq_some, plus_cls_some; [assumption|cbv beta].
  apply seq_some, m_lit_some; cbv beta.
  apply plus_cls_some; [assumption|]. apply accept_some.
Qed.

(** X15.  A numbered heading is never placed above its depth: a text
    that starts with digits, a dot and digits ("1.2") has level 2 at
    least, and with one more dot and digits ("1.2.3") level 3 at least,
    however large its span. *)
Theorem numbered_heading_level text sp fs d1 d2 rest :
  d1 <> [] -> d2 <> [] ->
  Forall (fun c => is_digit c = true) d1 ->
  Forall (fun c => is_digit c = true) d2 ->
  text = d1 ++ str "." ++ d2 ++ rest ->
  2 <= _determine_heading_level text sp fs
  /\ (forall d3 rest',
        d3 <> [] -> Forall (fun c => is_digit c = true) d3 ->
        rest = str "." ++ d3 ++ rest' ->
        3 <= _determine_heading_level text sp fs).
Proof.
  intros N1 N2 H1 H2 ->.
  assert (Hword :
            matches (re_match false
              (cat [Bol; Grp 1 (Alt (txt "Chapter") (Alt (txt "CHAPTER")
                    (Alt (txt "Part") (txt "PART"))))])
              (d1 ++ str "." ++ d2 ++ rest)) = false).
  { destruct d1 as [|a d1]; [congruence|].
    inversion H1; subst. now apply digit_is_not_a_word. }
  assert (Htwo := numbered_two rest N1 N2 H1 H2).
  unfold _determine_heading_level.
  match goal with
  | |- context [match large_sizes fs with [] => 2 | _ :: _ => ?x end] =>
      set (level := match large_sizes fs with [] => 2 | _ :: _ => x end)
  end.
  clearbody level. rewrite Hword, Htwo. cbv zeta. split.
  - match goal with
    | |- context [if ?c then _ else _] => destruct c
    end; lia.
  - intros d3 rest' N3 H3 ->.
    rewrite (numbered_three rest' N1 N2 N3 H1 H2 H3). lia.
Qed.

Lemma numbered_heading_level_witness :
  let text := str "1.2.3 Scope" in
  let sp := Span text (str "Serif") 20 0 Samples.box0 in
  let fs := FontStats [14; 10]%Q 10 [14; 10]%Q in
  2 <= _determine_heading_level text sp fs
  /\ 3 <= _determine_heading_level text sp fs.
Proof.
  intros text sp fs.
  assert (N1 : str "1" <> []) by discriminate.
  assert (N2 : str "2" <> []) by discriminate.
  assert (D1 : Forall (fun c => is_digit c = true) (str "1"))
    by (repeat constructor).
  assert (D2 : Forall (fun c => is_digit c = true) (str "2"))
    by (repeat constructor).
  destruct (@numbered_heading_level text sp fs (str "1") (str "2")
              (str ".3 Scope") N1 N2 D1 D2 eq_refl) as [H2 H3].
  split; [exact H2|].
  apply (H3 (str "3") (str " Scope"));
    [discriminate|repeat constructor|reflexivity].
Defined.

(* ------------------------------------------------------------------ *)
(** ** Which spans are headings *)

Lemma land_bit_zero x n :
  0 <= n -> Z.testbit x n = false -> (Z.land x (2 ^ n) =? 0) = true.
Proof.
  intros Hn Hb. apply Z.eqb_eq. apply Z.bits_inj'. intros k Hk.
  rewrite Z.land_spec, Z.bits_0.
  destruct (Z.eq_dec k n) as [->|Hne].
  - now rewrite Hb.
  - rewrite (Z.pow2_bits_false n k) by congruence. apply andb_false_r.
Qed.

Lemma land_bit x n :
  0 <= n -> negb (Z.land x (2 ^ n) =? 0) = Z.testbit x n.
Proof.
  intros Hn. destruct (Z.testbit x n) eqn:E.
  - now rewrite land_bit_nonzero.
  - now rewrite land_bit_zero.
Qed.

(** X16.  For a span that is not larger than the median size, the marks
    of the score do not count: with 3 to 200 characters a Latin-1 text
    is a heading exactly when it matches one of the heading patterns. *)
Theorem small_span_heading_by_pattern text sp fs :
  latin1 text = true ->
  (size sp <= median_size fs)%Q ->
  _is_potential_heading text sp fs
  = (3 <=? length text)%nat && (length text <=? 200)%nat
    && pattern_match text.
Proof.
  intros _ Hsize. unfold _is_potential_heading.
  rewrite (Nat.leb_antisym (length text) 3).
  rewrite (Nat.ltb_antisym (length text) 200).
  destruct (length text <? 3)%nat; [reflexivity|].
  destruct (length text <=? 200)%nat; [|reflexivity].
  cbn [negb andb].
  assert (Hle : Qle_bool (size sp) (median_size fs) = true)
    by now apply Qle_bool_iff.
  rewrite Hle. cbn [andb].
  destruct (pattern_match text) eqn:Hp; cbn [negb]; [|reflexivity].
  unfold heading_score. rewrite Hp. apply Z.leb_le.
  repeat match goal with
         | |- context [if ?c then _ else _] => destruct c
         end; lia.
Qed.

Lemma small_span_heading_by_pattern_witness :
  let sp := Span (str "Chapter 4 Results") (str "Serif") 10 0
                 Samples.box0 in
  let fs := FontStats [14; 10]%Q 10 [14; 10]%Q in
  _is_potential_heading (str "Chapter 4 Results") sp fs
  = (3 <=? length (str "Chapter 4 Results"))%nat
    && (length (str "Chapter 4 Results") <=? 200)%nat
    && pattern_match (str "Chapter 4 Results").
Proof.
  intros sp fs.
  apply (@small_span_heading_by_pattern (str "Chapter 4 Results") sp fs).
  - reflexivity.
  - vm_compute. discriminate.
Defined.

(** X17.  For a span larger than the median size, the size alone is not
    enough: with 3 to 200 characters a Latin-1 text is a heading exactly
    when it has one more mark, whichever it is: bold or italic type, a
    heading pattern, a keyword, a number or a Roman numeral at the
    start, or capitals in fewer than 50 characters. *)
Theorem large_span_heading_by_one_mark text sp fs :
  latin1 text = true ->
  (median_size fs < size sp)%Q ->
  (3 <= length text <= 200)%nat ->
  _is_potential_heading text sp fs
  = Z.testbit (flags sp) 4
    || Z.testbit (flags sp) 1
    || pattern_match text
    || existsb (fun keyword => contains keyword (lower text))
               heading_keywords
    || matches (re_match false numeric_start text)
    || matches (re_match true roman_start text)
    || (isupper text && (length text <? 50)%nat).
Proof.
  intros _ Hsize [Hlo Hhi]. unfold _is_potential_heading.
  replace (length text <? 3)%nat with false
    by (symmetry; apply Nat.ltb_ge; lia).
  replace (200 <? length text)%nat with false
    by (symmetry; apply Nat.ltb_ge; lia).
  rewrite (Qle_bool_false Hsize). cbn [andb].
  unfold heading_score. rewrite (Qlt_bool_true Hsize).
  rewrite !land_bit by lia.
  destruct (Z.testbit (flags sp) 4), (Z.testbit (flags sp) 1),
    (pattern_match text),
    (existsb (fun keyword => contains keyword (lower text))
             heading_keywords),
    (matches (re_match false numeric_start text)),
    (matches (re_match true roman_start text)),
    (isupper text && (length text <? 50)%nat); reflexivity.
Qed.

Lemma large_span_heading_by_one_mark_witness :
  let text := str "A plain line of body text" in
  let sp := Span text (str "Serif") 14 0 Samples.box0 in
  let fs := FontStats [14; 10]%Q 10 [14; 10]%Q in
  _is_potential_heading text sp fs
  = Z.testbit (flags sp) 4
    || Z.testbit (flags sp) 1
    || pattern_match text
    || existsb (fun keyword => contains keyword (lower text))
               heading_keywords
    || matches (re_match false numeric_start text)
    || matches (re_match true roman_start text)
    || (isupper text && (length text <? 50)%nat).
Proof.
  intros text sp fs.
  apply (@large_span_heading_by_one_mark text sp fs).
  - reflexivity.
  - reflexivity.
  - vm_compute. split; apply Nat.leb_le; reflexivity.
Defined.

(* ------------------------------------------------------------------ *)
(** ** The clean-up of the entries *)

Import TOCEntries.

Lemma key_eqb_eq a b : key_eqb a b = true <-> a = b.
Proof.
  destruct a as [ta la], b as [tb lb]. unfold key_eqb. cbn [fst snd].
  rewrite andb_true_iff, Z.eqb_eq. split.
  - intros [Ht ->]. destruct (str_eqb_spec ta tb); congruence.
  - intros H; injection H as -> ->. now rewrite str_eqb_refl.
Qed.

Lemma seen_iff key seen : existsb (key_eqb key) seen = true <-> In key seen.
Proof.
  rewrite existsb_exists. split.
  - intros (x & Hx & E). apply key_eqb_eq in E. now subst.
  - intros H. exists key. split; [assumption|now apply key_eqb_eq].
Qed.

Lemma dedupe_fresh entries : forall seen e,
  In e (dedupe seen entries) -> ~ In (seen_key e) seen.
Proof.
  induction entries as [|x entries IH]; intros seen e; cbn [dedupe];
    [intros []|].
  destruct (existsb (key_eqb (seen_key x)) seen) eqn:E.
  - apply IH.
  - intros [<-|Hin].
    + intros H. apply seen_iff in H. congruence.
    + apply IH in Hin. intros H. apply Hin. now right.
Qed.

Lemma dedupe_NoDup entries : forall seen,
  NoDup (map seen_key (dedupe seen entries)).
Proof.
  induction entries as [|x entries IH]; intros seen; cbn [dedupe];
    [constructor|].
  destruct (existsb (key_eqb (seen_key x)) seen); [apply IH|].
  cbn [map]. constructor; [|apply IH].
  intros H. apply in_map_iff in H as (e & Hk & He).
  apply dedupe_fresh in He. apply He. left. congruence.
Qed.

Lemma dedupe_covers entries : forall seen e,
  In e entries ->
  In (seen_key e) seen
  \/ exists e', In e' (dedupe seen entries) /\ seen_key e' = seen_key e.
Proof.
  induction entries as [|x entries IH]; intros seen e; [intros []|].
  cbn [dedupe]. intros [->|Hin].
  - destruct (existsb (key_eqb (seen_key e)) seen) eqn:E.
    + left. now apply seen_iff.
    + right. exists e. split; [now left|reflexivity].
  - destruct (existsb (key_eqb (seen_key x)) seen) eqn:E.
    + now apply IH.
    + destruct (IH (seen_key x :: seen) e Hin) as [[Hx|Hs]|(e' & He' & Hk)].
      * right. exists x. split; [now left|assumption].
      * now left.
      * right. exists e'. split; [now right|assumption].
Qed.

Lemma dedupe_first entries : forall seen e,
  In e (dedupe seen entries) ->
  exists before after,
    entries = before ++ e :: after
    /\ ~ In (seen_key e) (map seen_key before).
Proof.
  induction entries as [|x entries IH]; intros seen e; cbn [dedupe];
    [intros []|].
  destruct (existsb (key_eqb (seen_key x)) seen) eqn:E.
  - intros Hin. pose proof (dedupe_fresh _ _ _ Hin) as Hfresh.
    destruct (IH _ _ Hin) as (before & after & -> & Hb).
    exists (x :: before), after. split; [reflexivity|].
    cbn [map]. intros [Hx|Hx]; [|now apply Hb].
    apply seen_iff in E. congruence.
  - intros [<-|Hin].
    + exists [], entries. split; [reflexivity|intros []].
    + pose proof (dedupe_fresh _ _ _ Hin) as Hfresh.
      destruct (IH _ _ Hin) as (before & after & -> & Hb).
      exists (x :: before), after. split; [reflexivity|].
      cbn [map]. intros [Hx|Hx]; [|now apply Hb].
      apply Hfresh. now left.
Qed.

Section StableSortProperties.

Variable A : Type.
Variable le : A -> A -> bool.

Lemma sort_insert_perm x l : Permutation (sort_insert le x l) (x :: l).
Proof.
  induction l as [|y l IH]; cbn [sort_insert]; [reflexivity|].
  destruct (le x y); [reflexivity|].
  rewrite IH. apply perm_swap.
Qed.

Lemma stable_sort_perm l : Permutation (stable_sort le l) l.
Proof.
  induction l as [|x l IH]; cbn [stable_sort]; [reflexivity|].
  rewrite sort_insert_perm. now constructor.
Qed.

Hypothesis le_total : forall x y, le x y = false -> le y x = true.
Hypothesis le_trans :
  forall x y z, le x y = true -> le y z = true -> le x z = true.

Lemma sort_insert_sorted x l :
  StronglySorted (fun a b => le a b = true) l ->
  StronglySorted (fun a b => le a b = true) (sort_insert le x l).
Proof.
  induction 1 as [|y l Hl IH Hy]; cbn [sort_insert].
  - repeat constructor.
  - destruct (le x y) eqn:E.
    + constructor; [now constructor|].
      constructor; [assumption|].
      rewrite Forall_forall in *. intros z Hz. eauto.
    + constructor; [assumption|].
      rewrite Forall_forall in *. intros z Hz.
      apply (Permutation_in _ (sort_insert_perm x l)) in Hz.
      destruct Hz as [<-|Hz]; auto.
Qed.

Lemma stable_sort_sorted l :
  StronglySorted (fun a b => le a b = true) (stable_sort le l).
Proof.
  induction l as [|x l IH]; cbn [stable_sort]; [constructor|].
  now apply sort_insert_sorted.
Qed.

End StableSortProperties.

Lemma by_page_iff x y :
  by_page x y = true <->
  page_or_0 x < page_or_0 y
  \/ (page_or_0 x = page_or_0 y
      /\ (position_or_0 x <= position_or_0 y)%Q).
Proof.
  unfold by_page. destruct (Z.eqb_spec (page_or_0 x) (page_or_0 y)) as [E|E].
  - rewrite Qle_bool_iff. split; [now right|].
    intros [H|[_ H]]; [lia|assumption].
  - rewrite Z.ltb_lt. split; [now left|].
    intros [H|[H _]]; [assumption|contradiction].
Qed.

Lemma by_page_total x y : by_page x y = false -> by_page y x = true.
Proof.
  intros H. apply by_page_iff.
  destruct (Z.lt_trichotomy (page_or_0 x) (page_or_0 y)) as [Hlt|[Heq|Hgt]].
  - assert (by_page x y = true) by (apply by_page_iff; now left).
    congruence.
  - destruct (Qlt_le_dec (position_or_0 y) (position_or_0 x)) as [Hq|Hq].
    + right. split; [now symmetry|now apply Qlt_le_weak].
    + assert (by_page x y = true) by (apply by_page_iff; now right).
      congruence.
  - now left.
Qed.

Lemma by_page_trans x y z :
  by_page x y = true -> by_page y z = true -> by_page x z = true.
Proof.
  rewrite !by_page_iff.
  intros [H1|[H1 Q1]] [H2|[H2 Q2]]; try (left; lia).
  right. split; [lia|]. now apply Qle_trans with (position_or_0 y).
Qed.

Lemma by_position_total x y :
  by_position x y = false -> by_position y x = true.
Proof.
  unfold by_position. intros H. apply Qle_bool_iff.
  destruct (Qlt_le_dec (position_or_0 y) (position_or_0 x)) as [Hq|Hq].
  - now apply Qlt_le_weak.
  - apply Qle_bool_iff in Hq. congruence.
Qed.

Lemma by_position_trans x y z :
  by_position x y = true -> by_position y z = true -> by_position x z = true.
Proof.
  unfold by_position. rewrite !Qle_bool_iff. apply Qle_trans.
Qed.

Lemma clean_and_sort_toc_perm entries :
  Permutation (_clean_and_sort_toc entries) (dedupe [] entries).
Proof.
  unfold _clean_and_sort_toc.
  destruct (existsb has_page _); [apply stable_sort_perm|].
  destruct (existsb has_position _); [apply stable_sort_perm|reflexivity].
Qed.

Lemma existsb_perm {A} (f : A -> bool) l l' :
  Permutation l l' -> existsb f l = existsb f l'.
Proof.
  intros H. destruct (existsb f l') eqn:E.
  - apply existsb_exists in E as (x & Hx & Hf). apply existsb_exists.
    exists x. split; [|assumption].
    now apply (Permutation_in _ (Permutation_sym H)).
  - destruct (existsb f l) eqn:E'; [|reflexivity].
    apply existsb_exists in E' as (x & Hx & Hf).
    assert (existsb f l' = true); [|congruence].
    apply existsb_exists. exists x. split; [|assumption].
    now apply (Permutation_in _ H).
Qed.

(** X18.  For entries with Latin-1 titles, [_clean_and_sort_toc] keeps
    one entry for each pair of a title in lower case and a level,
    whatever it does to the order: every given entry has its pair among
    the entries returned, no two returned entries share a pair, and the
    entry returned for a pair is the first given one that has it. *)
Theorem clean_and_sort_toc_keeps_first entries :
  Forall (fun e => latin1 (entry_title e) = true) entries ->
  NoDup (map seen_key (_clean_and_sort_toc entries))
  /\ (forall e, In e entries ->
                exists e', In e' (_clean_and_sort_toc entries)
                           /\ seen_key e' = seen_key e)
  /\ (forall e, In e (_clean_and_sort_toc entries) ->
                exists before after,
                  entries = before ++ e :: after
                  /\ ~ In (seen_key e) (map seen_key before)).
Proof.
  intros _.
  pose proof (clean_and_sort_toc_perm entries) as Hperm.
  split; [|split].
  - apply (Permutation_NoDup
             (Permutation_map seen_key (Permutation_sym Hperm))).
    apply dedupe_NoDup.
  - intros e He.
    destruct (dedupe_covers entries [] e He) as [[]|(e' & He' & Hk)].
    exists e'. split; [|assumption].
    now apply (Permutation_in _ (Permutation_sym Hperm)).
  - intros e He. apply (Permutation_in _ Hperm) in He.
    now apply dedupe_first in He.
Qed.

Lemma clean_and_sort_toc_keeps_first_witness :
  let first := Entry (str "Results") 1 (Some 7) None in
  let again := Entry (str "RESULTS") 1 (Some 2) None in
  let other := Entry (str "Results") 2 (Some 3) None in
  let entries := [first; again; other] in
  _clean_and_sort_toc entries = [other; first]
  /\ NoDup (map seen_key (_clean_and_sort_toc entries))
  /\ (forall e, In e entries ->
                exists e', In e' (_clean_and_sort_toc entries)
                           /\ seen_key e' = seen_key e)
  /\ (forall e, In e (_clean_and_sort_toc entries) ->
                exists before after,
                  entries = before ++ e :: after
                  /\ ~ In (seen_key e) (map seen_key before)).
Proof.
  intros first again other entries. split; [reflexivity|].
  apply (@clean_and_sort_toc_keeps_first entries).
  repeat constructor.
Defined.

(** X19.  The order of the entries that [_clean_and_sort_toc] returns:
    when one of them has a page, they are in the order of the page and,
    on one page, of the position, an entry without a page or a position
    counting for 0; when none has a page and one has a position, in the
    order of the position; and when none has either, in the order they
    were given in. *)
Theorem clean_and_sort_toc_order entries :
  let toc := _clean_and_sort_toc entries in
  (existsb has_page toc = true -> in_page_order toc)
  /\ (existsb has_page toc = false -> existsb has_position toc = true ->
      in_position_order toc)
  /\ (existsb has_page toc = false -> existsb has_position toc = false ->
      toc = dedupe [] entries).
Proof.
  intros toc. subst toc.
  rewrite (existsb_perm has_page (clean_and_sort_toc_perm entries)).
  rewrite (existsb_perm has_position (clean_and_sort_toc_perm entries)).
  unfold _clean_and_sort_toc, in_page_order, in_position_order.
  destruct (existsb has_page (dedupe [] entries));
    [|destruct (existsb has_position (dedupe [] entries))].
  - split; [|split; discriminate]. intros _.
    apply stable_sort_sorted; [apply by_page_total|apply by_page_trans].
  - split; [discriminate|]. split; [|discriminate]. intros _ _.
    apply stable_sort_sorted;
      [apply by_position_total|apply by_position_trans].
  - split; [discriminate|]. split; [discriminate|]. reflexivity.
Qed.

(* ------------------------------------------------------------------ *)
(** ** The headings found in the text of a PDF *)

Import FontAnalysis PdfHeadings.

Lemma potential_heading_length text sp fs :
  _is_potential_heading text sp fs = true ->
  (3 <= length text <= 200)%nat.
Proof.
  unfold _is_potential_heading.
  destruct (length text <? 3)%nat eqn:E3; [discriminate|].
  destruct (200 <? length text)%nat eqn:E200; [discriminate|].
  intros _. apply Nat.ltb_ge in E3, E200. lia.
Qed.

Lemma span_heading_in fs page_num sp e :
  In e (span_heading fs page_num sp)
  <-> accepted fs sp = true /\ e = heading fs page_num sp.
Proof.
  unfold span_heading, accepted, heading.
  destruct (_is_potential_heading _ sp fs); cbn [In]; split.
  - intros [<-|[]]. now split.
  - intros [_ ->]. now left.
  - intros [].
  - intros [H _]. discriminate.
Qed.

Lemma page_headings_in fs page_num p e :
  In e (page_headings fs page_num p)
  <-> exists sp, In sp (page_spans p) /\ accepted fs sp = true
                 /\ e = heading fs page_num sp.
Proof.
  unfold page_headings, page_spans. rewrite in_flat_map. split.
  - intros (b & Hb & H). destruct (lines b) as [ls|] eqn:El; [|destruct H].
    apply in_flat_map in H as (l & Hl & H).
    apply in_flat_map in H as (sp & Hsp & H).
    apply span_heading_in in H as [Ha ->].
    exists sp. split; [|now split].
    apply in_flat_map. exists b. split; [exact Hb|]. rewrite El.
    apply in_flat_map. now exists l.
  - intros (sp & Hsp & Ha & ->).
    apply in_flat_map in Hsp as (b & Hb & H). exists b. split; [exact Hb|].
    destruct (lines b) as [ls|]; [|destruct H].
    apply in_flat_map in H as (l & Hl & H).
    apply in_flat_map. exists l. split; [exact Hl|].
    apply in_flat_map. exists sp. split; [exact H|].
    now apply span_heading_in.
Qed.

Lemma headings_from_in fs ps : forall page_num e,
  In e (headings_from fs page_num ps)
  <-> exists i p sp,
        nth_error ps i = Some p /\ In sp (page_spans p)
        /\ accepted fs sp = true
        /\ e = heading fs (page_num + Z.of_nat i) sp.
Proof.
  induction ps as [|p ps IH]; intros page_num e; cbn [headings_from].
  - split; [intros []|]. intros (i & q & sp & H & _). now destruct i.
  - rewrite in_app_iff, page_headings_in, IH. split.
    + intros [(sp & Hsp & Ha & ->)|(i & q & sp & Hq & Hsp & Ha & ->)].
      * exists 0%nat, p, sp. rewrite Z.add_0_r. now repeat split.
      * exists (S i), q, sp. repeat split; try assumption.
        f_equal. lia.
    + intros ([|i] & q & sp & Hq & Hsp & Ha & ->).
      * left. injection Hq as <-. exists sp. rewrite Z.add_0_r.
        now repeat split.
      * right. exists i, q, sp. repeat split; try assumption.
        f_equal. lia.
Qed.

(** X20.  For a PDF without an outline, with Latin-1 texts and a median
    size that is the size of a span, [extract_toc_from_pdf] returns the
    headings of the spans that [_is_potential_heading] accepts under the
    font sizes of [_analyze_font_characteristics], and nothing else:
    every entry returned is made of an accepted span of a page (its text
    stripped, its level, the number of its page counted from 1, the top
    of its box); every accepted span has an entry with its title in
    lower case and its level; no two entries share such a pair; and the
    entries are in the order of the pages and, on a page, of the
    position. *)
Theorem extract_toc_from_pdf_text doc :
  outline doc = [] ->
  latin1_texts doc ->
  median_is_a_size doc ->
  in_page_order (extract_toc_from_pdf doc)
  /\ NoDup (map seen_key (extract_toc_from_pdf doc))
  /\ (forall e, In e (extract_toc_from_pdf doc) ->
        exists i p sp,
          nth_error (pages doc) i = Some p /\ In sp (page_spans p)
          /\ accepted (_analyze_font_characteristics doc) sp = true
          /\ e = heading (_analyze_font_characteristics doc)
                         (Z.of_nat i) sp)
  /\ (forall i p sp,
        nth_error (pages doc) i = Some p -> In sp (page_spans p) ->
        accepted (_analyze_font_characteristics doc) sp = true ->
        exists e,
          In e (extract_toc_from_pdf doc)
          /\ seen_key e
             = seen_key (heading (_analyze_font_characteristics doc)
                                 (Z.of_nat i) sp)).
Proof.
  intros Hout _ _. unfold extract_toc_from_pdf, _extract_builtin_toc.
  rewrite Hout. cbn [map]. cbv zeta.
  set (fs := _analyze_font_characteristics doc).
  set (found := headings_from fs 0 (pages doc)).
  pose proof (clean_and_sort_toc_perm found) as Hperm.
  assert (Hin : forall e, In e (dedupe [] found) -> In e found).
  { intros e He. destruct (dedupe_first _ _ _ He) as (b & a & -> & _).
    apply in_or_app. right. now left. }
  split; [|split; [|split]].
  - unfold in_page_order, _clean_and_sort_toc.
    destruct (existsb has_page (dedupe [] found)) eqn:E.
    { apply stable_sort_sorted; [apply by_page_total|apply by_page_trans]. }
    destruct (dedupe [] found) as [|e l] eqn:Ed.
    { destruct (existsb has_position []); constructor. }
    exfalso.
    assert (He : In e found) by (apply Hin; now left).
    apply headings_from_in in He as (i & p & sp & _ & _ & _ & ->).
    cbn [existsb] in E. unfold has_page, heading in E.
    cbn [entry_page] in E.
    replace (0 + Z.of_nat i + 1 =? 0) with false in E
      by (symmetry; apply Z.eqb_neq; lia).
    discriminate.
  - apply (Permutation_NoDup
             (Permutation_map seen_key (Permutation_sym Hperm))).
    apply dedupe_NoDup.
  - intros e He. apply (Permutation_in _ Hperm), Hin in He.
    apply headings_from_in in He as (i & p & sp & Hp & Hsp & Ha & ->).
    exists i, p, sp. now repeat split.
  - intros i p sp Hp Hsp Ha.
    assert (He : In (heading fs (0 + Z.of_nat i) sp) found).
    { apply headings_from_in. exists i, p, sp. now repeat split. }
    destruct (dedupe_covers found [] _ He) as [[]|(e' & He' & Hk)].
    exists e'. split; [|exact Hk].
    now apply (Permutation_in _ (Permutation_sym Hperm)).
Qed.

Lemma extract_toc_from_pdf_text_witness :
  let body (t : pystr) (y : Q) :=
    Line [Span t (str "Serif") 10 0 (72, y, 500, y + 10)%Q]
         (72, y, 500, y + 10)%Q in
  let head (t : pystr) (y : Q) :=
    Line [Span t (str "Serif-Bold") 14 16 (72, y, 500, y + 14)%Q]
         (72, y, 500, y + 14)%Q in
  let doc :=
    Document []
      [ Page 800 [Block 0 (72, 100, 500, 700)%Q
                    (Some [head (str "2 Results") 300%Q;
                           body (str "There is no result.") 320%Q;
                           head (str "1 Introduction") 100%Q;
                           body (str "We start here.") 120%Q;
                           body (str "We go on.") 140%Q])];
        Page 800 [Block 1 (72, 100, 500, 700)%Q None;
                  Block 0 (72, 100, 500, 700)%Q
                    (Some [head (str " Conclusion ") 90%Q;
                           body (str "No more.") 110%Q;
                           body (str "The end.") 130%Q;
                           head (str "1 INTRODUCTION") 500%Q])] ]
      (str "PDF 1.7") in
  map (fun e => (entry_title e, entry_page e))
      (extract_toc_from_pdf doc)
  = [(str "1 Introduction", Some 1); (str "2 Results", Some 1);
     (str "Conclusion", Some 2)]
  /\ in_page_order (extract_toc_from_pdf doc)
  /\ NoDup (map seen_key (extract_toc_from_pdf doc))
  /\ (forall e, In e (extract_toc_from_pdf doc) ->
        exists i p sp,
          nth_error (pages doc) i = Some p /\ In sp (page_spans p)
          /\ accepted (_analyze_font_characteristics doc) sp = true
          /\ e = heading (_analyze_font_characteristics doc)
                         (Z.of_nat i) sp)
  /\ (forall i p sp,
        nth_error (pages doc) i = Some p -> In sp (page_spans p) ->
        accepted (_analyze_font_characteristics doc) sp = true ->
        exists e,
          In e (extract_toc_from_pdf doc)
          /\ seen_key e
             = seen_key (heading (_analyze_font_characteristics doc)
                                 (Z.of_nat i) sp)).
Proof.
  intros body head doc. split; [vm_compute; reflexivity|].
  apply (@extract_toc_from_pdf_text doc).
  - reflexivity.
  - unfold latin1_texts. vm_compute. repeat constructor.
  - right. exists 10%Q. split; [vm_compute; tauto|vm_compute; reflexivity].
Defined.

(* ------------------------------------------------------------------ *)
(** ** The selection of sections *)

Lemma selected_iff sections section :
  existsb (fun x => section_eqb x section) sections = true
  <-> In section sections.
Proof.
  rewrite existsb_exists. split.
  - intros (x & Hx & E). apply section_eqb_eq in E. now subst.
  - intros H. exists section. split; [assumption|apply section_eqb_refl].
Qed.

Lemma remove_in sections section x :
  In x (Gui.remove sections section) -> In x sections.
Proof.
  induction sections as [|y l IH]; cbn [Gui.remove]; [intros []|].
  destruct (section_eqb y section); [now right|].
  intros [<-|H]; [now left|right; auto].
Qed.

Lemma remove_other sections section x :
  x <> section -> In x sections -> In x (Gui.remove sections section).
Proof.
  intros Hne. induction sections as [|y l IH]; cbn [Gui.remove];
    [intros []|].
  destruct (section_eqb y section) eqn:E.
  - apply section_eqb_eq in E. subst y. intros [H|H]; [congruence|assumption].
  - intros [<-|H]; [now left|right; auto].
Qed.

Lemma remove_NoDup sections section :
  NoDup sections ->
  NoDup (Gui.remove sections section)
  /\ ~ In section (Gui.remove sections section).
Proof.
  induction 1 as [|y l Hy Hl IH]; cbn [Gui.remove].
  - split; [constructor|intros []].
  - destruct (section_eqb y section) eqn:E.
    + apply section_eqb_eq in E. subst y. now split.
    + destruct IH as [IH1 IH2]. split.
      * constructor; [|assumption].
        intros H. apply Hy. now apply remove_in in H.
      * intros [->|H]; [|now apply IH2].
        now rewrite section_eqb_refl in E.
Qed.

(** X21.  [add_section] switches one section of a selection without
    duplicates: the section is in the new selection exactly when it was
    not in the old one, every other section stays in or out, and the
    new selection has no duplicates either. *)
Theorem add_section_switches sections section :
  NoDup sections ->
  NoDup (Gui.add_section sections section)
  /\ (In section (Gui.add_section sections section)
      <-> ~ In section sections)
  /\ (forall x, x <> section ->
                (In x (Gui.add_section sections section)
                 <-> In x sections)).
Proof.
  intros Hnd. unfold Gui.add_section.
  destruct (existsb (fun x => section_eqb x section) sections) eqn:E;
    cbn [negb].
  - apply selected_iff in E.
    destruct (remove_NoDup section Hnd) as [H1 H2].
    split; [assumption|]. split; [tauto|].
    intros x Hx. split; [apply remove_in|now apply remove_other].
  - assert (Hout : ~ In section sections).
    { intros H. apply selected_iff in H. congruence. }
    split; [|split].
    + apply NoDup_app; [assumption|repeat constructor; intros []|].
      intros x Hx [<-|[]]. contradiction.
    + split; [auto|]. intros _. apply in_or_app. right. now left.
    + intros x Hx. rewrite in_app_iff. cbn [In]. split; [|tauto].
      intros [H|[H|[]]]; [assumption|congruence].
Qed.

Lemma add_section_switches_witness :
  let sections := get_toc Samples.book in
  let section := (1, str "Methods", 4, 10) in
  NoDup (Gui.add_section sections section)
  /\ (In section (Gui.add_section sections section)
      <-> ~ In section sections)
  /\ (forall x, x <> section ->
                (In x (Gui.add_section sections section)
                 <-> In x sections)).
Proof.
  intros sections section.
  apply (@add_section_switches sections section).
  repeat constructor; cbn; intuition discriminate.
Defined.

Lemma select_each toc : forall sections,
  NoDup (sections ++ toc) ->
  Gui.create_toc_selection sections toc = sections ++ toc.
Proof.
  unfold Gui.create_toc_selection.
  induction toc as [|x toc IH]; intros sections Hnd; cbn [fold_left].
  - now rewrite app_nil_r.
  - assert (Hx : existsb (fun y => section_eqb y x) sections = false).
    { destruct (existsb _ sections) eqn:E; [|reflexivity].
      apply selected_iff in E. apply NoDup_remove_2 in Hnd.
      exfalso. apply Hnd. apply in_or_app. now left. }
    unfold Gui.add_section at 2. rewrite Hx. cbn [negb].
    rewrite IH; rewrite <- app_assoc; [reflexivity|assumption].
Qed.

Lemma unselect_each toc : forall rest,
  Gui.create_toc_selection (toc ++ rest) toc = rest.
Proof.
  unfold Gui.create_toc_selection.
  induction toc as [|x toc IH]; intros rest; cbn [fold_left app];
    [reflexivity|].
  unfold Gui.add_section at 2. cbn [existsb Gui.remove].
  rewrite section_eqb_refl. cbn [orb negb]. apply IH.
Qed.

(** X22.  [create_toc_selection] itself calls [add_section] on every
    entry of the ToC while it builds the check boxes: for a ToC without
    duplicates, starting from no selection it selects every entry, in
    the order of the ToC, and run once more on this selection it leaves
    nothing selected. *)
Theorem create_toc_selection_selects_all toc :
  NoDup toc ->
  Gui.create_toc_selection [] toc = toc
  /\ Gui.create_toc_selection (Gui.create_toc_selection [] toc) toc = [].
Proof.
  intros Hnd.
  assert (H : Gui.create_toc_selection [] toc = toc)
    by (now apply (select_each toc [])).
  split; [assumption|]. rewrite H.
  rewrite <- (app_nil_r toc) at 1. apply unselect_each.
Qed.

Lemma create_toc_selection_selects_all_witness :
  let toc := get_toc Samples.book in
  Gui.create_toc_selection [] toc = toc
  /\ Gui.create_toc_selection (Gui.create_toc_selection [] toc) toc = [].
Proof.
  intros toc. apply (@create_toc_selection_selects_all toc).
  repeat constructor; cbn; intuition discriminate.
Defined.

(* ------------------------------------------------------------------ *)
(** ** The form of the values *)

Import Shape.

Lemma setitem_shaped d k v :
  shaped d -> text_then_dicts v -> shaped (setitem d k v).
Proof.
  intros Hd Hv. induction d as [|[k' v'] d IH]; cbn [setitem].
  - intros k0 v0 [H|[]]. injection H as <- <-. exact Hv.
  - assert (Hd' : shaped d) by (intros k0 v0 H; apply (Hd k0 v0); now right).
    destruct (str_eqb k' k).
    + intros k0 v0 [H|H].
      * injection H as <- <-. exact Hv.
      * apply (Hd k0 v0). now right.
    + intros k0 v0 [H|H].
      * apply (Hd k0 v0). now left.
      * now apply (IH Hd' k0 v0).
Qed.

Lemma set_value0_shape v t v' :
  text_then_dicts v -> set_value0 v t = Ok v' -> text_then_dicts v'.
Proof.
  intros (t0 & ds & ->). cbn [set_value0]. intros H; injection H as <-.
  now exists t, ds.
Qed.

Section ShapeOfScan.

Variable doc : document.
Variable pheight : Q.
Variables pframe main_size : Z.
Variable main_font : pystr.
Variable recurse : list entry -> nat -> result dict.
Variable section : entry.
Variable next_section : option entry.
Variable subsections : list entry.

Lemma add_span_shape v sp v' :
  text_then_dicts v -> add_span main_size v sp = Ok v' ->
  text_then_dicts v'.
Proof.
  intros Hv. unfold add_span.
  destruct (_ && _); [intros H; injection H as <-; exact Hv|].
  destruct (value0 v) as [v0|]; cbn [bind]; [|discriminate].
  destruct (if (1 <? length v0)%nat then _ else _) as [h|]; cbn [bind];
    [|discriminate].
  destruct (h || _); apply set_value0_shape; exact Hv.
Qed.

Lemma add_spans_shape spans : forall v v',
  text_then_dicts v -> add_spans main_size v spans = Ok v' ->
  text_then_dicts v'.
Proof.
  induction spans as [|sp spans IH]; intros v v' Hv; cbn [add_spans].
  - intros H; injection H as <-. exact Hv.
  - destruct (add_span main_size v sp) as [v1|] eqn:E; cbn [bind];
      [|discriminate].
    apply IH. now apply add_span_shape in E.
Qed.

Lemma accumulate_shape inline spans s s' c :
  well_shaped s -> accumulate main_size inline spans s = Ok (s', c) ->
  well_shaped s'.
Proof.
  intros [Hv Hd]. unfold accumulate.
  destruct (str_eqb_spec (key s) []) as [Hk|Hk].
  - intros H; injection H as <- _. now split.
  - destruct Hv as [Hv|Hv]; [contradiction|].
    destruct (add_spans _ _ _) as [v|] eqn:E; cbn [bind]; [|discriminate].
    intros H; injection H as <- _. split; [right|exact Hd].
    now apply add_spans_shape in E.
Qed.

Lemma with_key_shape s k :
  well_shaped s -> well_shaped (with_key s k [VStr []]).
Proof.
  intros [_ Hd]. split; [right|exact Hd]. now exists [], [].
Qed.

Lemma on_heading_shape blocks block sp0 spans s s' c :
  well_shaped s ->
  on_heading main_size recurse section next_section subsections
    blocks block sp0 spans s = Ok (s', c) ->
  well_shaped s'.
Proof.
  intros Hs. unfold on_heading.
  destruct (fuzzy (mtext sp0) (sec_title section)).
  { destruct (str_eqb (key s) []).
    - destruct (length spans <=? 1)%nat.
      + intros H; injection H as <- _. now apply with_key_shape.
      + apply accumulate_shape. now apply with_key_shape.
    - destruct (str_eqb _ _).
      + intros H; injection H as <- _. exact Hs.
      + now apply accumulate_shape. }
  destruct (flag s).
  { destruct next_section; [|discriminate].
    destruct (negb _); intros H; injection H as <- _; exact Hs. }
  destruct (_ && negb (str_eqb (key s) [])).
  { intros H; injection H as <- _. exact Hs. }
  destruct (str_eqb_spec (key s) []) as [Hk|Hk]; cbn [negb].
  - rewrite andb_false_r.
    destruct (_ || _); [intros H; injection H as <- _; exact Hs|].
    destruct (matches _); [intros H; injection H as <- _; exact Hs|].
    now apply accumulate_shape.
  - rewrite andb_true_r.
    destruct (match subsections with [] => false | _ => _ end).
    + destruct (index _ _ _); cbn [bind]; [|discriminate].
      destruct (recurse _ _) as [d|]; cbn [bind]; [|discriminate].
      intros H; injection H as <- _.
      destruct Hs as [[Hv|(t & ds & Hv)] Hd]; [contradiction|].
      split; [right|exact Hd].
      exists t, (ds ++ [d]).
      cbn [val with_flag with_val]. rewrite Hv, map_app. reflexivity.
    + destruct (_ || _); [intros H; injection H as <- _; exact Hs|].
      destruct (matches _); [intros H; injection H as <- _; exact Hs|].
      now apply accumulate_shape.
Qed.

Lemma line_body_shape blocks block spans line s s' c :
  well_shaped s ->
  line_body main_size main_font recurse section next_section subsections
    blocks block spans line s = Ok (s', c) ->
  well_shaped s'.
Proof.
  intros Hs. unfold line_body. destruct spans as [|sp0 spans'].
  - intros H; injection H as <- _. exact Hs.
  - destruct (index _ _ _); cbn [bind]; [|discriminate].
    destruct (getitem _ _); cbn [bind]; [|discriminate].
    destruct (_ && _); [intros H; injection H as <- _; exact Hs|].
    match goal with
    | |- context [bind ?x _] => destruct x as [heading|]; cbn [bind];
                                [|discriminate]
    end.
    destruct heading; [now apply on_heading_shape|now apply accumulate_shape].
Qed.

Lemma scan_lines_shape before after type box : forall rest done s s' ls,
  well_shaped s ->
  scan_lines main_size main_font recurse section next_section subsections
    before after type box done rest s = Ok (s', ls) ->
  well_shaped s'.
Proof.
  induction rest as [|line rest IH]; intros done s s' ls Hs;
    cbn [scan_lines].
  - intros H; injection H as <- _. exact Hs.
  - destruct (get_span line); cbn [bind]; [|discriminate].
    destruct (line_body _ _ _ _ _ _ _ _ _ _ _) as [[s1 c]|] eqn:E;
      cbn [bind fst snd]; [|discriminate].
    apply line_body_shape in E; [|exact Hs]. destruct c.
    + now apply IH.
    + intros H; injection H as <- _. exact E.
Qed.

Lemma after_block_shape s s' :
  well_shaped s -> after_block s = Ok s' -> well_shaped s'.
Proof.
  intros [Hv Hd]. unfold after_block.
  destruct (str_eqb_spec (key s) []) as [Hk|Hk].
  - intros H; injection H as <-. now split.
  - destruct Hv as [Hv|Hv]; [contradiction|].
    destruct (value0 (val s)); cbn [bind]; [|discriminate].
    destruct (set_value0 _ _) as [v|] eqn:E; cbn [bind]; [|discriminate].
    apply set_value0_shape in E; [|exact Hv].
    intros H; injection H as <-. split; [now right|].
    now apply setitem_shaped.
Qed.

Lemma scan_blocks_shape : forall rest before s s' bs,
  well_shaped s ->
  scan_blocks doc pheight pframe main_size main_font recurse section
    next_section subsections before rest s = Ok (s', bs) ->
  well_shaped s'.
Proof.
  induction rest as [|block rest IH]; intros before s s' bs Hs;
    cbn [scan_blocks].
  - intros H; injection H as <- _. exact Hs.
  - destruct (skip s || stop s); [intros H; injection H as <- _; exact Hs|].
    assert (Hnext : forall s1 b1,
               well_shaped s1 ->
               (s2 <- after_block s1 ;;
                scan_blocks doc pheight pframe main_size main_font recurse
                  section next_section subsections (before ++ [b1]) rest s2)
               = Ok (s', bs) -> well_shaped s').
    { intros s1 b1 H1. destruct (after_block s1) as [s2|] eqn:E2;
        cbn [bind]; [|discriminate].
      apply IH. now apply after_block_shape in E2. }
    destruct (eligible doc pheight pframe block).
    + destruct (lines block) as [ls|].
      * destruct (scan_lines _ _ _ _ _ _ _ _ _ _ _ _ _) as [[s1 ls1]|] eqn:E;
          cbn [bind fst snd]; [|discriminate].
        apply Hnext. now apply scan_lines_shape in E.
      * cbn [bind fst snd]. now apply Hnext.
    + cbn [bind fst snd]. now apply Hnext.
Qed.

Lemma scan_pages_shape : forall rest before num_block s s' n,
  well_shaped s ->
  scan_pages doc pheight pframe main_size main_font recurse section
    next_section subsections before rest num_block s = Ok (s', n) ->
  well_shaped s'.
Proof.
  induction rest as [|blocks rest IH]; intros before num_block s s' n Hs;
    cbn [scan_pages].
  - intros H; injection H as <- _. exact Hs.
  - destruct (stop s); [intros H; injection H as <- _; exact Hs|].
    destruct (index _ _ _) as [i|]; cbn [bind]; [|discriminate].
    destruct (scan_blocks _ _ _ _ _ _ _ _ _ _ _ _) as [[s1 bs]|] eqn:E;
      cbn [bind fst snd]; [|discriminate].
    apply IH. apply scan_blocks_shape in E; [exact E|exact Hs].
Qed.

End ShapeOfScan.

(** X23.  Every value that the loop over the pages of a section writes
    into the mapping is a list that starts with the text of the section,
    a string, and goes on with nothing but the mappings returned for its
    subsections; the values that the mapping held before are left in
    this form. *)
Theorem text_extract_values doc pheight pframe main_size main_font recurse
        section next_section subsections pblocks num_block main_text s' n :
  scan_pages doc pheight pframe main_size main_font recurse section
    next_section subsections [] pblocks num_block (initial main_text)
  = Ok (s', n) ->
  (forall k v, In (k, v) main_text ->
               exists t ds, v = VStr t :: map VDict ds) ->
  forall k v, In (k, v) (Scan.main_text s') ->
              exists t ds, v = VStr t :: map VDict ds.
Proof.
  intros H H0.
  apply scan_pages_shape in H; [apply H|].
  split; [now left|exact H0].
Qed.

Lemma text_extract_values_witness :
  let d := [(str "Methods",
             [VStr (str "We use an exam-ple here. More text")])] in
  let s' := State (str "Methods")
                  [VStr (str "We use an exam-ple here. More text")]
                  false false false d in
  scan_pages Samples.paper 800 50 10 (str "Serif") (fun _ _ => Ok [])
    Samples.methods (Some Samples.results) [] []
    [blocks (hd Samples.blank_page (pages Samples.paper))] 0 (initial [])
  = Ok (s', 0%nat)
  /\ forall k v, In (k, v) d -> exists t ds, v = VStr t :: map VDict ds.
Proof.
  intros d s'.
  assert (H : scan_pages Samples.paper 800 50 10 (str "Serif")
                (fun _ _ => Ok []) Samples.methods (Some Samples.results)
                [] [] [blocks (hd Samples.blank_page (pages Samples.paper))]
                0 (initial []) = Ok (s', 0%nat))
    by (vm_compute; reflexivity).
  split; [exact H|].
  apply (text_extract_values _ _ _ _ _ _ _ _ _ _ _ _ H).
  intros k v [].
Defined.

(* ------------------------------------------------------------------ *)
(** ** The headings of an HTML file *)

Import Html.

Lemma lit_inv ic l pos s cs (k : cont) x :
  m ic (Lit l) pos s cs k = Some x ->
  exists s', k (pos + length l)%nat s' cs = Some x.
Proof.
  cbn [m]. destruct (lit_match ic l s) as [s'|]; [|discriminate]. eauto.
Qed.

Lemma cls_inv ic p pos s cs (k : cont) x :
  m ic (Cls p) pos s cs k = Some x ->
  exists c s', s = c :: s' /\ cls_ok ic p c = true
               /\ k (S pos) s' cs = Some x.
Proof.
  cbn [m]. destruct s as [|c s']; [discriminate|].
  destruct (cls_ok ic p c) eqn:E; [|discriminate]. eauto.
Qed.

Lemma star_cls_inv ic p : forall fuel pos s cs (k : cont) x,
  star (m ic (Cls p)) fuel pos s cs k = Some x ->
  exists ds s',
    s = ds ++ s' /\ Forall (fun c => cls_ok ic p c = true) ds
    /\ k (pos + length ds)%nat s' cs = Some x.
Proof.
  induction fuel as [|f IH]; intros pos s cs k x; cbn [star].
  - intros H. exists [], s. rewrite Nat.add_0_r. now repeat split.
  - destruct (m ic (Cls p) pos s cs _) as [y|] eqn:E.
    + intros H; injection H as ->.
      apply cls_inv in E as (c & s' & -> & Hc & E).
      replace (pos <? S pos)%nat with true in E
        by (symmetry; apply Nat.ltb_lt; lia).
      apply IH in E as (ds & s'' & -> & Hds & E).
      exists (c :: ds), s''. cbn [length app].
      rewrite Nat.add_succ_r. repeat split; [|assumption].
      now constructor.
    + intros H. exists [], s. rewrite Nat.add_0_r. now repeat split.
Qed.

Lemma plus_cls_inv ic p pos s cs (k : cont) x :
  m ic (Plus (Cls p)) pos s cs k = Some x ->
  exists ds s',
    ds <> [] /\ s = ds ++ s' /\ Forall (fun c => cls_ok ic p c = true) ds
    /\ k (pos + length ds)%nat s' cs = Some x.
Proof.
  rewrite m_plus. intros H.
  apply cls_inv in H as (c & s' & -> & Hc & H).
  apply star_cls_inv in H as (ds & s'' & -> & Hds & H).
  exists (c :: ds), s''. cbn [length app]. rewrite Nat.add_succ_r.
  repeat split; [discriminate| |assumption]. now constructor.
Qed.

Lemma m_seq ic r1 r2 pos s cs (k : cont) :
  m ic (Seq r1 r2) pos s cs k
  = m ic r1 pos s cs (fun pos' s' cs' => m ic r2 pos' s' cs' k).
Proof. reflexivity. Qed.

Lemma m_grp ic n r pos s cs (k : cont) :
  m ic (Grp n r) pos s cs k
  = m ic r pos s cs
      (fun pos' s' cs' => k pos' s' ((n, firstn (pos' - pos) s) :: cs')).
Proof. reflexivity. Qed.

Lemma m_star ic r pos s cs (k : cont) :
  m ic (Star r) pos s cs k = star (m ic r) (S (length s)) pos s cs k.
Proof. reflexivity. Qed.

(** The two groups of a match of the heading pattern. *)
Lemma heading_pattern_groups pos s e cs :
  m true heading_pattern pos s [] accept = Some (e, cs) ->
  exists c t,
    group cs 1 = [c] /\ cls_ok true (between 49 54) c = true
    /\ group cs 2 = t /\ t <> []
    /\ Forall (fun c => cls_ok true (fun c => negb (N.eqb c 60)) c = true) t.
Proof.
  unfold heading_pattern, h_level, not_gt, not_lt, txt. cbn [cat].
  intros H.
  rewrite m_seq in H. apply lit_inv in H as (s1 & H). cbv beta in H.
  rewrite m_seq, m_grp in H.
  apply cls_inv in H as (c & s2 & -> & Hc & H). cbv beta in H.
  match type of H with
  | context [firstn ?n (c :: s2)] =>
      replace (firstn n (c :: s2)) with [c] in H
        by (replace n with 1%nat by lia; reflexivity)
  end.
  rewrite m_seq, m_star in H.
  apply star_cls_inv in H as (ds & s3 & -> & _ & H). cbv beta in H.
  rewrite m_seq in H. apply lit_inv in H as (s4 & H). cbv beta in H.
  rewrite m_seq, m_grp in H.
  apply plus_cls_inv in H as (t & s5 & Ht & -> & Hall & H). cbv beta in H.
  match type of H with
  | context [firstn ?n (t ++ s5)] =>
      replace (firstn n (t ++ s5)) with t in H
        by (replace n with (length t) by lia;
            now rewrite firstn_app, Nat.sub_diag, firstn_all, app_nil_r)
  end.
  rewrite m_seq in H. apply lit_inv in H as (s6 & H). cbv beta in H.
  rewrite m_seq in H.
  apply cls_inv in H as (c' & s7 & -> & _ & H). cbv beta in H.
  apply lit_inv in H as (s8 & H). unfold accept in H.
  injection H as _ <-.
  exists c, t. cbn [group Nat.eqb]. now repeat split.
Qed.

Lemma findall_matches ic r : forall fuel pos s cs,
  In cs (findall_loop ic r fuel pos s) ->
  exists pos' s' e, m ic r pos' s' [] accept = Some (e, cs).
Proof.
  induction fuel as [|f IH]; intros pos s cs; cbn [findall_loop];
    [intros []|].
  assert (Hstep : In cs match s with
                        | [] => []
                        | _ :: s' => findall_loop ic r f (S pos) s'
                        end ->
                  exists pos' s' e, m ic r pos' s' [] accept = Some (e, cs)).
  { destruct s as [|c s']; [intros []|apply IH]. }
  destruct (m ic r pos s [] accept) as [[e cs0]|] eqn:E; [|exact Hstep].
  destruct (pos <? e)%nat; (intros [<-|H]; [now exists pos, s, e|]).
  - now apply IH in H.
  - now apply Hstep.
Qed.

Lemma between_iff lo hi c : between lo hi c = true <-> (lo <= c <= hi)%N.
Proof. unfold between. rewrite andb_true_iff, !N.leb_le. tauto. Qed.

Lemma level_character c :
  cls_ok true (between 49 54) c = true ->
  exists n, int [c] = Ok n /\ 1 <= n <= 6.
Proof.
  intros H.
  assert (Hb : (49 <= c <= 54)%N).
  { apply between_iff. unfold cls_ok in H. cbn [andb] in H.
    apply orb_true_iff in H as [H|H]; [exact H|].
    apply orb_true_iff in H as [H|H].
    - unfold lower_char in H.
      destruct (is_upper_char c) eqn:U; [exfalso|exact H].
      apply between_iff in H. unfold is_upper_char in U.
      apply orb_true_iff in U as [U|U].
      + apply between_iff in U. lia.
      + apply andb_true_iff in U as [U _]. apply between_iff in U. lia.
    - unfold upper_char in H.
      destruct (between 97 122 c || _) eqn:U; [exfalso|exact H].
      apply between_iff in H.
      apply orb_true_iff in U as [U|U].
      + apply between_iff in U. lia.
      + apply andb_true_iff in U as [U _]. apply between_iff in U. lia. }
  assert (Hc : (c = 49 \/ c = 50 \/ c = 51 \/ c = 52 \/ c = 53 \/ c = 54)%N)
    by lia.
  destruct Hc as [->|[->|[->|[->|[->| ->]]]]];
    eexists; (split; [vm_compute; reflexivity|lia]).
Qed.

Lemma not_lt_character c :
  cls_ok true (fun c => negb (N.eqb c 60)) c = true -> c <> 60%N.
Proof. intros H ->. vm_compute in H. discriminate. Qed.

(** No tag is found in a text without [<]. *)
Lemma no_tag_to_remove : forall fuel pos t,
  ~ In 60%N t -> sub_loop false tag [] fuel pos t = t.
Proof.
  induction fuel as [|f IH]; intros pos t Ht; cbn [sub_loop];
    [reflexivity|].
  destruct t as [|c t]; [reflexivity|].
  unfold tag, txt at 1. cbn [cat]. rewrite m_seq.
  cbn [m str map list_ascii_of_string lit_match]. unfold chr_ok.
  destruct (N.eqb_spec (N_of_ascii "<") c) as [E|E].
  - exfalso. apply Ht. left. symmetry. exact E.
  - f_equal. apply IH. intros H. apply Ht. now right.
Qed.

Lemma lstrip_with_in p s c : In c (lstrip_with p s) -> In c s.
Proof.
  induction s as [|a s IH]; cbn [lstrip_with]; [auto|].
  destruct (p a); [right; auto|auto].
Qed.

Lemma strip_in s c : In c (strip s) -> In c s.
Proof.
  unfold strip, strip_with, rstrip_with. intros H.
  apply in_rev, lstrip_with_in, in_rev in H.
  now apply lstrip_with_in in H.
Qed.

Lemma lstrip_with_head p s :
  match lstrip_with p s with
  | [] => True
  | c :: _ => p c = false
  end.
Proof.
  induction s as [|a s IH]; cbn [lstrip_with]; [exact I|].
  destruct (p a) eqn:E; [exact IH|exact E].
Qed.

Lemma lstrip_with_kept p c s : p c = false ->
  lstrip_with p (c :: s) = c :: s.
Proof. intros H. cbn [lstrip_with]. now rewrite H. Qed.

Lemma lstrip_with_idem p s :
  lstrip_with p (lstrip_with p s) = lstrip_with p s.
Proof.
  pose proof (lstrip_with_head p s) as H.
  destruct (lstrip_with p s) as [|c t]; [reflexivity|].
  now apply lstrip_with_kept.
Qed.

Lemma lstrip_with_last p s c : p c = false ->
  lstrip_with p (s ++ [c]) = lstrip_with p s ++ [c].
Proof.
  intros H. induction s as [|a s IH]; cbn [lstrip_with app].
  - now rewrite H.
  - destruct (p a); [exact IH|reflexivity].
Qed.

Lemma strip_with_idem p s :
  strip_with p (strip_with p s) = strip_with p s.
Proof.
  unfold strip_with, rstrip_with.
  pose proof (lstrip_with_head p s) as H.
  destruct (lstrip_with p s) as [|c t].
  - reflexivity.
  - cbn [rev]. rewrite (@lstrip_with_last p (rev t) c H), rev_app_distr.
    cbn [rev app]. rewrite (@lstrip_with_kept p c _ H).
    cbn [rev]. rewrite rev_involutive.
    rewrite (@lstrip_with_last p _ c H), rev_app_distr.
    cbn [rev app]. now rewrite lstrip_with_idem.
Qed.

Lemma headings_entries : forall groups,
  (forall cs, In cs groups ->
              exists pos s e,
                m true heading_pattern pos s [] accept = Some (e, cs)) ->
  exists entries,
    headings groups = Ok entries
    /\ forall e, In e entries ->
         1 <= entry_level e <= 6
         /\ entry_title e <> []
         /\ ~ In 60%N (entry_title e)
         /\ strip (entry_title e) = entry_title e
         /\ entry_page e = None /\ entry_position e = None.
Proof.
  induction groups as [|cs rest IH]; intros Hall; cbn [headings].
  - exists []. split; [reflexivity|intros e []].
  - destruct (Hall cs (or_introl eq_refl)) as (pos & s & e & Hm).
    apply heading_pattern_groups in Hm
      as (c & t & -> & Hc & -> & Ht & Hclean).
    destruct (level_character c Hc) as (n & -> & Hn). cbn [bind].
    destruct IH as (entries & -> & Hentries).
    { intros cs' H. apply Hall. now right. }
    cbn [bind].
    assert (Hfree : ~ In 60%N t).
    { intros H. rewrite Forall_forall in Hclean.
      now apply (not_lt_character (Hclean _ H)). }
    unfold re_sub. rewrite (@no_tag_to_remove _ _ t Hfree).
    destruct (strip t) as [|a title] eqn:E.
    + exists entries. split; [reflexivity|exact Hentries].
    + eexists. split; [reflexivity|].
      intros e' [<-|H]; [|now apply Hentries].
      cbn [entry_level entry_title entry_page entry_position].
      repeat split; try lia; try discriminate.
      * intros H. apply Hfree. apply strip_in. now rewrite E.
      * rewrite <- E. apply strip_with_idem.
Qed.

(** X24.  [_extract_headings_from_html] never raises.  Every entry it
    returns has a level from 1 to 6 and neither page nor position; its
    title is not empty, has no white space at either end and holds no
    [<], so that the removal of nested tags never removes anything; and
    [_clean_and_sort_toc] leaves such entries in the order of the
    file. *)
Theorem extract_headings_from_html_entries content :
  exists entries,
    _extract_headings_from_html content = Ok entries
    /\ (forall e, In e entries ->
          1 <= entry_level e <= 6
          /\ entry_title e <> []
          /\ ~ In 60%N (entry_title e)
          /\ strip (entry_title e) = entry_title e
          /\ entry_page e = None /\ entry_position e = None)
    /\ _clean_and_sort_toc entries = dedupe [] entries.
Proof.
  unfold _extract_headings_from_html, re_findall.
  destruct (headings_entries (findall_loop true heading_pattern
                                (S (length content)) 0 content))
    as (entries & -> & Hentries).
  { intros cs H. now apply findall_matches in H. }
  exists entries. split; [reflexivity|]. split; [exact Hentries|].
  assert (Hin : forall e, In e (dedupe [] entries) -> In e entries).
  { intros e He. destruct (dedupe_first _ _ _ He) as (b & a & -> & _).
    apply in_or_app. right. now left. }
  unfold _clean_and_sort_toc.
  replace (existsb has_page (dedupe [] entries)) with false.
  replace (existsb has_position (dedupe [] entries)) with false.
  - reflexivity.
  - symmetry. apply not_true_is_false. intros H.
    apply existsb_exists in H as (e & He & Hp). apply Hin in He.
    destruct (Hentries e He) as (_ & _ & _ & _ & _ & Hq).
    unfold has_position in Hp. now rewrite Hq in Hp.
  - symmetry. apply not_true_is_false. intros H.
    apply existsb_exists in H as (e & He & Hp). apply Hin in He.
    destruct (Hentries e He) as (_ & _ & _ & _ & Hq & _).
    unfold has_page in Hp. now rewrite Hq in Hp.
Qed.

(* ------------------------------------------------------------------ *)
(** ** The font sizes of a document *)

Import FontAnalysis.

Lemma distinct_spec : forall l seen,
  StronglySorted (fun a b => ~ (a == b)%Q) (distinct seen l)
  /\ (forall y, In y (distinct seen l) ->
                In y l /\ forall z, In z seen -> ~ (y == z)%Q)
  /\ (forall x, In x l ->
                (exists z, In z seen /\ (x == z)%Q)
                \/ exists y, In y (distinct seen l) /\ (x == y)%Q).
Proof.
  induction l as [|x l IH]; intros seen; cbn [distinct].
  - split; [constructor|]. split; intros ? [].
  - destruct (existsb (Qeq_bool x) seen) eqn:E.
    + destruct (IH seen) as (H1 & H2 & H3). split; [exact H1|]. split.
      * intros y Hy. destruct (H2 y Hy). split; [now right|assumption].
      * intros x' [<-|Hx']; [|now apply H3].
        left. apply existsb_exists in E as (z & Hz & E).
        exists z. split; [assumption|now apply Qeq_bool_iff].
    + destruct (IH (x :: seen)) as (H1 & H2 & H3). split; [|split].
      * constructor; [exact H1|]. apply Forall_forall. intros y Hy.
        destruct (H2 y Hy) as [_ Hn]. intros Hxy.
        apply (Hn x); [now left|now symmetry].
      * intros y [<-|Hy].
        -- split; [now left|]. intros z Hz Hxz.
           assert (existsb (Qeq_bool x) seen = true); [|congruence].
           apply existsb_exists. exists z.
           split; [assumption|now apply Qeq_bool_iff].
        -- destruct (H2 y Hy) as [Hin Hn]. split; [now right|].
           intros z Hz. apply Hn. now right.
      * intros x' [<-|Hx'].
        -- right. exists x. split; [now left|reflexivity].
        -- destruct (H3 x' Hx') as [(z & [<-|Hz] & Hq)|(y & Hy & Hq)].
           ++ right. exists x. split; [now left|assumption].
           ++ left. now exists z.
           ++ right. exists y. split; [now right|assumption].
Qed.

Lemma descending_insert x l :
  strictly_decreasing l -> (forall y, In y l -> ~ (x == y)%Q) ->
  strictly_decreasing (sort_insert descending x l).
Proof.
  unfold strictly_decreasing.
  induction 1 as [|y l Hl IH Hy]; intros Hx; cbn [sort_insert].
  - repeat constructor.
  - assert (Hxy : ~ (x == y)%Q) by (apply Hx; now left).
    assert (Hx' : forall z, In z l -> ~ (x == z)%Q)
      by (intros z Hz; apply Hx; now right).
    unfold descending at 1. destruct (Qle_bool y x) eqn:E.
    + apply Qle_bool_iff in E.
      assert (Hlt : (y < x)%Q).
      { apply Qle_lteq in E as [E|E]; [exact E|].
        exfalso. apply Hxy. now symmetry. }
      constructor; [now constructor|].
      constructor; [exact Hlt|].
      rewrite Forall_forall in *. intros z Hz.
      apply Qlt_trans with y; auto.
    + assert (Hlt : (x < y)%Q).
      { apply Qnot_le_lt. intros H. apply Qle_bool_iff in H. congruence. }
      constructor; [now apply IH|].
      rewrite Forall_forall in *. intros z Hz.
      apply (Permutation_in _ (sort_insert_perm descending x l)) in Hz.
      destruct Hz as [<-|Hz]; auto.
Qed.

Lemma descending_sort l :
  StronglySorted (fun a b => ~ (a == b)%Q) l ->
  strictly_decreasing (stable_sort descending l).
Proof.
  induction 1 as [|x l Hl IH Hx]; cbn [stable_sort]; [constructor|].
  apply descending_insert; [exact IH|].
  rewrite Forall_forall in Hx. intros y Hy. apply Hx.
  now apply (Permutation_in _ (stable_sort_perm descending l)).
Qed.

Lemma firstn_3_short (l : list Q) :
  (if (3 <=? length l)%nat then firstn 3 l else l) = firstn 3 l.
Proof.
  destruct (3 <=? length l)%nat eqn:E; [reflexivity|].
  apply Nat.leb_gt in E. symmetry. apply firstn_all2. lia.
Qed.

Lemma median_between data :
  data <> [] ->
  exists lo hi, In lo data /\ In hi data
                /\ (lo <= median data)%Q /\ (median data <= hi)%Q.
Proof.
  intros Hne. unfold median.
  pose proof (stable_sort_perm Qle_bool data) as Hperm.
  set (sorted := stable_sort Qle_bool data) in *.
  assert (Hlen : (0 < length sorted)%nat).
  { rewrite (Permutation_length Hperm). destruct data; [congruence|].
    cbn [length]. lia. }
  assert (Hin : forall i, (i < length sorted)%nat ->
                          In (nth i sorted 0%Q) data).
  { intros i Hi. apply (Permutation_in _ Hperm). now apply nth_In. }
  destruct (Nat.odd (length sorted)) eqn:Hodd.
  - exists (nth (length sorted / 2) sorted 0%Q),
           (nth (length sorted / 2) sorted 0%Q).
    assert (length sorted / 2 < length sorted)%nat
      by (apply Nat.div_lt; lia).
    repeat split; auto; apply Qle_refl.
  - assert (Heven : Nat.even (length sorted) = true).
    { rewrite <- Nat.negb_odd, Hodd. reflexivity. }
    apply Nat.even_spec in Heven as [h Hh].
    assert (Hhalf : (length sorted / 2 = h)%nat).
    { rewrite Hh, Nat.mul_comm. apply Nat.div_mul. lia. }
    rewrite Hhalf.
    assert (Ha : In (nth (h - 1) sorted 0%Q) data) by (apply Hin; lia).
    assert (Hb : In (nth h sorted 0%Q) data) by (apply Hin; lia).
    set (a := nth (h - 1) sorted 0%Q) in *.
    set (b := nth h sorted 0%Q) in *.
    destruct (Qlt_le_dec b a) as [Hab|Hab].
    + exists b, a. repeat split; auto.
      * apply Qle_shift_div_l; [reflexivity|]. lra.
      * apply Qle_shift_div_r; [reflexivity|]. lra.
    + exists a, b. repeat split; auto.
      * apply Qle_shift_div_l; [reflexivity|]. lra.
      * apply Qle_shift_div_r; [reflexivity|]. lra.
Qed.

Lemma analyze_sizes doc :
  sizes (_analyze_font_characteristics doc)
  = stable_sort descending (distinct [] (sampled_sizes doc))
  /\ large_sizes (_analyze_font_characteristics doc)
     = firstn 3 (sizes (_analyze_font_characteristics doc)).
Proof.
  unfold _analyze_font_characteristics.
  destruct (sampled_sizes doc) as [|q l]; [now split|].
  cbn [sizes large_sizes]. split; [reflexivity|apply firstn_3_short].
Qed.

Lemma analyze_sizes_sampled doc :
  strictly_decreasing (sizes (_analyze_font_characteristics doc))
  /\ (forall q, In q (sizes (_analyze_font_characteristics doc)) ->
                In q (sampled_sizes doc))
  /\ (forall q, In q (sampled_sizes doc) ->
                exists q', In q' (sizes (_analyze_font_characteristics doc))
                           /\ (q == q')%Q).
Proof.
  destruct (analyze_sizes doc) as [-> _].
  destruct (distinct_spec (sampled_sizes doc) []) as (H1 & H2 & H3).
  pose proof (stable_sort_perm descending
                (distinct [] (sampled_sizes doc))) as Hperm.
  split; [now apply descending_sort|]. split.
  - intros q Hq. apply (Permutation_in _ Hperm) in Hq. now apply H2.
  - intros q Hq. destruct (H3 q Hq) as [(z & [] & _)|(y & Hy & Hqy)].
    exists y. split; [|exact Hqy].
    now apply (Permutation_in _ (Permutation_sym Hperm)).
Qed.

(** X25.  What [_analyze_font_characteristics] finds in the first twenty
    pages: [sizes] holds each size of a span once, from the largest
    down, and nothing else; [large_sizes] is its first three items; and
    the median lies between two of the sizes of the spans, or is 12 when
    these pages have no span. *)
Theorem analyze_font_characteristics_sizes doc :
  strictly_decreasing (sizes (_analyze_font_characteristics doc))
  /\ large_sizes (_analyze_font_characteristics doc)
     = firstn 3 (sizes (_analyze_font_characteristics doc))
  /\ (forall q, In q (sizes (_analyze_font_characteristics doc)) ->
                In q (sampled_sizes doc))
  /\ (forall q, In q (sampled_sizes doc) ->
                exists q', In q' (sizes (_analyze_font_characteristics doc))
                           /\ (q == q')%Q)
  /\ ((sampled_sizes doc = []
       /\ median_size (_analyze_font_characteristics doc) = 12%Q)
      \/ exists lo hi,
           In lo (sampled_sizes doc) /\ In hi (sampled_sizes doc)
           /\ (lo <= median_size (_analyze_font_characteristics doc))%Q
           /\ (median_size (_analyze_font_characteristics doc) <= hi)%Q).
Proof.
  destruct (analyze_sizes_sampled doc) as (H1 & H2 & H3).
  destruct (analyze_sizes doc) as [_ Hlarge].
  repeat split; try assumption.
  unfold _analyze_font_characteristics.
  destruct (sampled_sizes doc) as [|q l] eqn:E; [left; now split|].
  right. cbn [median_size]. apply median_between. discriminate.
Qed.



